(** * Pail / Fireproof: secondary index engine, merkle clock replicas and the
    React hook, embedded from the JavaScript sources.

    - [IndexEngine] embeds the index module (the [Index] class with
      [indexEntriesForChanges], [indexEntriesForOldChanges], [bulkIndex],
      [queryIndexRange]).
    - [Prolly] models the prolly-trees library the index module calls.
    - [Clock], [Crdt] and [TestPail] cover the replicas of the prolly test.
    - [Hook] embeds the [use-fireproof] package ([husher], [doSetup],
      [listenerCallback]). *)

From Stdlib Require Import ZArith List String Bool Lia Permutation.
From Stdlib Require Import DecimalString DecimalPos.
From stdpp Require Import base gmap strings list sorting countable.

Set Default Proof Using "Type".

(** ** JavaScript values *)

(** The values that flow through the index: emitted keys and values, document
    fields, and the two-element arrays [[k, id]] used as composite keys. *)
Inductive JSValue : Type :=
| JUndefined
| JNull
| JBool (b : bool)
| JNum (n : Z)
| JStr (s : string)
| JArr2 (a b : JSValue).

Global Instance JSValue_eq_dec : EqDecision JSValue.
Proof. solve_decision. Defined.

(** [key[1]] on a two-element array; [undefined] on anything else. *)
Definition index1 (v : JSValue) : JSValue :=
  match v with
  | JArr2 _ b => b
  | _ => JUndefined
  end.

Definition is_composite (v : JSValue) : bool :=
  match v with
  | JArr2 _ _ => true
  | _ => false
  end.

Definition typeRank (v : JSValue) : nat :=
  match v with
  | JUndefined => 0
  | JNull => 1
  | JBool _ => 2
  | JNum _ => 3
  | JStr _ => 4
  | JArr2 _ _ => 5
  end.

(** Modelled from the spec: the tree comparator ("byte-lexicographic on encoded
    keys").  The library's [simpleCompare] is not part of the sources; the
    model orders values of different types by type and arrays
    lexicographically. *)
Fixpoint compare (a b : JSValue) : comparison :=
  match a, b with
  | JBool x, JBool y => Bool.compare x y
  | JNum x, JNum y => Z.compare x y
  | JStr x, JStr y => String.compare x y
  | JArr2 a1 a2, JArr2 b1 b2 =>
      match compare a1 b1 with
      | Eq => compare a2 b2
      | c => c
      end
  | _, _ => Nat.compare (typeRank a) (typeRank b)
  end.

Definition keyEq (a b : JSValue) : bool :=
  match compare a b with Eq => true | _ => false end.

Definition keyLe (a b : JSValue) : bool :=
  match compare a b with Gt => false | _ => true end.

(** ** Exceptions and the state monad of the async code *)

Inductive Error : Type :=
| NotFound                     (* block store / tree lookup failure *)
| MissingEvent                 (* an event block of the clock is not resolvable *)
| TypeError (what : string)    (* reading a property of null or undefined *)
| Thrown (e : JSValue).        (* a value thrown by user code *)

Inductive Result (A : Type) : Type :=
| Ok (a : A)
| Err (e : Error).
Arguments Ok {A} a.
Arguments Err {A} e.

(** A computation over a mutable object of type [S].  An exception leaves the
    mutations made so far in place, as in JavaScript. *)
Definition M (S A : Type) : Type := S -> Result A * S.

Definition ret {S A} (a : A) : M S A := fun s => (Ok a, s).
Definition throw {S A} (e : Error) : M S A := fun s => (Err e, s).
Definition bind {S A B} (c : M S A) (k : A -> M S B) : M S B :=
  fun s =>
    match c s with
    | (Ok a, s') => k a s'
    | (Err e, s') => (Err e, s')
    end.
Definition gets {S A} (f : S -> A) : M S A := fun s => (Ok (f s), s).
Definition modify {S} (f : S -> S) : M S unit := fun s => (Ok tt, f s).
Definition liftResult {S A} (r : Result A) : M S A := fun s => (r, s).

(** Run a computation on a component of the state. *)
Definition zoom {S T A} (proj : S -> T) (upd : T -> S -> S) (c : M T A) : M S A :=
  fun s => let '(r, t') := c (proj s) in (r, upd t' s).

Declare Scope js_scope.
Delimit Scope js_scope with js.
Notation "'let!' x ':=' c 'in' k" := (bind c (fun x => k))
  (at level 10, x name, c at level 100, k at level 200) : js_scope.
Notation "c1 ';;' c2" := (bind c1 (fun _ => c2))
  (at level 100, c2 at level 200, right associativity) : js_scope.
Local Open Scope js_scope.

(** ** Blocks and the block store *)

(** Modelled from the spec: the block codec and hasher.  An encoded tree node
    is represented by the record it decodes to (its sorted entries), and the
    CID of a block by the content it addresses, so that CID equality is
    content equality and equal records always get the same CID. *)
Definition Bytes : Type := list (JSValue * JSValue).

Inductive CID : Type := CidOf (content : Bytes).

Global Instance CID_eq_dec : EqDecision CID.
Proof. solve_decision. Defined.

(** A block object as the index module sees it: [{ cid, bytes }].  The [cid]
    property is optional because [queryIndexRange] tests it. *)
Record Block : Type := mkBlock { cid : option CID; bytes : Bytes }.

Global Instance Block_eq_dec : EqDecision Block.
Proof. solve_decision. Defined.

(** Modelled from the spec: the block store, keyed by CID ([get] fails with
    [NotFound] when the CID is absent, [put] is idempotent).  It is shared by
    reference between the objects that hold it, so it is the state of the
    computations that use it. *)
Module Blockstore.
Definition t (C B : Type) : Type := list (C * B).

Definition empty {C B} : t C B := [].

Fixpoint lookup {C B} `{EqDecision C} (c : C) (bs : t C B) : option B :=
  match bs with
  | [] => None
  | (c', b) :: rest => if decide (c = c') then Some b else lookup c rest
  end.

Definition has {C B} `{EqDecision C} (c : C) (bs : t C B) : bool :=
  match lookup c bs with
  | Some _ => true
  | None => false
  end.

Definition get {C B} `{EqDecision C} (c : C) : M (t C B) B :=
  fun bs =>
    match lookup c bs with
    | Some b => (Ok b, bs)
    | None => (Err NotFound, bs)
    end.

Definition put {C B} `{EqDecision C} (c : C) (b : B) : M (t C B) unit :=
  fun bs =>
    match lookup c bs with
    | Some _ => (Ok tt, bs)
    | None => (Ok tt, bs ++ [(c, b)])
    end.
End Blockstore.

(** ** The prolly tree library *)

(** Modelled from the spec: the prolly-trees library ([create], [load],
    [bulk], [getMany], [range]) is not part of the sources.  A tree is modelled
    by its logical content, the list of [(key, value)] pairs sorted by the
    comparator and held in a single root block; node boundaries chosen by the
    chunker are abstracted away.  Equal contents give equal root blocks. *)
Module Prolly.

(** A batch entry: [{ key, value }] (put) or [{ key, del: true }] (remove).
    An absent [value] is [undefined], an absent [del] is [false]. *)
Record IndexEntry : Type :=
  mkEntry { e_key : JSValue; e_value : JSValue; e_del : bool }.

(** A row of a range scan: [{ id, key, row }], fields in this order. *)
Record Row : Type := mkRow { r_id : JSValue; r_key : JSValue; r_row : JSValue }.

Fixpoint insert (k v : JSValue) (l : Bytes) : Bytes :=
  match l with
  | [] => [(k, v)]
  | (k', v') :: rest =>
      match compare k k' with
      | Lt => (k, v) :: (k', v') :: rest
      | Eq => (k, v) :: rest
      | Gt => (k', v') :: insert k v rest
      end
  end.

(** [{ key, del: true }] removes the entry of the tree with that key.  The
    spec does not say what the library does with a [del] entry whose key the
    tree does not hold; here nothing is removed.  Statements that would depend
    on this case are made over any library instead (see [bulkIndexOver]). *)
Definition remove (k : JSValue) (l : Bytes) : Bytes :=
  List.filter (fun kv => negb (keyEq k (fst kv))) l.

Definition applyEntry (l : Bytes) (e : IndexEntry) : Bytes :=
  if e_del e then remove (e_key e) l else insert (e_key e) (e_value e) l.

Definition applyBatch (l : Bytes) (es : list IndexEntry) : Bytes :=
  fold_left applyEntry es l.

Definition nodeBlock (content : Bytes) : Block :=
  mkBlock (Some (CidOf content)) content.

(** An opened tree: its root block and the decoded entries. *)
Record Tree : Type := mkTree { t_block : Block; t_entries : Bytes }.

(** [create({ get, list, ...opts })]: the stream of node blocks of a fresh
    tree, bottom-up; the last one is the root. *)
Definition create (entries : list IndexEntry) : list Block :=
  [nodeBlock (applyBatch [] entries)].

(** [load({ cid, get, ...opts })]: opens the tree by reading its root block
    through [get]. *)
Definition load {S} (c : option CID) (get : CID -> M S Block) : M S Tree :=
  match c with
  | None => throw (TypeError "cid")
  | Some c =>
      let! b := get c in
      ret (mkTree b (bytes b))
  end.

(** [tree.bulk(entries)]: the new root and the blocks to add. *)
Record BulkResult : Type := mkBulk { b_root : Block; b_blocks : list Block }.

Definition bulk (t : Tree) (es : list IndexEntry) : BulkResult :=
  let b := nodeBlock (applyBatch (t_entries t) es) in
  mkBulk b [b].

Fixpoint find (k : JSValue) (l : Bytes) : option JSValue :=
  match l with
  | [] => None
  | (k', v) :: rest => if keyEq k k' then Some v else find k rest
  end.

(** [tree.getMany(keys)]: the values in input order, missing keys skipped. *)
Definition getMany (t : Tree) (keys : list JSValue) : list JSValue :=
  omap (fun k => find k (t_entries t)) keys.

(** The bounds of a range are inclusive. *)
Definition inRange (lo hi k : JSValue) : bool := keyLe lo k && keyLe k hi.

(** [tree.range(lo, hi)] on a tree keyed by [[emittedKey, docId]]: the rows
    whose emitted key lies in [[lo, hi]], in tree order.  The library names
    the two components of the composite key the other way round: the row's
    [id] is the emitted key and its [key] is the docId.  This is the naming
    that [Index.query] undoes ("fix this naming upstream in prolly/db-index")
    and under which scenario S5 of the spec gets its row with id "u"; the
    parenthetical of the spec's query step 3 names them the opposite way. *)
Definition range (t : Tree) (lo hi : JSValue) : list Row :=
  omap (fun kv =>
          match fst kv with
          | JArr2 k docId => if inRange lo hi k then Some (mkRow k docId (snd kv)) else None
          | _ => None
          end) (t_entries t).

End Prolly.

(** ** The index module *)

Module IndexEngine.
Import Prolly.

Definition ALWAYS_REBUILD : bool := false.

(** A clock head as the index sees it: an array of event CIDs, only stored
    and passed back to [changesSince]. *)
Definition Head : Type := list string.

(** A row of [changesSince]: [{ key, value, del }]; [value] is the document
    body (an object), [del] may be absent. *)
Record Change : Type :=
  mkChange { c_key : string; c_value : gmap string JSValue; c_del : option bool }.

Record Changes : Type := mkChanges { ch_rows : list Change; ch_head : Head }.

(** The database object held by an index.  Its class is not part of the
    sources; the index only reads [database.blocks] and calls
    [database.changesSince], which is taken as a parameter. *)
Record Fireproof : Type :=
  mkFireproof { blocks : Blockstore.t CID Bytes;
                changesSince : option Head -> Result Changes }.

(** One run of the user's map function on a document: the [emit(k, v)] calls
    it made, in order, and the value it threw, if any. *)
Record MapOutcome : Type :=
  mkOutcome { emitted : list (JSValue * JSValue); thrown : option JSValue }.

Definition MapFun : Type := gmap string JSValue -> MapOutcome.

Record Index : Type :=
  mkIndex { database : Fireproof;
            mapFun : MapFun;
            indexRoot : option Block;
            byIDindexRoot : option Block;
            dbHead : option Head }.

Definition Index_new (database : Fireproof) (mapFun : MapFun) : Index :=
  mkIndex database mapFun None None None.

Definition set_indexRoot (r : option Block) (this : Index) : Index :=
  mkIndex (database this) (mapFun this) r (byIDindexRoot this) (dbHead this).
Definition set_byIDindexRoot (r : option Block) (this : Index) : Index :=
  mkIndex (database this) (mapFun this) (indexRoot this) r (dbHead this).
Definition set_dbHead (h : option Head) (this : Index) : Index :=
  mkIndex (database this) (mapFun this) (indexRoot this) (byIDindexRoot this) h.
Definition set_blocks (bs : Blockstore.t CID Bytes) (this : Index) : Index :=
  mkIndex (mkFireproof bs (changesSince (database this))) (mapFun this)
          (indexRoot this) (byIDindexRoot this) (dbHead this).

(** A computation on [this.database.blocks]. *)
Definition onBlocks {A} (c : M (Blockstore.t CID Bytes) A) : M Index A :=
  zoom (fun this => blocks (database this)) set_blocks c.

(** [makeGetBlock(blocks)] *)
Definition getBlock (address : CID) : M (Blockstore.t CID Bytes) Block :=
  let! b := Blockstore.get address in
  ret (mkBlock (Some address) b).

(** [putBlock = blocks.put.bind(blocks)], applied to [block.cid, block.bytes] *)
Definition putBlock (b : Block) : M (Blockstore.t CID Bytes) unit :=
  match cid b with
  | Some c => Blockstore.put c (bytes b)
  | None => throw (TypeError "cid")
  end.

(** [{ _id: key, ...value }]: the spread comes last, so a field of [value]
    named [_id] overrides the key. *)
Definition makeDoc (key : string) (value : gmap string JSValue) : gmap string JSValue :=
  value ∪ {[ "_id"%string := JStr key ]}.

Definition truthy (del : option bool) : bool :=
  match del with
  | Some true => true
  | _ => false
  end.

(** The [changes.forEach] loop of [indexEntriesForChanges], with the array
    [indexEntries] it pushes to. *)
Fixpoint forEachChange (changes : list Change) (mapFun : MapFun)
         (indexEntries : list IndexEntry) : Result (list IndexEntry) :=
  match changes with
  | [] => Ok indexEntries
  | c :: rest =>
      if truthy (c_del c) then forEachChange rest mapFun indexEntries
      else
        let out := mapFun (makeDoc (c_key c) (c_value c)) in
        let indexEntries' :=
          indexEntries ++
            map (fun kv => mkEntry (JArr2 (fst kv) (JStr (c_key c))) (snd kv) false)
                (emitted out) in
        match thrown out with
        | Some e => Err (Thrown e)
        | None => forEachChange rest mapFun indexEntries'
        end
  end.

Definition indexEntriesForChanges (changes : list Change) (mapFun : MapFun)
  : Result (list IndexEntry) :=
  forEachChange changes mapFun [].

Definition indexEntriesForOldChanges (byIDindexRoot : option Block)
           (ids : list JSValue) (mapFun : MapFun) : M (Blockstore.t CID Bytes) (list JSValue) :=
  match byIDindexRoot with
  | None => throw (TypeError "cid")
  | Some r =>
      let! byIDindex := load (cid r) getBlock in
      ret (getMany byIDindex ids)
  end.

(** The [for await] loop of the create branch: every node block is stored
    and the last one becomes [inRoot]. *)
Fixpoint putNodes (nodes : list Block) (inRoot : option Block)
  : M (Blockstore.t CID Bytes) (option Block) :=
  match nodes with
  | [] => ret inRoot
  | block :: rest => putBlock block ;; putNodes rest (Some block)
  end.

Fixpoint putBlocks (bs : list Block) : M (Blockstore.t CID Bytes) unit :=
  match bs with
  | [] => ret tt
  | block :: rest => putBlock block ;; putBlocks rest
  end.

Definition bulkIndex (inRoot : option Block) (indexEntries : list IndexEntry)
  : M (Blockstore.t CID Bytes) (option Block) :=
  if Nat.eqb (length indexEntries) 0 then ret inRoot
  else
    match inRoot with
    | None =>
        let! inRoot := putNodes (create indexEntries) None in
        match inRoot with
        | None => throw (TypeError "cid")
        | Some b => ret (Some b)
        end
    | Some r =>
        let! index := load (cid r) getBlock in
        let res := bulk index indexEntries in
        putBlocks (b_blocks res) ;;
        ret (Some (b_root res))
    end.

Record Query : Type := mkQuery { q_range : JSValue * JSValue }.

Record QueryResult : Type := mkQueryResult { result : list Row }.

(** The root parameter is destructured as [{ cid }]: a [null] root raises a
    [TypeError] before the body runs. *)
Definition queryIndexRange (inRoot : option Block) (query : Query)
  : M (Blockstore.t CID Bytes) QueryResult :=
  match inRoot with
  | None => throw (TypeError "Cannot destructure property cid of null")
  | Some r =>
      match cid r with
      | None => ret (mkQueryResult [])
      | Some c =>
          let! index := load (Some c) getBlock in
          ret (mkQueryResult (range index (fst (q_range query)) (snd (q_range query))))
      end
  end.

(** The invalidation entries built from the prior emissions found in the
    byId tree: [.map((key) => ({ key: undefined, del: true }))]. *)
Definition oldIndexEntriesOf (prior : list JSValue) : list IndexEntry :=
  map (fun key => mkEntry JUndefined JUndefined true) prior.

(** [indexEntries.map(({ key, value }) => ({ key: key[1], value: key }))] *)
Definition byIdIndexEntriesOf (indexEntries : list IndexEntry) : list IndexEntry :=
  map (fun e => mkEntry (index1 (e_key e)) (e_key e) false) indexEntries.

(** The [if (this.dbHead) { ... }] block of [#updateIndex].  [dbHead] is
    [null] or an array, and every array, the empty one included, is truthy. *)
Definition invalidateOld (result : Changes) : M Index unit :=
  let! dbHead_ := gets dbHead in
  match dbHead_ with
  | None => ret tt
  | Some _ =>
      let! byId := gets byIDindexRoot in
      let! mapFun_ := gets mapFun in
      let! prior := onBlocks (indexEntriesForOldChanges byId
                                (map (fun c => JStr (c_key c)) (ch_rows result)) mapFun_) in
      let oldIndexEntries := oldIndexEntriesOf prior in
      let! inRoot := gets indexRoot in
      let! r := onBlocks (bulkIndex inRoot oldIndexEntries) in
      modify (set_indexRoot r)
  end.

Definition updateIndex : M Index unit :=
  (if ALWAYS_REBUILD
   then modify (set_dbHead None) ;; modify (set_indexRoot None)
   else ret tt) ;;
  let! db := gets database in
  let! dbHead_ := gets dbHead in
  let! result := liftResult (changesSince db dbHead_) in
  invalidateOld result ;;
  let! mapFun_ := gets mapFun in
  let! indexEntries := liftResult (indexEntriesForChanges (ch_rows result) mapFun_) in
  let byIdIndexEntries := byIdIndexEntriesOf indexEntries in
  let! byId := gets byIDindexRoot in
  let! r1 := onBlocks (bulkIndex byId byIdIndexEntries) in
  modify (set_byIDindexRoot r1) ;;
  let! inRoot := gets indexRoot in
  let! r2 := onBlocks (bulkIndex inRoot indexEntries) in
  modify (set_indexRoot r2) ;;
  modify (set_dbHead (Some (ch_head result))).

(** A row handed to the caller of [query]: [{ id, key, value }]. *)
Record QueryRow : Type := mkQueryRow { id : JSValue; key : JSValue; value : JSValue }.

Record QueryResponse : Type := mkQueryResponse { rows : list QueryRow }.

(** [({ id, key, row }) => ({ id: key, key: id, value: row })] *)
Definition toQueryRow (r : Row) : QueryRow :=
  mkQueryRow (r_key r) (r_id r) (r_row r).

Definition query (query_ : Query) (root : option Block) : M Index QueryResponse :=
  (match root with
   | None => updateIndex
   | Some _ => ret tt
   end) ;;
  let! root_ := gets (fun this => match root with
                                  | Some r => Some r
                                  | None => indexRoot this
                                  end) in
  let! response := onBlocks (queryIndexRange root_ query_) in
  ret (mkQueryResponse (map toQueryRow (result response))).

(** *** The refresh over any tree library

    The spec does not say what [tree.bulk] does with a [del] entry whose key
    the tree does not hold, and the invalidation entries of [#updateIndex]
    all name the key [undefined].  Below are [bulkIndex], the invalidation
    block, [#updateIndex] and [query] once more, line for line, with the
    library's [bulk] as a parameter; with [Prolly.bulk] they are the
    definitions above. *)
Section OverLibrary.
Variable libraryBulk : Tree -> list IndexEntry -> BulkResult.

Definition bulkIndexOver (inRoot : option Block) (indexEntries : list IndexEntry)
  : M (Blockstore.t CID Bytes) (option Block) :=
  if Nat.eqb (length indexEntries) 0 then ret inRoot
  else
    match inRoot with
    | None =>
        let! inRoot := putNodes (create indexEntries) None in
        match inRoot with
        | None => throw (TypeError "cid")
        | Some b => ret (Some b)
        end
    | Some r =>
        let! index := load (cid r) getBlock in
        let res := libraryBulk index indexEntries in
        putBlocks (b_blocks res) ;;
        ret (Some (b_root res))
    end.

Definition invalidateOldOver (result : Changes) : M Index unit :=
  let! dbHead_ := gets dbHead in
  match dbHead_ with
  | None => ret tt
  | Some _ =>
      let! byId := gets byIDindexRoot in
      let! mapFun_ := gets mapFun in
      let! prior := onBlocks (indexEntriesForOldChanges byId
                                (map (fun c => JStr (c_key c)) (ch_rows result)) mapFun_) in
      let oldIndexEntries := oldIndexEntriesOf prior in
      let! inRoot := gets indexRoot in
      let! r := onBlocks (bulkIndexOver inRoot oldIndexEntries) in
      modify (set_indexRoot r)
  end.

Definition updateIndexOver : M Index unit :=
  (if ALWAYS_REBUILD
   then modify (set_dbHead None) ;; modify (set_indexRoot None)
   else ret tt) ;;
  let! db := gets database in
  let! dbHead_ := gets dbHead in
  let! result := liftResult (changesSince db dbHead_) in
  invalidateOldOver result ;;
  let! mapFun_ := gets mapFun in
  let! indexEntries := liftResult (indexEntriesForChanges (ch_rows result) mapFun_) in
  let byIdIndexEntries := byIdIndexEntriesOf indexEntries in
  let! byId := gets byIDindexRoot in
  let! r1 := onBlocks (bulkIndexOver byId byIdIndexEntries) in
  modify (set_byIDindexRoot r1) ;;
  let! inRoot := gets indexRoot in
  let! r2 := onBlocks (bulkIndexOver inRoot indexEntries) in
  modify (set_indexRoot r2) ;;
  modify (set_dbHead (Some (ch_head result))).

Definition queryOver (query_ : Query) (root : option Block) : M Index QueryResponse :=
  (match root with
   | None => updateIndexOver
   | Some _ => ret tt
   end) ;;
  let! root_ := gets (fun this => match root with
                                  | Some r => Some r
                                  | None => indexRoot this
                                  end) in
  let! response := onBlocks (queryIndexRange root_ query_) in
  ret (mkQueryResponse (map toQueryRow (result response))).

End OverLibrary.

(** The forward and byId entries of a batch of changes, in the words of the
    spec: every non-deleted change is run through the map function, and each
    [emit(k, v)] gives [{ key: [k, docId], value: v }] and
    [{ key: docId, value: [k, docId] }]. *)
Definition emissionsOf (mapFun : MapFun) (c : Change) : list (JSValue * JSValue) :=
  emitted (mapFun (makeDoc (c_key c) (c_value c))).

Definition nonDeleted (changes : list Change) : list Change :=
  List.filter (fun c => negb (truthy (c_del c))) changes.

Definition forwardEntriesSpec (changes : list Change) (mapFun : MapFun) : list IndexEntry :=
  flat_map (fun c =>
              map (fun kv => mkEntry (JArr2 (fst kv) (JStr (c_key c))) (snd kv) false)
                  (emissionsOf mapFun c))
           (nonDeleted changes).

Definition byIdEntriesSpec (changes : list Change) (mapFun : MapFun) : list IndexEntry :=
  flat_map (fun c =>
              map (fun kv => mkEntry (JStr (c_key c)) (JArr2 (fst kv) (JStr (c_key c))) false)
                  (emissionsOf mapFun c))
           (nonDeleted changes).

(** Every pair of the store is content-addressed. *)
Definition wfStore (bs : Blockstore.t CID Bytes) : Prop :=
  Forall (fun cb => fst cb = CidOf (snd cb)) bs.

(** What holds of an index between two operations: the store is
    content-addressed, the forward root is a tree whose keys are all composite
    keys, and a byId tree never exists without a forward tree. *)
Definition compositeKeys (content : Bytes) : Prop :=
  Forall (fun kv => is_composite (fst kv) = true) content.

Definition IndexInv (this : Index) : Prop :=
  wfStore (blocks (database this)) /\
  (forall b, indexRoot this = Some b ->
             exists content, b = nodeBlock content /\ compositeKeys content) /\
  (byIDindexRoot this <> None -> indexRoot this <> None).

(** The database object is mutated by its user between queries: other blocks
    are stored and [changesSince] answers differently. *)
Definition withDatabase (db : Fireproof) (this : Index) : Index :=
  mkIndex db (mapFun this) (indexRoot this) (byIDindexRoot this) (dbHead this).

(** The states an index goes through: it is created on a database, queried,
    and the database changes under it. *)
Inductive reachable : Index -> Prop :=
| reach_new db mapFun :
    wfStore (blocks db) -> reachable (Index_new db mapFun)
| reach_query q root this :
    reachable this -> reachable (snd (query q root this))
| reach_database db this :
    wfStore (blocks db) -> reachable this -> reachable (withDatabase db this).

(** The [for ... of] loop of [oldDocsBeforeChanges]; the Map [oldDocs] is kept
    as its entries in insertion order, and [snapshot.get] is a parameter.  An
    error whose message is 'Not found' is [NotFound]; any other is rethrown. *)
Fixpoint oldDocsLoop {D} (keys : list string) (get : string -> Result D)
         (oldDocs : list (string * D)) : Result (list (string * D)) :=
  match keys with
  | [] => Ok oldDocs
  | key :: rest =>
      if existsb (fun kd => bool_decide (fst kd = key)) oldDocs
      then oldDocsLoop rest get oldDocs
      else
        match get key with
        | Ok change => oldDocsLoop rest get (oldDocs ++ [(key, change)])
        | Err NotFound => oldDocsLoop rest get oldDocs
        | Err e => Err e
        end
  end.

Definition oldDocsBeforeChanges {D} (changes : list Change) (get : string -> Result D)
  : Result (list D) :=
  match oldDocsLoop (map c_key changes) get [] with
  | Ok oldDocs => Ok (map snd oldDocs)
  | Err e => Err e
  end.

(** The elements of a list at their first occurrence, in order. *)
Fixpoint firstOccurrences (keys : list string) : list string :=
  match keys with
  | [] => []
  | k :: rest => k :: List.filter (fun k' => negb (bool_decide (k' = k))) (firstOccurrences rest)
  end.

(** What [snapshot.get] has for a key: its document, or nothing when it
    raises. *)
Definition found {D} (get : string -> Result D) (key : string) : option D :=
  match get key with
  | Ok d => Some d
  | Err _ => None
  end.

(** [snapshot.get] returns for the key or reports it as not found. *)
Definition quiet {D} (get : string -> Result D) (key : string) : Prop :=
  match get key with
  | Ok _ => True
  | Err e => e = NotFound
  end.

(** A change the [forEach] loop of [indexEntriesForChanges] gets past: it is
    deleted, or the map function returns on its document. *)
Definition passes (mapFun : MapFun) (c : Change) : Prop :=
  truthy (c_del c) = true \/ thrown (mapFun (makeDoc (c_key c) (c_value c))) = None.

End IndexEngine.

(** ** The merkle clock *)

(** Modelled from the spec: the clock module ([advance]) imported by the
    prolly test is not part of the sources.  An event block is the record
    [{ parents, data }]; the CID of an event is modelled by the event it
    addresses, parents included, so the clock is a Merkle DAG by construction
    and equal events have equal CIDs. *)
Module Clock.

Inductive EventData : Type :=
| Put (key value : string)
| Del (key : string).

Global Instance EventData_eq_dec : EqDecision EventData.
Proof. solve_decision. Defined.

Global Instance EventData_countable : Countable EventData.
Proof.
  refine (inj_countable'
            (fun d => match d with Put k v => inl (k, v) | Del k => inr k end)
            (fun s => match s with inl (k, v) => Put k v | inr k => Del k end) _).
  intros [k v|k]; reflexivity.
Defined.

#[local] Unset Elimination Schemes.
Inductive EventLink : Type :=
| Link (parents : list EventLink) (data : EventData).
#[local] Set Elimination Schemes.

Definition parents (e : EventLink) : list EventLink :=
  match e with Link ps _ => ps end.

Definition data (e : EventLink) : EventData :=
  match e with Link _ d => d end.

Global Instance EventLink_eq_dec : EqDecision EventLink.
Proof.
  refine (fix go (x y : EventLink) {struct x} : Decision (x = y) :=
            match x, y with
            | Link ps d, Link qs d' =>
                cast_if_and (decide (d = d')) (@list_eq_dec _ go ps qs)
            end); congruence.
Defined.

(** The deterministic binary encoding of an event, through stdpp's generic
    trees. *)
Fixpoint toTree (e : EventLink) : gen_tree EventData :=
  match e with
  | Link ps d => GenNode 0 (GenLeaf d :: map toTree ps)
  end.

Fixpoint ofTree (t : gen_tree EventData) : EventLink :=
  match t with
  | GenNode _ (GenLeaf d :: ts) => Link (map ofTree ts) d
  | _ => Link [] (Del EmptyString)
  end.

Global Instance EventLink_countable : Countable EventLink.
Proof.
  refine (inj_countable' toTree ofTree _).
  fix IH 1. intros [ps d]. simpl. f_equal.
  induction ps as [|p ps IHps]; simpl; [reflexivity|].
  f_equal; [apply IH | exact IHps].
Defined.

(** CID byte order: the order of the encodings. *)
Definition cidLtb (a b : EventLink) : bool := Pos.ltb (encode a) (encode b).

(** [isAncestor a e]: [a] is reachable from [e] through one or more parent
    links. *)
Fixpoint isAncestor (a e : EventLink) {struct e} : bool :=
  match e with
  | Link ps _ => existsb (fun p => bool_decide (p = a) || isAncestor a p) ps
  end.

(** The events reachable from [e], [e] included. *)
Fixpoint history (e : EventLink) : list EventLink :=
  match e with
  | Link ps _ => e :: flat_map history ps
  end.

(** The events reachable from a head. *)
Definition events (head : list EventLink) : list EventLink :=
  flat_map history head.

(** The links held in the block store of a pail: events and tree roots. *)
Inductive AnyLink : Type :=
| EventCid (e : EventLink)
| ShardCid (entries : gmap string string).

Global Instance AnyLink_eq_dec : EqDecision AnyLink.
Proof. solve_decision. Defined.

(** The store of a pail; the bytes of a block are represented by the record
    they decode to. *)
Definition Blocks : Type := Blockstore.t AnyLink AnyLink.

(** An event whose block and whose ancestors' blocks are all in the store. *)
Fixpoint resolvable (blocks : Blocks) (e : EventLink) {struct e} : bool :=
  match e with
  | Link ps _ =>
      Blockstore.has (EventCid e) blocks && forallb (resolvable blocks) ps
  end.

(** Ancestry, as [advance] computes it: a breadth-first search through
    [parents], starting from [e], for the event [a].  Taking an event from the
    queue reads its block; a block that is not in the store raises
    [MissingEvent].  The queue holds one entry per path from [e], so the
    number of paths bounds the search; memoising the events seen changes
    neither the answer nor the error. *)
Fixpoint search (fuel : nat) (blocks : Blocks) (a : EventLink) (queue : list EventLink)
  : Result bool :=
  match fuel with
  | 0 => Ok false
  | S fuel' =>
      match queue with
      | [] => Ok false
      | link :: rest =>
          if bool_decide (link = a) then Ok true
          else if Blockstore.has (EventCid link) blocks
               then search fuel' blocks a (rest ++ parents link)
               else Err MissingEvent
      end
  end.

(** [contains blocks e a]: [a] is an ancestor of [e]. *)
Definition contains (blocks : Blocks) (e a : EventLink) : Result bool :=
  if Blockstore.has (EventCid e) blocks
  then search (length (history e)) blocks a (parents e)
  else Err MissingEvent.

(** Rule 2 on each event of the head: the head without the ancestors of
    [event], and whether there was one. *)
Fixpoint withoutAncestors (blocks : Blocks) (head : list EventLink) (event : EventLink)
  : Result (list EventLink * bool) :=
  match head with
  | [] => Ok ([], false)
  | h :: rest =>
      match contains blocks event h with
      | Err e => Err e
      | Ok below =>
          match withoutAncestors blocks rest event with
          | Err e => Err e
          | Ok (kept, removed) => Ok (if below then kept else h :: kept, below || removed)
          end
      end
  end.

(** Rule 3: whether [event] is an ancestor of an event of the head. *)
Fixpoint hasDescendant (blocks : Blocks) (head : list EventLink) (event : EventLink)
  : Result bool :=
  match head with
  | [] => Ok false
  | h :: rest =>
      match contains blocks h event with
      | Err e => Err e
      | Ok true => Ok true
      | Ok false => hasDescendant blocks rest event
      end
  end.

(** [advance(blocks, head, event)], the four rules of the spec.  No block is
    read for rule 1, and none when the head is empty. *)
Definition advance (blocks : Blocks) (head : list EventLink) (event : EventLink)
  : Result (list EventLink) :=
  if bool_decide (event ∈ head) then Ok head
  else
    match withoutAncestors blocks head event with
    | Err e => Err e
    | Ok (kept, true) => Ok (kept ++ [event])
    | Ok (_, false) =>
        match hasDescendant blocks head event with
        | Err e => Err e
        | Ok true => Ok head
        | Ok false => Ok (head ++ [event])
        end
    end.

(** Two lists of events with the same elements. *)
Definition sameEvents (l1 l2 : list EventLink) : Prop :=
  forall x, In x l1 <-> In x l2.

(** No event of the head is an ancestor of another one. *)
Definition antichain (head : list EventLink) : Prop :=
  forall x y, In x head -> In y head -> isAncestor x y = false.

End Clock.

(** ** The CRDT engine over the clock *)

(** Modelled from the spec: [put], [get], [getAll] and [root] of the prolly
    module imported by the test are not part of the sources.  They take the
    store and a head (no root), so the tree they work on is the
    materialisation of the events reachable from the head: per key, the entry
    of the event with the highest CID among the writes of that key that have
    no descendant writing the same key (last writer wins on the DAG).  The
    tree is modelled by its logical content, a finite map, which is
    history-independent; its root CID by that content. *)
Module Crdt.
Import Clock.

Definition keyOf (d : EventData) : string :=
  match d with
  | Put k _ => k
  | Del k => k
  end.

Definition writers (k : string) (evs : list EventLink) : list EventLink :=
  List.filter (fun e => bool_decide (keyOf (data e) = k)) evs.

Definition tips (ws : list EventLink) : list EventLink :=
  List.filter (fun e => negb (existsb (isAncestor e) ws)) ws.

Definition highest (ws : list EventLink) : option EventLink :=
  fold_right (fun e acc =>
                match acc with
                | None => Some e
                | Some m => if cidLtb m e then Some e else Some m
                end) None ws.

Definition resolve (evs : list EventLink) (k : string) : option EventData :=
  data <$> highest (tips (writers k evs)).

(** The value a resolved entry gives to its key: none for a delete. *)
Definition valueOf (d : option EventData) : option string :=
  match d with
  | Some (Put _ v) => Some v
  | _ => None
  end.

Definition materialiseOver (evs l : list EventLink) : gmap string string :=
  fold_right (fun e m =>
                match resolve evs (keyOf (data e)) with
                | Some (Put k v) => <[k:=v]> m
                | _ => m
                end) ∅ l.

Definition materialise (evs : list EventLink) : gmap string string :=
  materialiseOver evs evs.

(** [root(blocks, head)] *)
Definition root (blocks : Blocks) (head : list EventLink) : Result AnyLink :=
  if forallb (resolvable blocks) head
  then Ok (ShardCid (materialise (events head)))
  else Err MissingEvent.

Record PutResult : Type :=
  mkPutResult { pr_event : EventLink;
                pr_head : list EventLink;
                pr_root : AnyLink;
                pr_additions : list AnyLink }.

(** [put(blocks, head, key, value)]: the event has the head as parents, the
    entry is applied to the tree of the head, and the new head is the event. *)
Definition put (blocks : Blocks) (head : list EventLink) (key value : string)
  : Result PutResult :=
  if forallb (resolvable blocks) head
  then
    let prior := materialise (events head) in
    let tree := <[key:=value]> prior in
    let event := Link head (Put key value) in
    Ok (mkPutResult event [event] (ShardCid tree) [ShardCid tree])
  else Err MissingEvent.

(** [get(blocks, head, key)] *)
Definition get (blocks : Blocks) (head : list EventLink) (key : string)
  : Result string :=
  if forallb (resolvable blocks) head
  then match materialise (events head) !! key with
       | Some v => Ok v
       | None => Err NotFound
       end
  else Err MissingEvent.

Definition keyLeb (a b : string * string) : Prop := String.leb (fst a) (fst b) = true.

Global Instance keyLeb_dec (a b : string * string) : Decision (keyLeb a b).
Proof. unfold keyLeb. apply _. Defined.

(** [getAll(blocks, head)]: the entries in key order. *)
Definition getAll (blocks : Blocks) (head : list EventLink)
  : Result (list (string * string)) :=
  if forallb (resolvable blocks) head
  then Ok (merge_sort keyLeb (map_to_list (materialise (events head))))
  else Err MissingEvent.

End Crdt.

(** ** The replicas of the prolly test *)

Module TestPail.
Import Clock.

(** A [TestPail] object.  Its [blocks] field is a reference to a store shared
    with the other replicas, so the store is threaded next to the object. *)
Record t : Type := mkTestPail { head : list EventLink; root : option AnyLink }.

(** [new TestPail(blocks, head)] *)
Definition new (head : list EventLink) : t := mkTestPail head None.

Definition St : Type := Blocks * t.

Definition onStore {A} (c : M Blocks A) : M St A :=
  zoom fst (fun b s => (b, snd s)) c.

Definition set_head (h : list EventLink) (s : St) : St :=
  (fst s, mkTestPail h (root (snd s))).

Definition set_root (r : option AnyLink) (s : St) : St :=
  (fst s, mkTestPail (head (snd s)) r).

(** [blocks.putSync(cid, bytes)] *)
Definition putSync (c : AnyLink) : M St unit :=
  onStore (Blockstore.put c c).

Fixpoint putAdditions (additions : list AnyLink) : M St unit :=
  match additions with
  | [] => ret tt
  | a :: rest => putSync a ;; putAdditions rest
  end.

Definition put (key value : string) : M St Crdt.PutResult :=
  let! blocks := gets fst in
  let! head_ := gets (fun s => head (snd s)) in
  let! result := liftResult (Crdt.put blocks head_ key value) in
  putSync (EventCid (Crdt.pr_event result)) ;;
  putAdditions (Crdt.pr_additions result) ;;
  modify (set_head (Crdt.pr_head result)) ;;
  modify (set_root (Some (Crdt.pr_root result))) ;;
  ret result.

Definition advance (event : EventLink) : M St (list EventLink) :=
  let! blocks := gets fst in
  let! head_ := gets (fun s => head (snd s)) in
  let! h := liftResult (Clock.advance blocks head_ event) in
  modify (set_head h) ;;
  let! blocks' := gets fst in
  let! head' := gets (fun s => head (snd s)) in
  let! r := liftResult (Crdt.root blocks' head') in
  modify (set_root (Some r)) ;;
  gets (fun s => head (snd s)).

Definition get (key : string) : M St string :=
  let! blocks := gets fst in
  let! head_ := gets (fun s => head (snd s)) in
  liftResult (Crdt.get blocks head_ key).

Definition getAll : M St (list (string * string)) :=
  let! blocks := gets fst in
  let! head_ := gets (fun s => head (snd s)) in
  liftResult (Crdt.getAll blocks head_).

(** What holds of a replica between two operations: its head is an
    antichain of events resolvable in the store, and its root is the tree of
    the events reachable from the head. *)
Definition PailInv (s : St) : Prop :=
  antichain (head (snd s)) /\
  (forall h, In h (head (snd s)) -> resolvable (fst s) h = true) /\
  ((head (snd s) <> [] /\
    root (snd s) = Some (ShardCid (Crdt.materialise (events (head (snd s)))))) \/
   (head (snd s) = [] /\ root (snd s) = None)).

(** Two replicas on one store, as in the parallel-put test. *)
Record World : Type := mkWorld { blocks : Blocks; alice : t; bob : t }.

Definition onAlice {A} (c : M St A) : M World A :=
  zoom (fun w => (blocks w, alice w)) (fun s w => mkWorld (fst s) (snd s) (bob w)) c.

Definition onBob {A} (c : M St A) : M World A :=
  zoom (fun w => (blocks w, bob w)) (fun s w => mkWorld (fst s) (alice w) (snd s)) c.

(** Both replicas are created on an empty store with an empty head. *)
Definition emptyWorld : World := mkWorld Blockstore.empty (new []) (new []).

(** A replica applies a sequence of puts; the events it creates, in order. *)
Fixpoint putAll (s : list (string * string)) : M St (list EventLink) :=
  match s with
  | [] => ret []
  | (k, v) :: rest =>
      let! result := put k v in
      let! es := putAll rest in
      ret (Crdt.pr_event result :: es)
  end.

(** A replica advances through a sequence of events of the other replica. *)
Fixpoint advanceAll (es : list EventLink) : M St unit :=
  match es with
  | [] => ret tt
  | e :: rest => advance e ;; advanceAll rest
  end.

(** The exchange of the convergence property: alice applies [s], bob applies
    [s'], then each advances through the events of the other, in an order of
    its own ([orderA], [orderB] rearrange the list of events received). *)
Definition exchange (orderA orderB : list EventLink -> list EventLink)
           (s s' : list (string * string)) : M World unit :=
  let! ea := onAlice (putAll s) in
  let! eb := onBob (putAll s') in
  onAlice (advanceAll (orderA eb)) ;;
  onBob (advanceAll (orderB ea)).

(** Any interleaving of operations of the two replicas; an operation that
    raises leaves what it had done so far: [advance] assigns the head before
    it computes the root. *)
Inductive Op : Type :=
| OpPut (key value : string)
| OpAdvance (event : EventLink).

Inductive Replica : Type := Alice | Bob.

Definition perform (op : Op) : M St unit :=
  match op with
  | OpPut key value => put key value ;; ret tt
  | OpAdvance event => advance event ;; ret tt
  end.

Definition act (w : World) (a : Replica * Op) : Result unit * World :=
  match fst a with
  | Alice => onAlice (perform (snd a)) w
  | Bob => onBob (perform (snd a)) w
  end.

Definition step (w : World) (a : Replica * Op) : World := snd (act w a).

Definition schedule (acts : list (Replica * Op)) : World :=
  fold_left step acts emptyWorld.

(** Every operation of the schedule, run from [w], returns. *)
Fixpoint completes (acts : list (Replica * Op)) (w : World) : bool :=
  match acts with
  | [] => true
  | a :: rest =>
      match act w a with
      | (Ok _, w') => completes rest w'
      | (Err _, _) => false
      end
  end.

(** A replica of the world together with the shared store. *)
Definition stateOf (who : Replica) (w : World) : St :=
  (blocks w, match who with Alice => alice w | Bob => bob w end).

(** The extension of a store by further blocks. *)
Definition extends (b b' : Blocks) : Prop :=
  forall c, Blockstore.has c b = true -> Blockstore.has c b' = true.

End TestPail.

(** ** The React hook package *)

Module Hook.
Import Clock.

(** Modelled from the spec: the [Fireproof] database class of the core
    package is not part of the sources.  Its state is the store and the clock
    head; [getAll] and [changesSince] read the materialisation of the head, as
    the replicas of the test do. *)
Record Fireproof : Type := mkFireproof { blocks : Blocks; clock : list EventLink }.

(** The serialized clock handle [{ clock: [cidString] }].  The JSON text kept
    in local storage is represented by the value it denotes. *)
Record Handle : Type := mkHandle { h_clock : list string }.

(** Modelled from the spec: the string form of a CID, the decimal numeral of
    the event's encoding. *)
Definition cidString (c : EventLink) : string :=
  NilZero.string_of_uint (Pos.to_uint (encode c)).

Definition parseCid (s : string) : option EventLink :=
  match NilZero.uint_of_string s with
  | Some u =>
      match Pos.of_uint u with
      | Npos p => decode p
      | N0 => None
      end
  | None => None
  end.

(** [JSON.stringify(database)] goes through [database.toJSON()]. *)
Definition toJSON (db : Fireproof) : Handle :=
  mkHandle (map cidString (clock db)).

(** [database.setClock(clock)] from the strings of a handle. *)
Definition setClock (clock_ : list string) : M Fireproof unit :=
  fun db =>
    match mapM parseCid clock_ with
    | Some head => (Ok tt, mkFireproof (blocks db) head)
    | None => (Err (TypeError "cid"), db)
    end.

Definition getAll : M Fireproof (list (string * string)) :=
  fun db => (Crdt.getAll (blocks db) (clock db), db).

(** [database.changesSince()] without a head: every row of [getAll]. *)
Definition changesSince : M Fireproof (list (string * string)) := getAll.

(** The module-level state of the package and the browser's local storage.
    A subscriber function is identified by a number; [called] records the
    subscribers invoked, in order. *)
Record App : Type :=
  mkApp { storageSupported : bool;
          localStorage : gmap string Handle;
          database : Fireproof;
          inboundSubscriberQueue : list (string * nat);
          called : list nat;
          ready : bool }.

Definition set_localStorage (ls : gmap string Handle) (a : App) : App :=
  mkApp (storageSupported a) ls (database a) (inboundSubscriberQueue a) (called a) (ready a).
Definition set_database (db : Fireproof) (a : App) : App :=
  mkApp (storageSupported a) (localStorage a) db (inboundSubscriberQueue a) (called a) (ready a).
Definition set_queue (q : list (string * nat)) (a : App) : App :=
  mkApp (storageSupported a) (localStorage a) (database a) q (called a) (ready a).
Definition set_called (c : list nat) (a : App) : App :=
  mkApp (storageSupported a) (localStorage a) (database a) (inboundSubscriberQueue a) c (ready a).
Definition set_ready (r : bool) (a : App) : App :=
  mkApp (storageSupported a) (localStorage a) (database a) (inboundSubscriberQueue a) (called a) r.

Definition onDatabase {A} (c : M Fireproof A) : M App A :=
  zoom database set_database c.

Definition localGet (key : string) : M App (option Handle) :=
  fun a => if storageSupported a then (Ok (localStorage a !! key), a) else (Ok None, a).

Definition localSet (key : string) (value : Handle) : M App unit :=
  fun a =>
    if storageSupported a
    then (Ok tt, set_localStorage (<[key:=value]> (localStorage a)) a)
    else (Ok tt, a).

(** [inboundSubscriberQueue.set(label, fn)] on an insertion-ordered map. *)
Fixpoint mapSet (label : string) (fn : nat) (q : list (string * nat)) : list (string * nat) :=
  match q with
  | [] => [(label, fn)]
  | (l, f) :: rest =>
      if decide (l = label) then (l, fn) :: rest else (l, f) :: mapSet label fn rest
  end.

Definition addSubscriber (label : string) (fn : nat) : M App unit :=
  modify (fun a => set_queue (mapSet label fn (inboundSubscriberQueue a)) a).

Definition listenerCallback : M App unit :=
  let! db := gets database in
  localSet "fireproof" (toJSON db) ;;
  modify (fun a => set_called (called a ++ map snd (inboundSubscriberQueue a)) a).

(** The state behind [husher]: the module-level [husherMap], the clock of the
    event loop, in milliseconds, and the timeouts of the promises in flight.
    The timeout that deletes an id is set by the [finally] callback of the
    promise stored for it, so it is due [ms] milliseconds after that promise
    settles; [timers] lists these timeouts with their due time and the id
    they delete.  A promise that never settles sets none.  A promise is
    identified by a number. *)
Record Hush : Type :=
  mkHush { now : nat;
           husherMap : gmap string nat;
           timers : list (nat * string);
           nextPromise : nat }.

Definition Hush_init : Hush := mkHush 0 ∅ [] 0.

(** A work function [() => Promise]: what calling it does, and the delay
    after which the promise it returns settles, if it ever does. *)
Record WorkFn (S : Type) : Type := mkWorkFn { work : M S unit; settles : option nat }.
Arguments mkWorkFn {S} work settles.
Arguments work {S} w.
Arguments settles {S} w.

(** [husher(id, workFn, ms)]: the work runs only when [husherMap] has no
    entry for [id]; the entry is deleted by a timeout set [ms] after the
    promise settles. *)
Definition husher {S} (id : string) (workFn : WorkFn S) (ms : nat)
  : S * Hush -> nat * (S * Hush) :=
  fun st =>
    let '(s, h) := st in
    match husherMap h !! id with
    | Some p => (p, (s, h))
    | None =>
        let s' := snd (work workFn s) in
        let p := nextPromise h in
        (p, (s', mkHush (now h) (<[id:=p]> (husherMap h))
                        (match settles workFn with
                         | Some d => timers h ++ [(now h + d + ms, id)]
                         | None => timers h
                         end)
                        (Datatypes.S p)))
    end.

(** [dt] milliseconds pass.  The callback of a timeout runs in a turn of the
    event loop of its own, after its due time: it has run at every instant
    later than the due time and has not at the due time itself, so nothing
    runs when no time passes.  Each callback that runs deletes its id. *)
Definition elapse (dt : nat) (h : Hush) : Hush :=
  let t := now h + dt in
  let ran := List.filter (fun tm => Nat.ltb (fst tm) t) (timers h) in
  let pending := List.filter (fun tm => negb (Nat.ltb (fst tm) t)) (timers h) in
  mkHush t (fold_left (fun m tm => delete (snd tm) m) ran (husherMap h)) pending
         (nextPromise h).

(** While [id] is hushed: its entry holds promise [p] and no timer deletes it
    before time [D]. *)
Definition hushed (id : string) (p D : nat) (h : Hush) : Prop :=
  husherMap h !! id = Some p /\
  forall tm, In tm (timers h) -> snd tm = id -> D <= fst tm.

(** A burst of calls [husher(id, workFn_i, ms)], the i-th one [dt_i]
    milliseconds after the previous one; the promises returned. *)
Fixpoint burst {S} (id : string) (ms : nat) (calls : list (nat * WorkFn S))
         (st : S * Hush) : list nat * (S * Hush) :=
  match calls with
  | [] => ([], st)
  | (dt, workFn) :: rest =>
      let '(p, st1) := husher id workFn ms (fst st, elapse dt (snd st)) in
      let '(ps, st2) := burst id ms rest st1 in
      (p :: ps, st2)
  end.

(** What a trailing debounce would do with the same burst, in the words of
    the spec: the work runs once, after the burst, for the last call. *)
Definition trailingDebounce {S} (calls : list (nat * WorkFn S)) (s : S) : S :=
  match list.last (map snd calls) with
  | Some workFn => snd (work workFn s)
  | None => s
  end.

(** [doSetup] of the effect, with the user's [setupFn]; the value registered
    with [listener.on] is what [husher] returned. *)
Definition doSetup (setupFn : M Fireproof unit) (st : App * Hush)
  : Result (option nat) * (App * Hush) :=
  let '(a, h) := st in
  if ready a then (Ok None, (a, h))
  else
    let '(r, a1) :=
      (let! fp := localGet "fireproof" in
       match fp with
       | Some handle =>
           onDatabase (setClock (h_clock handle)) ;;
           (fun a' =>
              match onDatabase changesSince a' with
              | (Ok _, a'') => (Ok tt, a'')
              | (Err _, a'') =>
                  (onDatabase (setClock []) ;;
                   onDatabase setupFn ;;
                   let! db := gets database in
                   localSet "fireproof" (toJSON db)) a''
              end)
       | None =>
           onDatabase setupFn ;;
           let! db := gets database in
           localSet "fireproof" (toJSON db)
       end) a in
    match r with
    | Err e => (Err e, (a1, h))
    | Ok _ =>
        let a2 := set_ready true a1 in
        let '(p, st') := husher "*" (mkWorkFn listenerCallback (Some 0)) 250 (a2, h) in
        (Ok (Some p), st')
    end.

(** A sequence of [addSubscriber(label, fn)] calls. *)
Definition addSubscribers (regs : list (string * nat)) : M App unit :=
  fun a => (Ok tt, fold_left (fun a r => snd (addSubscriber (fst r) (snd r) a)) regs a).

(** The page is loaded again: the module state is fresh (a new database
    object on the same store, no subscriber, not ready), local storage is
    what the browser kept. *)
Definition reload (a : App) : App :=
  mkApp (storageSupported a) (localStorage a)
        (mkFireproof (blocks (database a)) []) [] [] false.



End Hook.

(** ** Concrete runs *)

Module Scenario.
Import Prolly IndexEngine.

(** [mapFn(doc, emit) { emit(doc.age, null) }] *)
Definition ageMap : MapFun :=
  fun doc => mkOutcome [(default JUndefined (doc !! "age"%string), JNull)] None.

Definition aged (n : Z) : gmap string JSValue := {[ "age"%string := JNum n ]}.

(** The database after [put({ _id: "u", age: 20 })], event [e1]. *)
Definition changes1 (since : option Head) : Result Changes :=
  match since with
  | None => Ok (mkChanges [mkChange "u" (aged 20) None] ["e1"%string])
  | Some _ => Ok (mkChanges [] ["e1"%string])
  end.

(** The database after the update to [{ _id: "u", age: 30 }], event [e2]. *)
Definition changes2 (since : option Head) : Result Changes :=
  match since with
  | Some ["e2"%string] => Ok (mkChanges [] ["e2"%string])
  | _ => Ok (mkChanges [mkChange "u" (aged 30) None] ["e2"%string])
  end.

Definition query20 : Query := mkQuery (JNum 20, JNum 20).
Definition query30 : Query := mkQuery (JNum 30, JNum 30).
Definition query10to30 : Query := mkQuery (JNum 10, JNum 30).

Definition freshIndex : Index := Index_new (mkFireproof Blockstore.empty changes1) ageMap.

(** The index after the first query. *)
Definition indexedAt20 : Index := snd (query query20 None freshIndex).

(** The document is updated. *)
Definition updatedTo30 : Index :=
  withDatabase (mkFireproof (blocks (database indexedAt20)) changes2) indexedAt20.

(** An empty database: no rows, empty head. *)
Definition noChanges (since : option Head) : Result Changes := Ok (mkChanges [] []).

Definition emptyIndex : Index := Index_new (mkFireproof Blockstore.empty noChanges) ageMap.

(** A map function that throws on documents without an [age]. *)
Definition strictAgeMap : MapFun :=
  fun doc =>
    match doc !! "age"%string with
    | Some a => mkOutcome [(a, JNull)] None
    | None => mkOutcome [] (Some (JStr "no age"))
    end.

Definition changes3 (since : option Head) : Result Changes :=
  match since with
  | Some ["e2"%string] => Ok (mkChanges [] ["e2"%string])
  | _ => Ok (mkChanges [mkChange "u" ∅ None] ["e2"%string])
  end.

Definition strict0 : Index := Index_new (mkFireproof Blockstore.empty changes1) strictAgeMap.
Definition strict1 : Index := snd (query query20 None strict0).
Definition strict2 : Index :=
  withDatabase (mkFireproof (blocks (database strict1)) changes3) strict1.

(** A database saved by the hook: one put on an empty store; and a fresh
    instance over the same store, as after a reload of the page. *)
Definition savedDb : Hook.Fireproof :=
  let st := snd (TestPail.put "key" "v1" (Blockstore.empty, TestPail.new [])) in
  Hook.mkFireproof (fst st) (TestPail.head (snd st)).

Definition reloadedDb : Hook.Fireproof :=
  Hook.mkFireproof (Hook.blocks savedDb) [].

(** A work function that appends its label to a log; its promise settles
    after [settles_] milliseconds. *)
Definition logWork (label : string) (settles_ : nat) : Hook.WorkFn (list string) :=
  Hook.mkWorkFn (modify (fun log => log ++ [label])) (Some settles_).

(** Two notifications 100 ms apart, hushed with the interval of the hook. *)
Definition twoCalls : list (nat * Hook.WorkFn (list string)) :=
  [(0, logWork "first" 0); (100, logWork "last" 0)].

(** The test "simple parallel put multiple values": bob is created on
    alice's head after her first put.  The final world and what the two
    lookups of the test return. *)
Definition parallelPutTest : M TestPail.World (string * string) :=
  (TestPail.onAlice (TestPail.put "key0" "v0") ;;
   modify (fun w => TestPail.mkWorld (TestPail.blocks w) (TestPail.alice w)
                      (TestPail.new (TestPail.head (TestPail.alice w)))) ;;
   let! a0 := TestPail.onAlice (TestPail.put "key1" "v1") in
   let! b0 := TestPail.onBob (TestPail.put "key2" "v2") in
   let! b1 := TestPail.onBob (TestPail.put "key3" "v3") in
   TestPail.onAlice (TestPail.advance (Crdt.pr_event b0)) ;;
   TestPail.onAlice (TestPail.advance (Crdt.pr_event b1)) ;;
   TestPail.onBob (TestPail.advance (Crdt.pr_event a0)) ;;
   let! a1 := TestPail.onAlice (TestPail.put "key4" "v4") in
   TestPail.onBob (TestPail.advance (Crdt.pr_event a1)) ;;
   let! avalue := TestPail.onAlice (TestPail.get "key2") in
   let! bvalue := TestPail.onBob (TestPail.get "key1") in
   ret (avalue, bvalue))%string.

(** Scenario S3 of the spec: concurrent writes to [k1]. *)
Definition concurrentMerge : M TestPail.World (string * string) :=
  (TestPail.onAlice (TestPail.put "k0" "a") ;;
   modify (fun w => TestPail.mkWorld (TestPail.blocks w) (TestPail.alice w)
                      (TestPail.new (TestPail.head (TestPail.alice w)))) ;;
   let! b1 := TestPail.onBob (TestPail.put "k1" "b1") in
   let! b2 := TestPail.onBob (TestPail.put "k2" "b2") in
   let! a1 := TestPail.onAlice (TestPail.put "k1" "a1") in
   TestPail.onAlice (TestPail.advance (Crdt.pr_event b1)) ;;
   TestPail.onAlice (TestPail.advance (Crdt.pr_event b2)) ;;
   TestPail.onBob (TestPail.advance (Crdt.pr_event a1)) ;;
   let! avalue := TestPail.onAlice (TestPail.get "k1") in
   let! bvalue := TestPail.onBob (TestPail.get "k1") in
   ret (avalue, bvalue))%string.





(** One forward entry, as [emit(20, null)] on the document "u" gives. *)
Definition entry20 : list IndexEntry :=
  [mkEntry (JArr2 (JNum 20) (JStr "u")) JNull false].

(** An index on a database whose [changesSince] raises. *)
Definition offlineIndex : Index :=
  Index_new (mkFireproof Blockstore.empty (fun _ => Err MissingEvent)) ageMap.

(** An index first queried while the database was empty; the document "u" is
    put afterwards. *)
Definition emptyQueried : Index := snd (query query20 None emptyIndex).

Definition emptyThenPut : Index :=
  withDatabase (mkFireproof (blocks (database emptyQueried)) changes2) emptyQueried.

(** Alice puts, bob advances to her event. *)
Definition firstEvent : Clock.EventLink := Clock.Link [] (Clock.Put "k" "v").

Definition sharedPut : list (TestPail.Replica * TestPail.Op) :=
  [(TestPail.Alice, TestPail.OpPut "k" "v");
   (TestPail.Bob, TestPail.OpAdvance firstEvent)].

(** An event no replica has put, on the empty store. *)
Definition emptyPail : TestPail.St := (Blockstore.empty, TestPail.new []).

(** The hook on a first visit, in a session that has saved [savedDb], and on
    a page whose stored clock names an event the store does not hold. *)
Definition firstVisit : Hook.App := Hook.mkApp true ∅ reloadedDb [] [] false.

Definition savedSession : Hook.App := Hook.mkApp true ∅ savedDb [] [] true.

Definition strandedVisit : Hook.App :=
  Hook.mkApp true {[ "fireproof"%string := Hook.toJSON savedDb ]}
             (Hook.mkFireproof Blockstore.empty []) [] [] false.

Definition noSetup : M Hook.Fireproof unit := ret tt.

(** Three registrations, two of them under the label "a". *)
Definition registrations : list (string * nat) :=
  [("a", 1); ("b", 2); ("a", 3)]%string.

End Scenario.

(** * Properties of the index module *)

Module IndexFacts.
Import Prolly IndexEngine.
Local Open Scope js_scope.

(** ** Monad bookkeeping *)


(** [onBlocks] only touches the store of the database. *)
Lemma onBlocks_fields {A} (c : M (Blockstore.t CID Bytes) A) this :
  let this' := snd (onBlocks c this) in
  indexRoot this' = indexRoot this /\
  byIDindexRoot this' = byIDindexRoot this /\
  dbHead this' = dbHead this /\
  mapFun this' = mapFun this /\
  changesSince (database this') = changesSince (database this).
Proof.
  unfold onBlocks, zoom. destruct (c (blocks (database this))) as [r bs].
  simpl. repeat split.
Qed.

(** ** [bulkIndex] *)

Lemma bulkIndex_nil inRoot bs : bulkIndex inRoot [] bs = (Ok inRoot, bs).
Proof. reflexivity. Qed.

(** ** [indexEntriesForChanges] *)

Lemma forEachChange_spec changes mapFun acc :
  (forall c, In c changes -> truthy (c_del c) = false ->
             thrown (mapFun (makeDoc (c_key c) (c_value c))) = None) ->
  forEachChange changes mapFun acc = Ok (acc ++ forwardEntriesSpec changes mapFun).
Proof.
  revert acc. induction changes as [|c rest IH]; intros acc Hno; simpl.
  - unfold forwardEntriesSpec. simpl. rewrite app_nil_r. reflexivity.
  - unfold forwardEntriesSpec, nonDeleted. simpl.
    destruct (truthy (c_del c)) eqn:Hdel; simpl.
    + apply IH. intros c' Hin. apply Hno. right. exact Hin.
    + rewrite (Hno c (or_introl eq_refl) Hdel).
      rewrite IH by (intros c' Hin; apply Hno; right; exact Hin).
      unfold forwardEntriesSpec, nonDeleted, emissionsOf.
      rewrite <- app_assoc. reflexivity.
Qed.

Lemma byIdIndexEntriesOf_spec changes mapFun :
  byIdIndexEntriesOf (forwardEntriesSpec changes mapFun) = byIdEntriesSpec changes mapFun.
Proof.
  unfold byIdIndexEntriesOf, forwardEntriesSpec, byIdEntriesSpec.
  induction (nonDeleted changes) as [|c rest IH]; simpl; [reflexivity|].
  rewrite map_app, IH. f_equal.
  rewrite map_map. reflexivity.
Qed.

Lemma makeDoc_id key value :
  value !! "_id"%string = None ->
  makeDoc key value = <["_id"%string := JStr key]> value.
Proof.
  intros Hid. unfold makeDoc. apply map_eq. intros f.
  rewrite lookup_union, lookup_insert.
  destruct (decide ("_id"%string = f)) as [<-|Hne].
  - rewrite Hid, lookup_singleton_eq. reflexivity.
  - rewrite lookup_singleton_ne by exact Hne.
    destruct (value !! f); reflexivity.
Qed.

Lemma makeDoc_field key value f :
  f <> "_id"%string -> makeDoc key value !! f = value !! f.
Proof.
  intros Hne. unfold makeDoc. rewrite lookup_union.
  rewrite lookup_singleton_ne by congruence.
  destruct (value !! f); reflexivity.
Qed.

(** C6: the entries an index refresh builds from a batch of changes.  When the
    map function does not throw on the non-deleted changes,
    [indexEntriesForChanges] returns exactly the forward entries
    [{ key: [k, docId], value: v }] of the emissions on the documents
    [{ _id: key, ...value }] of the non-deleted changes, in order; the byId
    batch derived from them is exactly [{ key: docId, value: [k, docId] }];
    and a deleted change contributes nothing. *)
Theorem C6_index_entries_for_changes (changes : list Change) (mapFun : MapFun) :
  (forall c, In c changes -> truthy (c_del c) = false ->
             thrown (mapFun (makeDoc (c_key c) (c_value c))) = None) ->
  indexEntriesForChanges changes mapFun = Ok (forwardEntriesSpec changes mapFun) /\
  byIdIndexEntriesOf (forwardEntriesSpec changes mapFun) = byIdEntriesSpec changes mapFun /\
  (forall c pre post, changes = pre ++ c :: post -> truthy (c_del c) = true ->
     forwardEntriesSpec changes mapFun = forwardEntriesSpec (pre ++ post) mapFun) /\
  (forall key value, value !! "_id"%string = None ->
     makeDoc key value = <["_id"%string := JStr key]> value).
Proof.
  intros Hno. repeat split.
  - unfold indexEntriesForChanges. rewrite forEachChange_spec by exact Hno. reflexivity.
  - apply byIdIndexEntriesOf_spec.
  - intros c pre post -> Hdel. unfold forwardEntriesSpec, nonDeleted.
    rewrite !filter_app. simpl. rewrite Hdel. reflexivity.
  - intros key value. apply makeDoc_id.
Qed.

Lemma C6_witness :
  indexEntriesForChanges
    [mkChange "u" (Scenario.aged 20) None; mkChange "w" (Scenario.aged 7) (Some true)]
    Scenario.ageMap
  = Ok [mkEntry (JArr2 (JNum 20) (JStr "u")) JNull false].
Proof.
  pose proof (C6_index_entries_for_changes
                [mkChange "u" (Scenario.aged 20) None;
                 mkChange "w" (Scenario.aged 7) (Some true)]
                Scenario.ageMap) as H.
  destruct H as [H _].
  - intros c Hin Hdel. reflexivity.
  - rewrite H. vm_compute. reflexivity.
Defined.

(** ** [query] *)


Lemma range_rows t lo hi k docId v :
  In (mkRow k docId v) (range t lo hi) <->
  In (JArr2 k docId, v) (t_entries t) /\ inRange lo hi k = true.
Proof.
  unfold range. rewrite <- list_elem_of_In, list_elem_of_omap. split.
  - intros ([k0 v0] & Hin & H). apply list_elem_of_In in Hin. simpl in H.
    destruct k0; try discriminate.
    destruct (inRange lo hi k0_1) eqn:Hr; [|discriminate].
    injection H as <- <- <-. split; assumption.
  - intros [Hin Hr]. exists (JArr2 k docId, v). split; [apply list_elem_of_In; exact Hin|].
    simpl. rewrite Hr. reflexivity.
Qed.



(** C10, evaluated: a query on an index that has never been built, over an
    empty database, does not return [{ rows: [] }]; the [null] root cannot be
    destructured and a [TypeError] is raised. *)
Theorem C10_query_unbuilt_index_raises :
  indexRoot Scenario.emptyIndex = None /\
  fst (query Scenario.query20 None Scenario.emptyIndex)
    = Err (TypeError "Cannot destructure property cid of null") /\
  indexRoot (snd (query Scenario.query20 None Scenario.emptyIndex)) = None.
Proof. vm_compute. repeat split. Qed.

(** The guard of [queryIndexRange] itself: a root object without a [cid]
    gives an empty result whatever the store holds. *)
Lemma queryIndexRange_no_cid bytes_ q bs :
  queryIndexRange (Some (mkBlock None bytes_)) q bs = (Ok (mkQueryResult []), bs).
Proof. reflexivity. Qed.

Lemma queryIndexRange_null q bs :
  fst (queryIndexRange None q bs)
    = Err (TypeError "Cannot destructure property cid of null").
Proof. reflexivity. Qed.

(** Every invalidation entry carries the key [undefined]. *)
Lemma oldIndexEntriesOf_undefined prior e :
  In e (oldIndexEntriesOf prior) -> e = mkEntry JUndefined JUndefined true.
Proof.
  unfold oldIndexEntriesOf. rewrite in_map_iff. intros (k & <- & _). reflexivity.
Qed.

(** C3, evaluated: when the document "u", which emitted [[20, "u"]], changes,
    the prior emission found in the byId tree is [[20, "u"]], and the batch
    applied to the forward index is [{ key: undefined, del: true }]; it does
    not contain [{ key: [20, "u"], del: true }]. *)
Theorem C3_invalidation_entry_has_undefined_key :
  let this := Scenario.updatedTo30 in
  fst (indexEntriesForOldChanges (byIDindexRoot this) [JStr "u"] (mapFun this)
         (blocks (database this)))
    = Ok [JArr2 (JNum 20) (JStr "u")] /\
  oldIndexEntriesOf [JArr2 (JNum 20) (JStr "u")]
    = [mkEntry JUndefined JUndefined true] /\
  ~ In (mkEntry (JArr2 (JNum 20) (JStr "u")) JUndefined true)
       (oldIndexEntriesOf [JArr2 (JNum 20) (JStr "u")]).
Proof.
  split; [vm_compute; reflexivity|].
  split; [reflexivity|].
  intros H. apply oldIndexEntriesOf_undefined in H. discriminate H.
Qed.

(** C2, evaluated on scenario S5: [{ _id: "u", age: 20 }] is indexed and the
    query on [[20, 20]] returns its row; after the update to
    [{ _id: "u", age: 30 }] the only current emission of "u" is [[30, "u"]],
    yet the query on [[20, 20]] still returns the row of the overwritten
    version, and the following query on [[30, 30]] returns the current one. *)
Theorem C2_stale_row_after_update :
  fst (query Scenario.query20 None Scenario.freshIndex)
    = Ok (mkQueryResponse [mkQueryRow (JStr "u") (JNum 20) JNull]) /\
  emissionsOf (mapFun Scenario.updatedTo30) (mkChange "u" (Scenario.aged 30) None)
    = [(JNum 30, JNull)] /\
  fst (query Scenario.query20 None Scenario.updatedTo30)
    = Ok (mkQueryResponse [mkQueryRow (JStr "u") (JNum 20) JNull]) /\
  fst (query Scenario.query30 None
         (snd (query Scenario.query20 None Scenario.updatedTo30)))
    = Ok (mkQueryResponse [mkQueryRow (JStr "u") (JNum 30) JNull]).
Proof. vm_compute. repeat split. Qed.

(** ** Queries without new changes *)

Lemma invalidateOld_no_rows head_ this :
  let this' := snd (invalidateOld (mkChanges [] head_) this) in
  indexRoot this' = indexRoot this /\
  byIDindexRoot this' = byIDindexRoot this /\
  dbHead this' = dbHead this /\ mapFun this' = mapFun this.
Proof.
  unfold invalidateOld, bind, gets, modify, ret. simpl.
  destruct (dbHead this) as [h|] eqn:Hh; [|simpl; rewrite Hh; repeat split].
  unfold onBlocks, zoom, indexEntriesForOldChanges, throw.
  destruct (byIDindexRoot this) as [r|] eqn:Hb; simpl.
  2:{ rewrite Hh, Hb. repeat split. }
  unfold load, bind, throw, ret.
  destruct (cid r) as [c|]; simpl.
  2:{ rewrite Hh, Hb. repeat split. }
  destruct (getBlock c (blocks (database this))) as [[b|e] bs]; simpl.
  2:{ rewrite Hh, Hb. repeat split. }
  rewrite Hh, Hb. repeat split.
Qed.

Lemma updateIndex_no_changes this res :
  changesSince (database this) (dbHead this) = Ok res ->
  ch_rows res = [] ->
  let this' := snd (updateIndex this) in
  indexRoot this' = indexRoot this /\ byIDindexRoot this' = byIDindexRoot this.
Proof.
  intros Hcs Hrows. destruct res as [rows_ head_]. simpl in Hrows. subst rows_.
  pose proof (invalidateOld_no_rows head_ this) as Hinv.
  unfold updateIndex, ALWAYS_REBUILD, bind, gets, modify, ret, liftResult. simpl.
  rewrite Hcs.
  destruct (invalidateOld (mkChanges [] head_) this) as [[u|e] this1]; simpl in *.
  - unfold onBlocks, zoom. simpl. tauto.
  - tauto.
Qed.

Lemma queryIndexRange_fields root q this :
  let this' := snd (onBlocks (queryIndexRange root q) this) in
  indexRoot this' = indexRoot this /\ byIDindexRoot this' = byIDindexRoot this /\ dbHead this' = dbHead this.
Proof.
  pose proof (onBlocks_fields (queryIndexRange root q) this) as H. simpl in *. tauto.
Qed.

(** C9: [bulkIndex] with an empty list of entries returns the input root and
    leaves the store alone; hence a query on an index whose database reports
    no new changes leaves [indexRoot] and [byIDindexRoot] as they were. *)
Theorem C9_empty_batch_keeps_roots (this : Index) (q : Query) (res : Changes)
  (Hcs : changesSince (database this) (dbHead this) = Ok res)
  (Hrows : ch_rows res = []) :
  (forall inRoot bs, bulkIndex inRoot [] bs = (Ok inRoot, bs)) /\
  indexRoot (snd (query q None this)) = indexRoot this /\
  byIDindexRoot (snd (query q None this)) = byIDindexRoot this.
Proof.
  split; [intros; reflexivity|].
  pose proof (updateIndex_no_changes this res Hcs Hrows) as Hupd. simpl in Hupd.
  unfold query, bind, gets, ret.
  destruct (updateIndex this) as [[u|e] mid]; simpl in *; [|exact Hupd].
  pose proof (queryIndexRange_fields (indexRoot mid) q mid) as Hq. simpl in Hq.
  destruct (onBlocks (queryIndexRange (indexRoot mid) q) mid) as [[r|e] this2]; simpl in *.
  - destruct Hupd as [<- <-]. tauto.
  - destruct Hupd as [<- <-]. tauto.
Qed.

Lemma C9_witness :
  (forall inRoot bs, bulkIndex inRoot [] bs = (Ok inRoot, bs)) /\
  indexRoot (snd (query Scenario.query20 None Scenario.indexedAt20))
    = indexRoot Scenario.indexedAt20 /\
  byIDindexRoot (snd (query Scenario.query20 None Scenario.indexedAt20))
    = byIDindexRoot Scenario.indexedAt20.
Proof.
  apply (C9_empty_batch_keeps_roots Scenario.indexedAt20 Scenario.query20
           (mkChanges [] ["e1"%string])); reflexivity.
Defined.

(** ** The store under [bulkIndex] *)

Lemma onBlocks_eq {A} (c : M (Blockstore.t CID Bytes) A) this :
  onBlocks c this
  = (fst (c (blocks (database this))), set_blocks (snd (c (blocks (database this)))) this).
Proof. unfold onBlocks, zoom. destruct (c (blocks (database this))). reflexivity. Qed.

Lemma wfStore_lookup bs c b :
  wfStore bs -> Blockstore.lookup c bs = Some b -> c = CidOf b.
Proof.
  unfold wfStore. induction bs as [|[c' b'] rest IH]; simpl; [discriminate|].
  intros Hwf Hl. inversion Hwf as [|? ? Hhd Htl]; subst.
  destruct (decide (c = c')) as [->|Hne].
  - injection Hl as <-. exact Hhd.
  - apply IH; assumption.
Qed.

Lemma put_wf bs content :
  wfStore bs -> wfStore (snd (Blockstore.put (CidOf content) content bs)).
Proof.
  intros Hwf. unfold Blockstore.put.
  destruct (Blockstore.lookup (CidOf content) bs); simpl; [exact Hwf|].
  unfold wfStore. apply Forall_app. split; [exact Hwf|].
  constructor; [reflexivity | constructor].
Qed.

Lemma getBlock_spec c bs :
  wfStore bs ->
  getBlock c bs = (Err NotFound, bs) \/
  exists content, c = CidOf content /\ getBlock c bs = (Ok (nodeBlock content), bs).
Proof.
  intros Hwf. unfold getBlock, bind, Blockstore.get, ret.
  destruct (Blockstore.lookup c bs) as [b|] eqn:Hl; [right|left; reflexivity].
  exists b. pose proof (wfStore_lookup _ _ _ Hwf Hl) as ->. split; reflexivity.
Qed.

Lemma putBlock_node content bs :
  putBlock (nodeBlock content) bs = (Ok tt, snd (Blockstore.put (CidOf content) content bs)).
Proof.
  unfold putBlock, nodeBlock. simpl. unfold Blockstore.put.
  destruct (Blockstore.lookup (CidOf content) bs); reflexivity.
Qed.

(** What [bulkIndex] returns on a content-addressed store. *)
Lemma bulkIndex_spec inRoot es bs res bs' :
  wfStore bs ->
  bulkIndex inRoot es bs = (res, bs') ->
  wfStore bs' /\
  forall r, res = Ok r ->
    (es = [] /\ r = inRoot) \/
    (es <> [] /\
     exists content0,
       (inRoot = None /\ content0 = [] \/
        exists r0, inRoot = Some r0 /\ cid r0 = Some (CidOf content0)) /\
       r = Some (nodeBlock (applyBatch content0 es))).
Proof.
  intros Hwf Hb. unfold bulkIndex in Hb.
  destruct es as [|e es']; simpl in Hb.
  { unfold ret in Hb. injection Hb as <- <-. split; [exact Hwf|].
    intros r [= <-]. left. split; reflexivity. }
  destruct inRoot as [r0|].
  - unfold load in Hb. destruct (cid r0) as [c|] eqn:Hc.
    2:{ unfold bind, throw in Hb. injection Hb as <- <-.
        split; [exact Hwf | discriminate]. }
    unfold bind in Hb.
    destruct (getBlock_spec c bs Hwf) as [Hg|(content & -> & Hg)]; rewrite Hg in Hb.
    { injection Hb as <- <-. split; [exact Hwf | discriminate]. }
    unfold ret, bulk in Hb. simpl in Hb. rewrite putBlock_node in Hb.
    injection Hb as <- <-.
    split; [apply put_wf; exact Hwf|].
    intros r [= <-]. right. split; [discriminate|].
    exists content. split; [|reflexivity].
    right. exists r0. split; [reflexivity | exact Hc].
  - unfold create in Hb. simpl in Hb. unfold bind in Hb.
    rewrite putBlock_node in Hb. unfold ret in Hb. injection Hb as <- <-.
    split; [apply put_wf; exact Hwf|].
    intros r [= <-]. right. split; [discriminate|].
    exists []. split; [|reflexivity]. left. split; reflexivity.
Qed.

(** ** The invariant of the index

    These lemmas are about the tree as the spec describes it, on which a
    [del] entry for a key the tree does not hold removes nothing.  On that
    tree the invalidation batch, which names the key [undefined] only, never
    removes a stale entry. *)

Lemma remove_absent k content :
  Forall (fun kv => keyEq k (fst kv) = false) content -> remove k content = content.
Proof.
  unfold remove. induction 1 as [|kv rest Hk _ IH]; simpl; [reflexivity|].
  rewrite Hk. simpl. rewrite IH. reflexivity.
Qed.

Lemma undefined_not_composite k : is_composite k = true -> keyEq JUndefined k = false.
Proof. destruct k; simpl; try discriminate. reflexivity. Qed.

(** Deleting the key [undefined] leaves a forward tree as it is. *)
Lemma applyBatch_oldIndexEntries content prior :
  compositeKeys content -> applyBatch content (oldIndexEntriesOf prior) = content.
Proof.
  intros Hk. unfold applyBatch, oldIndexEntriesOf.
  induction prior as [|p rest IH]; simpl; [reflexivity|].
  unfold applyEntry at 2. simpl. rewrite remove_absent; [exact IH|].
  eapply List.Forall_impl; [|exact Hk]. intros kv. apply undefined_not_composite.
Qed.

Lemma insert_composite k v content :
  is_composite k = true -> compositeKeys content -> compositeKeys (insert k v content).
Proof.
  intros Hk. unfold compositeKeys. induction 1 as [|[k' v'] rest Hk' Hrest IH]; simpl.
  - constructor; [exact Hk | constructor].
  - destruct (compare k k').
    + constructor; [exact Hk | exact Hrest].
    + constructor; [exact Hk|]. constructor; [exact Hk' | exact Hrest].
    + constructor; [exact Hk' | exact IH].
Qed.

Lemma remove_composite k content :
  compositeKeys content -> compositeKeys (remove k content).
Proof.
  unfold compositeKeys, remove. induction 1 as [|kv rest Hk Hrest IH]; simpl.
  - constructor.
  - destruct (negb (keyEq k (fst kv))); [constructor; assumption | exact IH].
Qed.

Lemma applyBatch_composite es content :
  Forall (fun e => e_del e = true \/ is_composite (e_key e) = true) es ->
  compositeKeys content -> compositeKeys (applyBatch content es).
Proof.
  unfold applyBatch. intros Hes. revert content.
  induction Hes as [|e rest He _ IH]; intros content Hc; simpl; [exact Hc|].
  apply IH. unfold applyEntry. destruct (e_del e) eqn:Hdel.
  - apply remove_composite. exact Hc.
  - destruct He as [He|He]; [congruence|]. apply insert_composite; assumption.
Qed.

Lemma forEachChange_forward changes mapFun acc es :
  forEachChange changes mapFun acc = Ok es ->
  Forall (fun e => e_del e = true \/ is_composite (e_key e) = true) acc ->
  Forall (fun e => e_del e = true \/ is_composite (e_key e) = true) es.
Proof.
  revert acc. induction changes as [|c rest IH]; intros acc H Hacc; simpl in H.
  - injection H as <-. exact Hacc.
  - destruct (truthy (c_del c)); [eapply IH; eassumption|].
    destruct (thrown _); [discriminate|].
    eapply IH; [exact H|]. apply Forall_app. split; [exact Hacc|].
    apply List.Forall_forall. intros e [kv [<- _]]%in_map_iff. right. reflexivity.
Qed.

Lemma set_blocks_same this : set_blocks (blocks (database this)) this = this.
Proof. destruct this as [[bs cs] f r1 r2 h]. reflexivity. Qed.

Lemma load_store c bs : snd (load (S:=Blockstore.t CID Bytes) c getBlock bs) = bs.
Proof.
  unfold load. destruct c as [c|]; [|reflexivity].
  unfold bind, getBlock, bind, Blockstore.get, ret.
  destruct (Blockstore.lookup c bs); reflexivity.
Qed.

Lemma indexEntriesForOldChanges_store r ids f bs :
  snd (indexEntriesForOldChanges r ids f bs) = bs.
Proof.
  unfold indexEntriesForOldChanges. destruct r as [r|]; [|reflexivity].
  unfold bind. pose proof (load_store (cid r) bs) as H.
  destruct (load (cid r) getBlock bs) as [[t|e] bs1]; simpl in *; subst; reflexivity.
Qed.

Lemma indexEntriesForOldChanges_ok r ids f bs prior bs' :
  indexEntriesForOldChanges r ids f bs = (Ok prior, bs') -> r <> None.
Proof. destruct r; [discriminate|]. unfold indexEntriesForOldChanges, throw. discriminate. Qed.

Lemma IndexInv_set_blocks this bs :
  IndexInv this -> wfStore bs -> IndexInv (set_blocks bs this).
Proof. intros (_ & H1 & H2) Hwf. split; [exact Hwf|]. split; assumption. Qed.

(** On that tree the invalidation step never changes the index state: its
    batch only deletes the key [undefined]. *)
Lemma invalidateOld_inv result this r this1 :
  IndexInv this ->
  invalidateOld result this = (r, this1) ->
  IndexInv this1 /\
  indexRoot this1 = indexRoot this /\
  byIDindexRoot this1 = byIDindexRoot this /\
  dbHead this1 = dbHead this /\
  mapFun this1 = mapFun this /\
  changesSince (database this1) = changesSince (database this).
Proof.
  intros Hinv H. unfold invalidateOld, bind, gets, modify, ret in H. simpl in H.
  destruct (dbHead this) as [h|] eqn:Hh.
  2:{ injection H as <- <-. split; [exact Hinv|]. repeat split; first [reflexivity|assumption]. }
  rewrite onBlocks_eq in H.
  pose proof (indexEntriesForOldChanges_store (byIDindexRoot this)
                (map (fun c => JStr (c_key c)) (ch_rows result)) (mapFun this)
                (blocks (database this))) as Hst.
  destruct (indexEntriesForOldChanges (byIDindexRoot this)
              (map (fun c => JStr (c_key c)) (ch_rows result)) (mapFun this)
              (blocks (database this))) as [[prior|e] bs1] eqn:Hold;
    simpl in Hst, H; subst bs1; rewrite set_blocks_same in H.
  2:{ injection H as <- <-. split; [exact Hinv|]. repeat split; first [reflexivity|assumption]. }
  rewrite onBlocks_eq in H.
  destruct (bulkIndex (indexRoot this) (oldIndexEntriesOf prior) (blocks (database this)))
    as [res bs2] eqn:Hbulk.
  simpl in H.
  destruct Hinv as (Hwf & Hroot & Hby).
  destruct (bulkIndex_spec _ _ _ _ _ Hwf Hbulk) as [Hwf2 Hres].
  destruct res as [r2|e2].
  2:{ injection H as <- <-. split; [split; [exact Hwf2 | split; assumption]|].
      repeat split; simpl; first [reflexivity|assumption]. }
  injection H as <- <-.
  assert (r2 = indexRoot this) as ->.
  { destruct (Hres r2 eq_refl) as [[_ ->]|[Hne (content0 & Hin & ->)]]; [reflexivity|].
    destruct Hin as [[Hnone _]|(r0 & Hr0 & Hcid)].
    - exfalso. apply Hby; [|exact Hnone].
      eapply indexEntriesForOldChanges_ok. exact Hold.
    - destruct (Hroot r0 Hr0) as (content & -> & Hcomp).
      simpl in Hcid. injection Hcid as <-.
      rewrite applyBatch_oldIndexEntries by exact Hcomp. symmetry. exact Hr0. }
  split; [split; [exact Hwf2 | split; assumption]|].
  repeat split; simpl; first [reflexivity|assumption].
Qed.

Lemma bulkIndex_create es bs :
  es <> [] ->
  exists bs', bulkIndex None es bs = (Ok (Some (nodeBlock (applyBatch [] es))), bs').
Proof.
  intros Hne. unfold bulkIndex. destruct es as [|e es']; [congruence|]. simpl.
  unfold create, bind. simpl. rewrite putBlock_node. unfold ret. simpl.
  eexists. reflexivity.
Qed.

Lemma byIdIndexEntriesOf_nil es : byIdIndexEntriesOf es = [] -> es = [].
Proof. destruct es; [reflexivity | discriminate]. Qed.

Lemma updateIndex_inv this r this' :
  IndexInv this -> updateIndex this = (r, this') -> IndexInv this'.
Proof.
  intros Hinv H.
  unfold updateIndex, ALWAYS_REBUILD in H.
  unfold bind at 1 in H. unfold ret at 1 in H.
  unfold bind at 1 in H. unfold gets at 1 in H.
  unfold bind at 1 in H. unfold gets at 1 in H.
  unfold bind at 1 in H. unfold liftResult at 1 in H.
  destruct (changesSince (database this) (dbHead this)) as [result|e].
  2:{ injection H as <- <-. exact Hinv. }
  unfold bind at 1 in H.
  destruct (invalidateOld result this) as [r1 this1] eqn:Hold.
  destruct (invalidateOld_inv _ _ _ _ Hinv Hold) as (Hinv1 & _).
  destruct r1 as [[]|e].
  2:{ injection H as <- <-. exact Hinv1. }
  unfold bind at 1 in H. unfold gets at 1 in H.
  unfold bind at 1 in H. unfold liftResult at 1 in H.
  destruct (indexEntriesForChanges (ch_rows result) (mapFun this1)) as [es|e] eqn:Hes.
  2:{ injection H as <- <-. exact Hinv1. }
  assert (Forall (fun e => e_del e = true \/ is_composite (e_key e) = true) es) as Hfw.
  { eapply forEachChange_forward; [exact Hes | constructor]. }
  unfold bind at 1 in H. unfold gets at 1 in H.
  unfold bind at 1 in H. rewrite onBlocks_eq in H.
  destruct Hinv1 as (Hwf1 & Hroot1 & Hby1).
  destruct (bulkIndex (byIDindexRoot this1) (byIdIndexEntriesOf es) (blocks (database this1)))
    as [res1 bs2] eqn:Hb1.
  destruct (bulkIndex_spec _ _ _ _ _ Hwf1 Hb1) as [Hwf2 Hres1].
  simpl in H.
  destruct res1 as [rb|e].
  2:{ injection H as <- <-. split; [exact Hwf2 | split; assumption]. }
  unfold bind at 1 in H. unfold modify at 1 in H.
  unfold bind at 1 in H. unfold gets at 1 in H.
  unfold bind at 1 in H. rewrite onBlocks_eq in H.
  cbn [blocks database set_byIDindexRoot set_blocks indexRoot] in H.
  destruct (bulkIndex (indexRoot this1) es bs2) as [res2 bs3] eqn:Hb2.
  destruct (bulkIndex_spec _ _ _ _ _ Hwf2 Hb2) as [Hwf3 Hres2].
  simpl in H.
  destruct res2 as [rf|e].
  - unfold bind, modify in H. injection H as <- <-.
    split; [exact Hwf3|]. simpl.
    destruct (Hres2 rf eq_refl) as [[-> ->]|[Hne (content0 & Hin & ->)]].
    + split; [exact Hroot1|].
      destruct (Hres1 rb eq_refl) as [[_ ->]|[Hne _]]; [exact Hby1|].
      exfalso. apply Hne. reflexivity.
    + split; [|discriminate].
      intros b [= <-]. eexists. split; [reflexivity|].
      apply applyBatch_composite; [exact Hfw|].
      destruct Hin as [[_ ->]|(r0 & Hr0 & Hcid)]; [constructor|].
      destruct (Hroot1 r0 Hr0) as (content & -> & Hcomp).
      simpl in Hcid. injection Hcid as <-. exact Hcomp.
  - injection H as <- <-.
    split; [exact Hwf3|]. simpl. split; [exact Hroot1|].
    destruct (indexRoot this1) as [r0|] eqn:Hr0; [discriminate|].
    destruct es as [|e0 es'].
    + destruct (Hres1 rb eq_refl) as [[_ ->]|[Hne _]]; [exact Hby1|].
      exfalso. apply Hne. reflexivity.
    + exfalso. destruct (bulkIndex_create (e0 :: es') bs2) as [bs' Hc]; [discriminate|].
      rewrite Hc in Hb2. discriminate.
Qed.

Lemma queryIndexRange_store root q bs : snd (queryIndexRange root q bs) = bs.
Proof.
  unfold queryIndexRange. destruct root as [r|]; [|reflexivity].
  destruct (cid r) as [c|]; [|reflexivity].
  unfold bind. pose proof (load_store (Some c) bs) as H.
  destruct (load (Some c) getBlock bs) as [[t|e] bs1]; simpl in *; subst; reflexivity.
Qed.

Lemma query_inv q root this :
  IndexInv this -> IndexInv (snd (query q root this)).
Proof.
  intros Hinv. unfold query. unfold bind at 1.
  assert (exists r mid,
             (match root with None => updateIndex | Some _ => ret tt end) this = (r, mid) /\
             IndexInv mid) as (r & mid & Hupd & Hmid).
  { destruct root as [r0|].
    - exists (Ok tt), this. split; [reflexivity | exact Hinv].
    - destruct (updateIndex this) as [r mid] eqn:Hupd. exists r, mid.
      split; [reflexivity | exact (updateIndex_inv _ _ _ Hinv Hupd)]. }
  rewrite Hupd.
  destruct r as [[]|e]; [|exact Hmid].
  unfold bind at 1. unfold gets at 1. unfold bind. rewrite onBlocks_eq.
  rewrite queryIndexRange_store, set_blocks_same.
  match goal with
  | |- context [queryIndexRange ?r0 q ?bs] =>
      destruct (queryIndexRange r0 q bs) as [[resp|e] bs']; exact Hmid
  end.
Qed.

Lemma reachable_inv this : reachable this -> IndexInv this.
Proof.
  induction 1 as [db f Hwf | q root this _ IH | db this Hwf _ IH].
  - split; [exact Hwf|]. split; [discriminate | intros H; exfalso; apply H; reflexivity].
  - apply query_inv. exact IH.
  - destruct IH as (_ & H1 & H2). split; [exact Hwf | split; assumption].
Qed.


(** With the model of the library the definitions over any library are the
    definitions of the index module. *)
Lemma bulkIndexOver_bulk : bulkIndexOver bulk = bulkIndex.
Proof. reflexivity. Qed.

Lemma invalidateOldOver_bulk : invalidateOldOver bulk = invalidateOld.
Proof. reflexivity. Qed.

Lemma updateIndexOver_bulk : updateIndexOver bulk = updateIndex.
Proof. reflexivity. Qed.

Lemma queryOver_bulk : queryOver bulk = query.
Proof. reflexivity. Qed.




(** ** The batches of a refresh *)

Lemma invalidateOld_frame result this :
  let this' := snd (invalidateOld result this) in
  byIDindexRoot this' = byIDindexRoot this /\
  dbHead this' = dbHead this /\
  mapFun this' = mapFun this.
Proof.
  unfold invalidateOld, bind, gets, modify, ret. simpl.
  destruct (dbHead this) as [h|] eqn:Hh; [|simpl; rewrite Hh; repeat split].
  rewrite onBlocks_eq.
  destruct (indexEntriesForOldChanges _ _ _ _) as [[prior|e] bs1]; simpl.
  2:{ rewrite Hh. repeat split. }
  rewrite onBlocks_eq.
  destruct (bulkIndex _ _ _) as [[r|e] bs2]; simpl; rewrite Hh; repeat split.
Qed.

(** The refresh hands exactly these two batches to [bulkIndex]: the byId
    entries to the byId tree, then the forward entries to the forward tree. *)
Lemma updateIndex_applies_batches this res this1 es :
  changesSince (database this) (dbHead this) = Ok res ->
  invalidateOld res this = (Ok tt, this1) ->
  indexEntriesForChanges (ch_rows res) (mapFun this) = Ok es ->
  updateIndex this =
    (let! r1 := onBlocks (bulkIndex (byIDindexRoot this1) (byIdIndexEntriesOf es)) in
     modify (set_byIDindexRoot r1) ;;
     let! inRoot := gets indexRoot in
     let! r2 := onBlocks (bulkIndex inRoot es) in
     modify (set_indexRoot r2) ;;
     modify (set_dbHead (Some (ch_head res)))) this1.
Proof.
  intros Hcs Hold Hes.
  pose proof (invalidateOld_frame res this) as Hframe. rewrite Hold in Hframe.
  simpl in Hframe. destruct Hframe as (_ & _ & Hf).
  unfold updateIndex, ALWAYS_REBUILD.
  unfold bind at 1. unfold ret at 1.
  unfold bind at 1. unfold gets at 1.
  unfold bind at 1. unfold gets at 1.
  unfold bind at 1. unfold liftResult at 1. rewrite Hcs.
  unfold bind at 1. rewrite Hold.
  unfold bind at 1. unfold gets at 1.
  unfold bind at 1. unfold liftResult at 1. rewrite Hf, Hes.
  unfold bind at 1. unfold gets at 1.
  reflexivity.
Qed.

End IndexFacts.

(** * Properties of the replicas *)

Module PailFacts.
Import Clock Crdt TestPail.
Local Open Scope js_scope.

(** Induction on an event with the hypothesis for all its parents. *)
Lemma EventLink_parents_ind (P : EventLink -> Prop) :
  (forall ps d, (forall p, In p ps -> P p) -> P (Link ps d)) -> forall e, P e.
Proof.
  intros Hstep. fix IH 1. intros [ps d]. apply Hstep.
  induction ps as [|p ps IHps]; intros q Hq; simpl in Hq; [contradiction|].
  destruct Hq as [<-|Hq]; [apply IH | apply IHps; exact Hq].
Qed.

Lemma isAncestor_iff a e :
  isAncestor a e = true <-> exists p, In p (parents e) /\ (p = a \/ isAncestor a p = true).
Proof.
  destruct e as [ps d]. simpl. rewrite existsb_exists. split.
  - intros (p & Hin & H). exists p. split; [exact Hin|].
    apply orb_true_iff in H as [H|H]; [left; exact (bool_decide_eq_true_1 _ H) | right; exact H].
  - intros (p & Hin & H). exists p. split; [exact Hin|].
    apply orb_true_iff. destruct H as [->|H]; [left; apply bool_decide_eq_true_2; reflexivity | right; exact H].
Qed.

Lemma history_iff e x : In x (history e) <-> x = e \/ isAncestor x e = true.
Proof.
  induction e as [ps d IH] using EventLink_parents_ind. simpl. split.
  - intros [<-|H]; [left; reflexivity|]. right.
    apply in_flat_map in H as (p & Hin & Hx). apply existsb_exists. exists p.
    split; [exact Hin|]. apply orb_true_iff.
    apply (IH p Hin) in Hx as [->|Hx]; [left; apply bool_decide_eq_true_2; reflexivity | right; exact Hx].
  - intros [->|H]; [left; reflexivity|]. right.
    apply existsb_exists in H as (p & Hin & H). apply in_flat_map. exists p.
    split; [exact Hin|]. apply (IH p Hin).
    apply orb_true_iff in H as [H|H]; [left; symmetry; exact (bool_decide_eq_true_1 _ H) | right; exact H].
Qed.

Lemma isAncestor_trans a b c :
  isAncestor a b = true -> isAncestor b c = true -> isAncestor a c = true.
Proof.
  intros Hab. induction c as [ps d IH] using EventLink_parents_ind. intros Hbc.
  apply isAncestor_iff in Hbc as (p & Hin & Hp). apply isAncestor_iff.
  exists p. split; [exact Hin|]. right.
  destruct Hp as [->|Hp]; [exact Hab | apply (IH p Hin Hp)].
Qed.

Lemma flat_map_length_le {A B} (f : A -> list B) l x :
  In x l -> length (f x) <= length (flat_map f l).
Proof.
  induction l as [|y l IH]; simpl; [contradiction|].
  rewrite length_app. intros [->|H]; [lia | specialize (IH H); lia].
Qed.

Lemma isAncestor_smaller a e :
  isAncestor a e = true -> length (history a) < length (history e).
Proof.
  induction e as [ps d IH] using EventLink_parents_ind. intros H.
  apply isAncestor_iff in H as (p & Hin & Hp). simpl in Hin. simpl.
  pose proof (flat_map_length_le history ps p Hin) as Hle.
  destruct Hp as [->|Hp]; [lia | specialize (IH p Hin Hp); lia].
Qed.

Lemma isAncestor_irrefl e : isAncestor e e = false.
Proof.
  destruct (isAncestor e e) eqn:H; [|reflexivity].
  apply isAncestor_smaller in H. lia.
Qed.

Lemma events_iff head x :
  In x (events head) <-> exists h, In h head /\ (x = h \/ isAncestor x h = true).
Proof.
  unfold events. rewrite in_flat_map. split; intros (h & Hin & H); exists h;
    (split; [exact Hin | apply history_iff; exact H]).
Qed.

(** ** [advance] keeps the head the frontier of the events incorporated *)

Lemma sameEvents_refl l : sameEvents l l.
Proof. intros x. reflexivity. Qed.

Lemma sameEvents_sym l1 l2 : sameEvents l1 l2 -> sameEvents l2 l1.
Proof. intros H x. symmetry. apply H. Qed.

Lemma sameEvents_trans l1 l2 l3 : sameEvents l1 l2 -> sameEvents l2 l3 -> sameEvents l1 l3.
Proof. intros H1 H2 x. rewrite (H1 x). apply H2. Qed.

(** ** Ancestry read through the store *)

Lemma resolvable_has b e : resolvable b e = true -> Blockstore.has (EventCid e) b = true.
Proof. destruct e as [ps d]. simpl. intros H. apply andb_true_iff in H. tauto. Qed.

Lemma resolvable_parents b e p :
  resolvable b e = true -> In p (parents e) -> resolvable b p = true.
Proof.
  destruct e as [ps d]. simpl. intros H Hp. apply andb_true_iff in H as [_ H].
  rewrite forallb_forall in H. apply H. exact Hp.
Qed.

Lemma history_length e : length (history e) = S (length (flat_map history (parents e))).
Proof. destruct e as [ps d]. reflexivity. Qed.

Lemma isAncestor_parents a e :
  isAncestor a e = existsb (fun p => bool_decide (p = a) || isAncestor a p) (parents e).
Proof. destruct e as [ps d]. reflexivity. Qed.

(** With every block there, the search decides ancestry. *)
Lemma search_resolvable fuel b a queue :
  (forall q, In q queue -> resolvable b q = true) ->
  length (flat_map history queue) <= fuel ->
  search fuel b a queue
  = Ok (existsb (fun q => bool_decide (q = a) || isAncestor a q) queue).
Proof.
  revert queue. induction fuel as [|fuel IH]; intros queue Hres Hlen.
  - destruct queue as [|link rest]; [reflexivity|].
    exfalso. cbn [flat_map] in Hlen. rewrite length_app, history_length in Hlen. lia.
  - destruct queue as [|link rest]; [reflexivity|]. cbn [search existsb].
    destruct (bool_decide (link = a)) eqn:Hlink; [reflexivity|].
    rewrite (resolvable_has b link) by (apply Hres; left; reflexivity).
    rewrite IH.
    + rewrite existsb_app, (isAncestor_parents a link). cbn [orb].
      rewrite orb_comm. reflexivity.
    + intros q Hq. apply in_app_iff in Hq as [Hq|Hq]; [apply Hres; right; exact Hq|].
      apply (resolvable_parents b link); [apply Hres; left; reflexivity | exact Hq].
    + cbn [flat_map] in Hlen. rewrite length_app, history_length in Hlen.
      rewrite flat_map_app, length_app. lia.
Qed.

Lemma contains_resolvable b e a :
  resolvable b e = true -> contains b e a = Ok (isAncestor a e).
Proof.
  intros He. unfold contains. rewrite (resolvable_has b e He).
  rewrite search_resolvable.
  - rewrite <- isAncestor_parents. reflexivity.
  - intros q Hq. apply (resolvable_parents b e); assumption.
  - rewrite history_length. lia.
Qed.

Lemma withoutAncestors_resolvable b head event :
  resolvable b event = true ->
  withoutAncestors b head event
  = Ok (List.filter (fun h => negb (isAncestor h event)) head,
        existsb (fun h => isAncestor h event) head).
Proof.
  intros He. induction head as [|h rest IH]; [reflexivity|].
  cbn [withoutAncestors List.filter existsb].
  rewrite (contains_resolvable b event h He), IH.
  destruct (isAncestor h event); reflexivity.
Qed.

Lemma hasDescendant_resolvable b head event :
  (forall h, In h head -> resolvable b h = true) ->
  hasDescendant b head event = Ok (existsb (fun h => isAncestor event h) head).
Proof.
  induction head as [|h rest IH]; intros Hres; [reflexivity|].
  cbn [hasDescendant existsb].
  rewrite (contains_resolvable b h event) by (apply Hres; left; reflexivity).
  destruct (isAncestor event h); [reflexivity|].
  apply IH. intros h' Hh'. apply Hres. right. exact Hh'.
Qed.

Lemma withoutAncestors_kept b head event kept removed :
  withoutAncestors b head event = Ok (kept, removed) ->
  forall h, In h kept -> In h head.
Proof.
  revert kept removed. induction head as [|h0 rest IH]; intros kept removed H h Hh.
  - injection H as <- _. exact Hh.
  - cbn [withoutAncestors] in H.
    destruct (contains b event h0) as [below|]; [|discriminate].
    destruct (withoutAncestors b rest event) as [[kept' removed']|]; [|discriminate].
    injection H as <- _. destruct below.
    + right. eapply IH; [reflexivity | exact Hh].
    + destruct Hh as [<-|Hh]; [left; reflexivity | right; eapply IH; [reflexivity | exact Hh]].
Qed.

(** With every block there, [advance] is the four rules on the DAG. *)
Lemma advance_pure blocks head event :
  forallb (resolvable blocks) (event :: head) = true ->
  Clock.advance blocks head event
  = Ok (if bool_decide (event ∈ head) then head
        else if existsb (fun h => isAncestor h event) head
             then List.filter (fun h => negb (isAncestor h event)) head ++ [event]
             else if existsb (fun h => isAncestor event h) head then head
                  else head ++ [event]).
Proof.
  intros Hres. cbn [forallb] in Hres. apply andb_true_iff in Hres as [He Hhead].
  rewrite forallb_forall in Hhead.
  unfold Clock.advance. destruct (bool_decide (event ∈ head)); [reflexivity|].
  rewrite (withoutAncestors_resolvable _ _ _ He).
  destruct (existsb (fun h => isAncestor h event) head); [reflexivity|].
  rewrite (hasDescendant_resolvable _ _ _ Hhead).
  destruct (existsb (fun h => isAncestor event h) head); reflexivity.
Qed.

(** The four rules, once every block is resolvable. *)
Lemma advance_resolvable blocks head event :
  forallb (resolvable blocks) (event :: head) = true ->
  exists head',
    Clock.advance blocks head event = Ok head' /\
    (antichain head -> antichain head') /\
    sameEvents (events head') (events head ++ history event) /\
    (forall h, In h head' -> h = event \/ In h head) /\
    head' <> [].
Proof.
  intros Hres. rewrite (advance_pure _ _ _ Hres).
  destruct (bool_decide (event ∈ head)) eqn:Hmem.
  { apply bool_decide_eq_true_1, list_elem_of_In in Hmem.
    exists head. split; [reflexivity|]. split; [tauto|]. split; [|split].
    - intros x. rewrite in_app_iff, events_iff. split; [tauto|].
      intros [H|H]; [exact H|].
      exists event. split; [exact Hmem | apply history_iff; exact H].
    - intros h Hh. right. exact Hh.
    - intros ->. contradiction. }
  destruct (existsb (fun h => isAncestor h event) head) eqn:Hbelow.
  { eexists. split; [reflexivity|]. split; [|split; [|split]].
    - intros Hanti x y Hx Hy.
      apply existsb_exists in Hbelow as (h & Hh & Hhe).
      apply in_app_iff in Hx as [Hx|[<-|[]]]; apply in_app_iff in Hy as [Hy|[<-|[]]].
      + apply filter_In in Hx as [Hx _]. apply filter_In in Hy as [Hy _].
        apply Hanti; assumption.
      + apply filter_In in Hx as [_ Hx]. apply negb_true_iff in Hx. exact Hx.
      + apply filter_In in Hy as [Hy _].
        destruct (isAncestor event y) eqn:Hxy; [|reflexivity].
        rewrite <- (Hanti h y Hh Hy). symmetry.
        eapply isAncestor_trans; eassumption.
      + apply isAncestor_irrefl.
    - intros x. unfold events. rewrite flat_map_app. simpl. rewrite app_nil_r.
      rewrite !in_app_iff, !in_flat_map. split.
      + intros [(h & Hh & Hx)|Hx]; [left|right; exact Hx].
        apply filter_In in Hh as [Hh _]. exists h. split; assumption.
      + intros [(h & Hh & Hx)|Hx]; [|right; exact Hx].
        destruct (isAncestor h event) eqn:Hhe.
        * right. apply history_iff in Hx. apply history_iff. right.
          destruct Hx as [->|Hx]; [exact Hhe | eapply isAncestor_trans; eassumption].
        * left. exists h. split; [|exact Hx]. apply filter_In. rewrite Hhe. split; [exact Hh | reflexivity].
    - intros h Hh. apply in_app_iff in Hh as [Hh|[<-|[]]]; [right|left; reflexivity].
      apply filter_In in Hh as [Hh _]. exact Hh.
    - intros H. apply app_eq_nil in H as [_ H]. discriminate. }
  destruct (existsb (fun h => isAncestor event h) head) eqn:Habove.
  { exists head. split; [reflexivity|]. split; [tauto|]. split; [|split].
    - apply existsb_exists in Habove as (h & Hh & Heh).
      intros x. rewrite in_app_iff, events_iff. split; [tauto|].
      intros [H|H]; [exact H|].
      exists h. split; [exact Hh|]. right.
      apply history_iff in H as [->|H]; [exact Heh | eapply isAncestor_trans; eassumption].
    - intros h Hh. right. exact Hh.
    - intros ->. discriminate. }
  exists (head ++ [event]). split; [reflexivity|]. split; [|split; [|split]].
  - intros Hanti x y Hx Hy.
    apply in_app_iff in Hx as [Hx|[<-|[]]]; apply in_app_iff in Hy as [Hy|[<-|[]]].
    + apply Hanti; assumption.
    + destruct (isAncestor x event) eqn:Hxe; [|reflexivity].
      rewrite <- Hbelow. symmetry. apply existsb_exists. exists x. split; assumption.
    + destruct (isAncestor event y) eqn:Hey; [|reflexivity].
      rewrite <- Habove. symmetry. apply existsb_exists. exists y. split; assumption.
    + apply isAncestor_irrefl.
  - intros x. unfold events. rewrite flat_map_app. simpl. rewrite app_nil_r. reflexivity.
  - intros h Hh. apply in_app_iff in Hh as [Hh|[<-|[]]]; [right; exact Hh | left; reflexivity].
  - intros H. apply app_eq_nil in H as [_ H]. discriminate.
Qed.

(** An antichain is determined by the events reachable from it. *)
Lemma antichain_unique_l h1 h2 :
  antichain h1 -> antichain h2 -> sameEvents (events h1) (events h2) ->
  forall x, In x h1 -> In x h2.
Proof.
  intros Ha1 Ha2 Hsame x Hx.
  assert (In x (events h2)) as Hx2.
  { apply Hsame, events_iff. exists x. split; [exact Hx | left; reflexivity]. }
  apply events_iff in Hx2 as (y & Hy & [->|Hxy]); [exact Hy|].
  assert (In y (events h1)) as Hy1.
  { apply Hsame, events_iff. exists y. split; [exact Hy | left; reflexivity]. }
  apply events_iff in Hy1 as (z & Hz & [->|Hyz]).
  - rewrite (Ha1 x z Hx Hz) in Hxy. discriminate.
  - pose proof (isAncestor_trans _ _ _ Hxy Hyz) as Hxz.
    rewrite (Ha1 x z Hx Hz) in Hxz. discriminate.
Qed.

Lemma antichain_unique h1 h2 :
  antichain h1 -> antichain h2 -> sameEvents (events h1) (events h2) ->
  sameEvents h1 h2.
Proof.
  intros Ha1 Ha2 Hsame x. split.
  - apply antichain_unique_l; assumption.
  - apply antichain_unique_l; [assumption | assumption | apply sameEvents_sym; exact Hsame].
Qed.

(** ** The materialisation depends on the set of events only *)

Lemma highest_nil ws : highest ws = None <-> ws = [].
Proof.
  destruct ws as [|w ws]; simpl; [tauto|].
  split; [|discriminate]. destruct (highest ws) as [m|]; [|discriminate].
  destruct (cidLtb m w); discriminate.
Qed.

Lemma highest_max ws w :
  highest ws = Some w ->
  In w ws /\ forall x, In x ws -> (encode x <= encode w)%positive.
Proof.
  revert w. induction ws as [|e ws IH]; intros w H; simpl in H; [discriminate|].
  destruct (highest ws) as [m|] eqn:Hm.
  - destruct (IH m eq_refl) as [Hin Hmax]. unfold cidLtb in H.
    destruct (Pos.ltb_spec (encode m) (encode e)) as [Hlt|Hge]; injection H as <-.
    + split; [left; reflexivity|]. intros x [<-|Hx]; [lia|]. specialize (Hmax x Hx). lia.
    + split; [right; exact Hin|]. intros x [<-|Hx]; [lia | apply Hmax; exact Hx].
  - injection H as <-. apply highest_nil in Hm. subst ws.
    split; [left; reflexivity|]. intros x [<-|[]]. lia.
Qed.

Lemma highest_ext l1 l2 : sameEvents l1 l2 -> highest l1 = highest l2.
Proof.
  intros Hsame.
  destruct (highest l1) as [w1|] eqn:H1; destruct (highest l2) as [w2|] eqn:H2.
  - destruct (highest_max _ _ H1) as [Hin1 Hmax1].
    destruct (highest_max _ _ H2) as [Hin2 Hmax2].
    pose proof (Hmax2 w1 (proj1 (Hsame w1) Hin1)) as Hle1.
    pose proof (Hmax1 w2 (proj2 (Hsame w2) Hin2)) as Hle2.
    f_equal. apply (encode_inj w1 w2). lia.
  - apply highest_nil in H2. subst l2.
    destruct (highest_max _ _ H1) as [Hin1 _]. apply Hsame in Hin1. contradiction.
  - apply highest_nil in H1. subst l1.
    destruct (highest_max _ _ H2) as [Hin2 _]. apply Hsame in Hin2. contradiction.
  - reflexivity.
Qed.

Lemma writers_iff k evs x :
  In x (writers k evs) <-> In x evs /\ keyOf (data x) = k.
Proof.
  unfold writers. rewrite filter_In. split; intros [H1 H2]; split; try exact H1.
  - exact (bool_decide_eq_true_1 _ H2).
  - apply bool_decide_eq_true_2. exact H2.
Qed.

Lemma tips_iff ws x :
  In x (tips ws) <-> In x ws /\ forall y, In y ws -> isAncestor x y = false.
Proof.
  unfold tips. rewrite filter_In, negb_true_iff. split; intros [H1 H2]; split; try exact H1.
  - intros y Hy. destruct (isAncestor x y) eqn:Hxy; [|reflexivity].
    rewrite <- H2. symmetry. apply existsb_exists. exists y. split; assumption.
  - destruct (existsb (isAncestor x) ws) eqn:He; [|reflexivity].
    apply existsb_exists in He as (y & Hy & Hxy). rewrite (H2 y Hy) in Hxy. discriminate.
Qed.

Lemma tips_writers_ext k l1 l2 :
  sameEvents l1 l2 -> sameEvents (tips (writers k l1)) (tips (writers k l2)).
Proof.
  intros Hsame x. rewrite !tips_iff, !writers_iff, (Hsame x).
  split; intros [H1 H2]; (split; [exact H1|]); intros y Hy; apply H2;
    apply writers_iff; apply writers_iff in Hy; destruct Hy as [Hy Hk];
    (split; [apply Hsame; exact Hy | exact Hk]).
Qed.

Lemma resolve_ext l1 l2 k : sameEvents l1 l2 -> resolve l1 k = resolve l2 k.
Proof.
  intros Hsame. unfold resolve.
  rewrite (highest_ext _ _ (tips_writers_ext k _ _ Hsame)). reflexivity.
Qed.

Lemma resolve_key evs k d : resolve evs k = Some d -> keyOf d = k.
Proof.
  unfold resolve. destruct (highest (tips (writers k evs))) as [w|] eqn:Hw; [|discriminate].
  intros [= <-]. apply highest_max in Hw as [Hin _].
  apply tips_iff in Hin as [Hin _]. apply writers_iff in Hin as [_ Hk]. exact Hk.
Qed.

Lemma resolve_no_writer evs k :
  (forall e, In e evs -> keyOf (data e) <> k) -> resolve evs k = None.
Proof.
  intros Hno. unfold resolve.
  destruct (highest (tips (writers k evs))) as [w|] eqn:Hw; [|reflexivity].
  apply highest_max in Hw as [Hin _].
  apply tips_iff in Hin as [Hin _]. apply writers_iff in Hin as [Hin Hk].
  exfalso. exact (Hno w Hin Hk).
Qed.

Lemma materialiseOver_lookup evs l k :
  materialiseOver evs l !! k =
    if existsb (fun e => bool_decide (keyOf (data e) = k)) l
    then valueOf (resolve evs k) else None.
Proof.
  induction l as [|e l IH]; simpl; [apply lookup_empty|].
  destruct (bool_decide (keyOf (data e) = k)) eqn:Hk; simpl.
  - apply bool_decide_eq_true_1 in Hk. rewrite Hk.
    destruct (resolve evs k) as [[k' v|k']|] eqn:Hr; simpl.
    + apply resolve_key in Hr. simpl in Hr. subst k'. apply lookup_insert_eq.
    + rewrite IH. destruct (existsb _ l); reflexivity.
    + rewrite IH. destruct (existsb _ l); reflexivity.
  - apply bool_decide_eq_false_1 in Hk.
    destruct (resolve evs (keyOf (data e))) as [[k' v|k']|] eqn:Hr; simpl; try exact IH.
    apply resolve_key in Hr. simpl in Hr. subst k'.
    rewrite lookup_insert_ne by exact Hk. exact IH.
Qed.

Lemma materialise_lookup evs k :
  materialise evs !! k = valueOf (resolve evs k).
Proof.
  unfold materialise. rewrite materialiseOver_lookup.
  destruct (existsb (fun e => bool_decide (keyOf (data e) = k)) evs) eqn:He; [reflexivity|].
  rewrite resolve_no_writer; [reflexivity|].
  intros e Hin Hk.
  assert (existsb (fun e => bool_decide (keyOf (data e) = k)) evs = true) as Ht.
  { apply existsb_exists. exists e. split; [exact Hin | apply bool_decide_eq_true_2; exact Hk]. }
  congruence.
Qed.

Lemma materialise_ext l1 l2 : sameEvents l1 l2 -> materialise l1 = materialise l2.
Proof.
  intros Hsame. apply map_eq. intros k.
  rewrite !materialise_lookup, (resolve_ext l1 l2 k Hsame). reflexivity.
Qed.

(** The event of a put descends from every event of the head it was made on,
    so it wins its key, and the tree of the new head is the old tree with the
    entry applied. *)
Lemma materialise_put head k v :
  materialise (events [Link head (Put k v)]) = <[k:=v]> (materialise (events head)).
Proof.
  set (e := Link head (Put k v)).
  assert (forall x, In x (events head) -> isAncestor x e = true) as Hbelow.
  { intros x Hx. apply events_iff in Hx as (h & Hh & Hx). apply isAncestor_iff.
    exists h. split; [exact Hh|]. destruct Hx as [->|Hx]; [left; reflexivity | right; exact Hx]. }
  assert (sameEvents (events [e]) (e :: events head)) as Hev.
  { intros x. unfold events at 1. simpl. rewrite app_nil_r. reflexivity. }
  rewrite (materialise_ext _ _ Hev).
  apply map_eq. intros k'. rewrite materialise_lookup.
  destruct (decide (k = k')) as [<-|Hne].
  - rewrite lookup_insert_eq. unfold resolve.
    assert (sameEvents (tips (writers k (e :: events head))) [e]) as Htips.
    { assert (In e (writers k (e :: events head))) as He.
      { apply writers_iff. split; [left; reflexivity | reflexivity]. }
      intros x. rewrite tips_iff. split.
      - intros [Hw Hmax]. apply writers_iff in Hw as [[<-|Hx] Hk]; [left; reflexivity|].
        exfalso. specialize (Hmax e He). rewrite (Hbelow x Hx) in Hmax. discriminate.
      - intros [<-|[]]. split; [exact He|].
        intros y Hy. apply writers_iff in Hy as [[<-|Hy] _]; [apply isAncestor_irrefl|].
        destruct (isAncestor e y) eqn:Hey; [|reflexivity].
        pose proof (isAncestor_trans _ _ _ Hey (Hbelow y Hy)) as Hee.
        rewrite isAncestor_irrefl in Hee. discriminate. }
    rewrite (highest_ext _ _ Htips). simpl. reflexivity.
  - rewrite lookup_insert_ne by exact Hne. rewrite materialise_lookup.
    unfold resolve, writers. simpl.
    destruct (bool_decide (k = k')) eqn:Hd; [|reflexivity].
    apply bool_decide_eq_true_1 in Hd. contradiction.
Qed.

(** ** The store *)

Lemma lookup_app_some {C B} `{EqDecision C} (c : C) (bs bs' : Blockstore.t C B) x :
  Blockstore.lookup c bs = Some x -> Blockstore.lookup c (bs ++ bs') = Some x.
Proof.
  induction bs as [|[c' b'] rest IH]; simpl; [discriminate|].
  destruct (decide (c = c')); [tauto | exact IH].
Qed.

Lemma lookup_app_none {C B} `{EqDecision C} (c : C) (bs bs' : Blockstore.t C B) :
  Blockstore.lookup c bs = None ->
  Blockstore.lookup c (bs ++ bs') = Blockstore.lookup c bs'.
Proof.
  induction bs as [|[c' b'] rest IH]; simpl; [reflexivity|].
  destruct (decide (c = c')); [discriminate | exact IH].
Qed.

Lemma put_extends (c x : AnyLink) (b : Blocks) :
  extends b (snd (Blockstore.put c x b)).
Proof.
  intros c' Hc'. unfold Blockstore.put.
  destruct (Blockstore.lookup c b); simpl; [exact Hc'|].
  unfold Blockstore.has in *.
  destruct (Blockstore.lookup c' b) as [y|] eqn:Hl; [|discriminate].
  rewrite (lookup_app_some _ _ _ _ Hl). reflexivity.
Qed.

Lemma put_has (c x : AnyLink) (b : Blocks) :
  Blockstore.has c (snd (Blockstore.put c x b)) = true.
Proof.
  unfold Blockstore.put, Blockstore.has.
  destruct (Blockstore.lookup c b) eqn:Hl; simpl; [rewrite Hl; reflexivity|].
  rewrite (lookup_app_none _ _ _ Hl). simpl.
  destruct (decide (c = c)); [reflexivity | contradiction].
Qed.

Lemma extends_refl b : extends b b.
Proof. intros c H. exact H. Qed.

Lemma extends_trans b1 b2 b3 : extends b1 b2 -> extends b2 b3 -> extends b1 b3.
Proof. intros H1 H2 c H. apply H2, H1, H. Qed.

Lemma resolvable_iff b e :
  resolvable b e = true <-> forall x, In x (history e) -> Blockstore.has (EventCid x) b = true.
Proof.
  induction e as [ps d IH] using EventLink_parents_ind. simpl.
  rewrite andb_true_iff, forallb_forall. split.
  - intros [He Hps] x [<-|Hx]; [exact He|].
    apply in_flat_map in Hx as (p & Hp & Hx). apply (IH p Hp); [apply Hps; exact Hp | exact Hx].
  - intros H. split; [apply H; left; reflexivity|].
    intros p Hp. apply (IH p Hp). intros x Hx. apply H. right.
    apply in_flat_map. exists p. split; assumption.
Qed.

Lemma resolvable_extends b b' e :
  extends b b' -> resolvable b e = true -> resolvable b' e = true.
Proof. rewrite !resolvable_iff. intros Hext H x Hx. apply Hext, H, Hx. Qed.

(** An [advance] that returns a head of resolvable events was given a
    resolvable event. *)
Lemma advance_ok_resolvable blocks head event head' :
  (forall h, In h head -> resolvable blocks h = true) ->
  Clock.advance blocks head event = Ok head' ->
  forallb (resolvable blocks) head' = true ->
  resolvable blocks event = true.
Proof.
  intros Hhead Hadv Hres'. rewrite forallb_forall in Hres'.
  unfold Clock.advance in Hadv.
  destruct (bool_decide (event ∈ head)) eqn:Hmem.
  { apply Hhead. apply bool_decide_eq_true_1, list_elem_of_In in Hmem. exact Hmem. }
  destruct (withoutAncestors blocks head event) as [[kept removed]|]; [|discriminate].
  destruct removed.
  { injection Hadv as <-. apply Hres'. apply in_app_iff. right. left. reflexivity. }
  rewrite (hasDescendant_resolvable _ _ _ Hhead) in Hadv.
  destruct (existsb (fun h => isAncestor event h) head) eqn:Habove.
  - apply existsb_exists in Habove as (h & Hh & Heh).
    pose proof (Hhead h Hh) as Hrh. rewrite resolvable_iff in Hrh.
    apply resolvable_iff. intros x Hx. apply Hrh.
    apply history_iff in Hx. apply history_iff. right.
    destruct Hx as [->|Hx]; [exact Heh | eapply isAncestor_trans; eassumption].
  - injection Hadv as <-. apply Hres'. apply in_app_iff. right. left. reflexivity.
Qed.

(** ** The operations of a replica *)

Lemma putSync_eq c s :
  putSync c s = (Ok tt, (snd (Blockstore.put c c (fst s)), snd s)).
Proof.
  unfold putSync, onStore, zoom, Blockstore.put.
  destruct (Blockstore.lookup c (fst s)); reflexivity.
Qed.

Lemma forallb_resolvable b head :
  (forall h, In h head -> resolvable b h = true) -> forallb (resolvable b) head = true.
Proof. intros H. apply forallb_forall. exact H. Qed.

Lemma put_step k v s :
  PailInv s ->
  exists res s',
    put k v s = (Ok res, s') /\
    Crdt.pr_event res = Link (head (snd s)) (Put k v) /\
    head (snd s') = [Link (head (snd s)) (Put k v)] /\
    PailInv s' /\
    extends (fst s) (fst s') /\
    resolvable (fst s') (Link (head (snd s)) (Put k v)) = true.
Proof.
  intros (Hanti & Hres & Hroot). destruct s as [b p]. simpl in *.
  set (e := Link (head p) (Put k v)).
  set (tree := ShardCid (<[k:=v]> (materialise (events (head p))))).
  set (b1 := snd (Blockstore.put (EventCid e) (EventCid e) b)).
  set (b2 := snd (Blockstore.put tree tree b1)).
  assert (put k v (b, p) =
          (Ok (Crdt.mkPutResult e [e] tree [tree]), (b2, mkTestPail [e] (Some tree)))) as Hput.
  { unfold put, bind, gets, liftResult, Crdt.put. simpl.
    rewrite (forallb_resolvable _ _ Hres). simpl.
    rewrite putSync_eq. simpl. unfold bind.
    rewrite putSync_eq. reflexivity. }
  assert (extends b b2) as Hext.
  { eapply extends_trans; apply put_extends. }
  assert (resolvable b2 e = true) as Hre.
  { apply resolvable_iff. intros x [<-|Hx].
    - apply put_extends. apply put_has.
    - apply in_flat_map in Hx as (h & Hh & Hx).
      apply Hext. revert x Hx. apply resolvable_iff. apply Hres. exact Hh. }
  eexists _, _. split; [exact Hput|]. simpl.
  split; [reflexivity|]. split; [reflexivity|]. split; [|split; [exact Hext | exact Hre]].
  split; [|split].
  - simpl. intros x y [<-|[]] [<-|[]]. apply isAncestor_irrefl.
  - simpl. intros h [<-|[]]. exact Hre.
  - left. simpl. split; [discriminate|]. unfold tree. rewrite <- materialise_put. reflexivity.
Qed.

Lemma advance_step e s :
  PailInv s -> resolvable (fst s) e = true ->
  exists h' s',
    advance e s = (Ok h', s') /\
    PailInv s' /\
    fst s' = fst s /\
    sameEvents (events (head (snd s'))) (events (head (snd s)) ++ history e).
Proof.
  intros (Hanti & Hres & Hroot) He. destruct s as [b p]. simpl in *.
  assert (forallb (resolvable b) (e :: head p) = true) as Hall.
  { simpl. rewrite He. apply forallb_resolvable. exact Hres. }
  destruct (advance_resolvable b (head p) e Hall) as (h' & Hadv & Hanti' & Hev & Hin & Hne).
  assert (forall h, In h h' -> resolvable b h = true) as Hres'.
  { intros h Hh. destruct (Hin h Hh) as [->|Hh']; [exact He | apply Hres; exact Hh']. }
  exists h', (b, mkTestPail h' (Some (ShardCid (materialise (events h'))))).
  split.
  { unfold advance, bind, gets, liftResult, modify. simpl. rewrite Hadv. simpl.
    unfold Crdt.root. rewrite (forallb_resolvable _ _ Hres'). reflexivity. }
  split; [|split; [reflexivity | exact Hev]].
  split; [exact (Hanti' Hanti)|]. split; [exact Hres'|].
  left. split; [exact Hne | reflexivity].
Qed.

Lemma PailInv_extends b b' p :
  PailInv (b, p) -> extends b b' -> PailInv (b', p).
Proof.
  intros (Hanti & Hres & Hroot) Hext. split; [exact Hanti|]. split; [|exact Hroot].
  intros h Hh. eapply resolvable_extends; [exact Hext | apply Hres; exact Hh].
Qed.

Lemma history_in_events_put head k v :
  sameEvents (events [Link head (Put k v)]) (events head ++ history (Link head (Put k v))).
Proof.
  intros x. unfold events at 1. simpl. rewrite app_nil_r, in_app_iff. simpl.
  change (flat_map history head) with (events head). tauto.
Qed.

Lemma putAll_spec s0 st :
  PailInv st ->
  exists es st',
    putAll s0 st = (Ok es, st') /\
    PailInv st' /\
    extends (fst st) (fst st') /\
    (forall e, In e es -> resolvable (fst st') e = true) /\
    sameEvents (events (head (snd st'))) (events (head (snd st)) ++ flat_map history es).
Proof.
  revert st. induction s0 as [|[k v] rest IH]; intros st Hinv; simpl.
  - exists [], st. split; [reflexivity|]. split; [exact Hinv|]. split; [apply extends_refl|].
    split; [intros e []|]. simpl. rewrite app_nil_r. apply sameEvents_refl.
  - destruct (put_step k v st Hinv) as (res & st1 & Hput & Hev & Hhead & Hinv1 & Hext1 & Hres1).
    destruct (IH st1 Hinv1) as (es & st2 & Hrest & Hinv2 & Hext2 & Hres2 & Hsame).
    exists (Crdt.pr_event res :: es), st2.
    split; [unfold bind; rewrite Hput, Hrest; reflexivity|].
    split; [exact Hinv2|]. split; [eapply extends_trans; eassumption|].
    split.
    + intros e [<-|He]; [|apply Hres2; exact He].
      rewrite Hev. eapply resolvable_extends; eassumption.
    + eapply sameEvents_trans; [exact Hsame|]. rewrite Hhead, Hev.
      intros x. pose proof (history_in_events_put (head (snd st)) k v x) as Hx.
      cbn [flat_map]. rewrite !in_app_iff in *. tauto.
Qed.

Lemma advanceAll_spec es st :
  PailInv st ->
  (forall e, In e es -> resolvable (fst st) e = true) ->
  exists st',
    advanceAll es st = (Ok tt, st') /\
    PailInv st' /\
    fst st' = fst st /\
    sameEvents (events (head (snd st'))) (events (head (snd st)) ++ flat_map history es).
Proof.
  revert st. induction es as [|e rest IH]; intros st Hinv Hres; simpl.
  - exists st. split; [reflexivity|]. split; [exact Hinv|]. split; [reflexivity|].
    rewrite app_nil_r. apply sameEvents_refl.
  - destruct (advance_step e st Hinv (Hres e (or_introl eq_refl)))
      as (h' & st1 & Hadv & Hinv1 & Hst1 & Hsame1).
    destruct (IH st1 Hinv1) as (st2 & Hrest & Hinv2 & Hst2 & Hsame2).
    { intros e' He'. rewrite Hst1. apply Hres. right. exact He'. }
    exists st2. split; [unfold bind; rewrite Hadv; exact Hrest|].
    split; [exact Hinv2|]. split; [congruence|].
    eapply sameEvents_trans; [exact Hsame2|].
    intros x. specialize (Hsame1 x). rewrite !in_app_iff in *. tauto.
Qed.

Lemma PailInv_new b : PailInv (b, new []).
Proof.
  split; [intros x y []|]. split; [intros h []|]. right. split; reflexivity.
Qed.

Lemma PailInv_converge b p1 p2 :
  PailInv (b, p1) -> PailInv (b, p2) ->
  sameEvents (events (head p1)) (events (head p2)) ->
  root p1 = root p2 /\
  (forall e, In e (head p1) <-> In e (head p2)) /\
  (forall key, fst (get key (b, p1)) = fst (get key (b, p2))).
Proof.
  intros (Ha1 & Hres1 & Hr1) (Ha2 & Hres2 & Hr2) Hsame. cbn [fst snd] in *.
  pose proof (antichain_unique _ _ Ha1 Ha2 Hsame) as Hheads.
  split; [|split; [exact Hheads|]].
  - destruct Hr1 as [[Hne1 ->]|[He1 ->]]; destruct Hr2 as [[Hne2 ->]|[He2 ->]].
    + rewrite (materialise_ext _ _ Hsame). reflexivity.
    + exfalso. destruct (head p1) as [|x l]; [congruence|].
      specialize (Hheads x). rewrite He2 in Hheads. apply Hheads. left. reflexivity.
    + exfalso. destruct (head p2) as [|x l]; [congruence|].
      specialize (Hheads x). rewrite He1 in Hheads. apply Hheads. left. reflexivity.
    + reflexivity.
  - intros key. unfold get, bind, gets, liftResult, Crdt.get. cbn [fst snd].
    rewrite (forallb_resolvable _ _ Hres1), (forallb_resolvable _ _ Hres2).
    rewrite (materialise_ext _ _ Hsame). reflexivity.
Qed.

Lemma flat_map_history_perm l l' :
  Permutation l l' -> sameEvents (flat_map history l) (flat_map history l').
Proof.
  intros Hp x. rewrite !in_flat_map. split; intros (e & He & Hx); exists e;
    (split; [|exact Hx]).
  - eapply Permutation_in; eassumption.
  - eapply Permutation_in; [apply Permutation_sym|]; eassumption.
Qed.

(** An [advance] that returns was given an event resolvable in the store. *)
Lemma advance_returns_resolvable e st h' st' :
  PailInv st -> advance e st = (Ok h', st') -> resolvable (fst st) e = true.
Proof.
  intros (_ & Hres & _) Hadv. destruct st as [b p]. cbn [fst snd] in *.
  unfold advance, bind, gets, liftResult, modify in Hadv. cbn [fst snd] in Hadv.
  destruct (Clock.advance b (head p) e) as [hd|err] eqn:Hclock; [|discriminate].
  cbn [fst snd set_head head] in Hadv. unfold Crdt.root in Hadv.
  destruct (forallb (resolvable b) hd) eqn:Hhd; [|discriminate].
  eapply advance_ok_resolvable; eassumption.
Qed.

(** An operation that returns keeps the invariant of the replica that
    performs it and only adds blocks to the store. *)
Lemma perform_inv op st u st' :
  PailInv st -> perform op st = (Ok u, st') ->
  PailInv st' /\ extends (fst st) (fst st').
Proof.
  intros Hinv. destruct op as [k v|e]; unfold perform, bind.
  - destruct (put_step k v st Hinv) as (res & st1 & Hput & _ & _ & Hinv' & Hext & _).
    rewrite Hput. unfold ret. intros [= _ <-]. split; assumption.
  - destruct (advance e st) as [[hd|err] st1] eqn:Hadv; [|discriminate].
    unfold ret. intros [= _ <-].
    pose proof (advance_returns_resolvable _ _ _ _ Hinv Hadv) as He.
    destruct (advance_step e st Hinv He) as (h' & st2 & Hadv' & Hinv' & Hst & _).
    rewrite Hadv in Hadv'. injection Hadv' as _ <-.
    rewrite Hst. split; [exact Hinv' | apply extends_refl].
Qed.

Lemma act_inv w a u w' :
  PailInv (blocks w, alice w) -> PailInv (blocks w, bob w) ->
  act w a = (Ok u, w') ->
  PailInv (blocks w', alice w') /\ PailInv (blocks w', bob w').
Proof.
  intros Ha Hb. destruct a as [who op]. unfold act. cbn [fst snd].
  destruct who; unfold onAlice, onBob, zoom.
  - destruct (perform op (blocks w, alice w)) as [r [b' a']] eqn:Hp.
    intros [= -> <-]. cbn [blocks alice bob].
    destruct (perform_inv _ _ _ _ Ha Hp) as [Hinv Hext]. cbn [fst] in Hext.
    split; [exact Hinv | eapply PailInv_extends; eassumption].
  - destruct (perform op (blocks w, bob w)) as [r [b' p']] eqn:Hp.
    intros [= -> <-]. cbn [blocks alice bob].
    destruct (perform_inv _ _ _ _ Hb Hp) as [Hinv Hext]. cbn [fst] in Hext.
    split; [eapply PailInv_extends; eassumption | exact Hinv].
Qed.

Lemma completes_inv acts w :
  PailInv (blocks w, alice w) -> PailInv (blocks w, bob w) ->
  completes acts w = true ->
  PailInv (blocks (fold_left step acts w), alice (fold_left step acts w)) /\
  PailInv (blocks (fold_left step acts w), bob (fold_left step acts w)).
Proof.
  revert w. induction acts as [|a rest IH]; intros w Ha Hb Hc; cbn [fold_left].
  - split; assumption.
  - cbn [completes] in Hc. unfold step at 2 4 6 8.
    destruct (act w a) as [[u|err] w'] eqn:Hact; [|discriminate].
    destruct (act_inv _ _ _ _ Ha Hb Hact) as [Ha' Hb']. cbn [snd].
    apply IH; assumption.
Qed.

(** The replicas of a schedule whose operations all return. *)
Lemma schedule_inv acts :
  completes acts emptyWorld = true ->
  PailInv (blocks (schedule acts), alice (schedule acts)) /\
  PailInv (blocks (schedule acts), bob (schedule acts)).
Proof. intros Hc. apply completes_inv; [apply PailInv_new | apply PailInv_new | exact Hc]. Qed.

(** C1: two replicas start empty on a shared store; one applies the puts [s],
    the other a permutation [s'] of them; each then advances through the
    events of the other, in an order of its own.  Every operation succeeds,
    the two roots are equal, the two heads hold the same events, and [get]
    returns the same on both. *)
Theorem C1_replicas_converge (orderA orderB : list EventLink -> list EventLink)
        (s s' : list (string * string)) :
  Permutation s s' ->
  (forall l, Permutation (orderA l) l) ->
  (forall l, Permutation (orderB l) l) ->
  exists w,
    exchange orderA orderB s s' emptyWorld = (Ok tt, w) /\
    root (alice w) = root (bob w) /\
    (forall e, In e (head (alice w)) <-> In e (head (bob w))) /\
    (forall key, fst (onAlice (get key) w) = fst (onBob (get key) w)).
Proof.
  intros _ HoA HoB.
  destruct (putAll_spec s (@pair Blocks t Blockstore.empty (new [])) (PailInv_new _))
    as (ea & [b1 a1] & Hpa & Hia & _ & Hra & Hea).
  destruct (putAll_spec s' (@pair Blocks t b1 (new [])) (PailInv_new _))
    as (eb & [b2 p1] & Hpb & Hib & Hext & Hrb & Heb).
  cbn [fst snd] in *.
  destruct (advanceAll_spec (orderA eb) (@pair Blocks t b2 a1))
    as ([b3 a2] & Haa & Hia2 & Hb3 & Hea2).
  { eapply PailInv_extends; eassumption. }
  { intros e He. apply Hrb. eapply Permutation_in; [apply HoA | exact He]. }
  cbn [fst snd] in Hb3. subst b3.
  destruct (advanceAll_spec (orderB ea) (@pair Blocks t b2 p1) Hib)
    as ([b4 p2] & Hab & Hib2 & Hb4 & Heb2).
  { intros e He. eapply resolvable_extends; [exact Hext|]. apply Hra.
    eapply Permutation_in; [apply HoB | exact He]. }
  cbn [fst snd] in *. subst b4.
  exists (mkWorld b2 a2 p2). split.
  { unfold exchange, bind, onAlice, onBob, zoom, emptyWorld.
    cbn [blocks alice bob]. rewrite Hpa.
    cbn [blocks alice bob fst snd]. rewrite Hpb.
    cbn [blocks alice bob fst snd]. rewrite Haa.
    cbn [blocks alice bob fst snd]. rewrite Hab. reflexivity. }
  assert (sameEvents (events (head a2)) (events (head p2))) as Hsame.
  { intros x. rewrite (Hea2 x), (Heb2 x), !in_app_iff, (Hea x), (Heb x).
    rewrite (flat_map_history_perm _ _ (HoA eb) x), (flat_map_history_perm _ _ (HoB ea) x).
    cbn [new head events flat_map]. rewrite !in_app_iff. simpl. tauto. }
  destruct (PailInv_converge b2 a2 p2 Hia2 Hib2 Hsame) as (Hroot & Hheads & Hget).
  cbn [alice bob]. split; [exact Hroot|]. split; [exact Hheads|].
  intros key. specialize (Hget key). unfold onAlice, onBob, zoom. cbn [blocks alice bob].
  destruct (get key (b2, a2)) as [ra sa]. destruct (get key (b2, p2)) as [rb sb].
  exact Hget.
Qed.

Lemma C1_witness :
  exists w,
    exchange (@rev EventLink) (fun l => l)
             [("k1", "a1"); ("k2", "a2")]%string [("k2", "a2"); ("k1", "a1")]%string
             emptyWorld
      = (Ok tt, w) /\
    root (alice w) = root (bob w) /\
    (forall e, In e (head (alice w)) <-> In e (head (bob w))) /\
    (forall key, fst (onAlice (get key) w) = fst (onBob (get key) w)).
Proof.
  apply C1_replicas_converge.
  - apply perm_swap.
  - intros l. apply Permutation_sym, Permutation_rev.
  - intros l. apply Permutation_refl.
Defined.

(** Before the exchange the two replicas of the witness already agree on the
    root but not on the head: each head is the replica's own last event. *)
Remark heads_before_exchange :
  let s := [("k1", "a1"); ("k2", "a2")]%string in
  let s' := [("k2", "a2"); ("k1", "a1")]%string in
  let w := snd ((onAlice (putAll s) ;; onBob (putAll s')) emptyWorld) in
  root (alice w) = root (bob w) /\ head (alice w) <> head (bob w).
Proof.
  split; [vm_compute; reflexivity|]. vm_compute. intros H. discriminate H.
Qed.

(** The parallel-put test of the sources passes on the model: the roots are
    equal and each replica reads the value put on the other. *)
Example parallel_put_test :
  fst (Scenario.parallelPutTest emptyWorld) = Ok ("v2", "v1")%string /\
  root (alice (snd (Scenario.parallelPutTest emptyWorld)))
    = root (bob (snd (Scenario.parallelPutTest emptyWorld))) /\
  root (alice (snd (Scenario.parallelPutTest emptyWorld))) <> None.
Proof.
  split; [vm_compute; reflexivity|]. split; [vm_compute; reflexivity|].
  vm_compute. discriminate.
Qed.

(** Scenario S3: after the merge both replicas have the same root and read
    the same value for the key written concurrently. *)
Example concurrent_merge :
  root (alice (snd (Scenario.concurrentMerge emptyWorld)))
    = root (bob (snd (Scenario.concurrentMerge emptyWorld))) /\
  exists v, fst (Scenario.concurrentMerge emptyWorld) = Ok (v, v).
Proof.
  split; [vm_compute; reflexivity|]. eexists. vm_compute. reflexivity.
Qed.

End PailFacts.

(** * Properties of the hook package *)

Module HookFacts.
Import Clock Hook.
Local Open Scope js_scope.

(** ** The clock handle *)

Lemma parseCid_cidString c : parseCid (cidString c) = Some c.
Proof.
  unfold parseCid, cidString.
  rewrite NilZero.usu by apply Unsigned.to_uint_nonnil.
  rewrite Unsigned.of_to. apply decode_encode.
Qed.

Lemma cidString_inj c1 c2 : cidString c1 = cidString c2 -> c1 = c2.
Proof.
  intros H. apply (f_equal parseCid) in H. rewrite !parseCid_cidString in H.
  congruence.
Qed.

Lemma parse_handle l : mapM parseCid (map cidString l) = Some l.
Proof. apply mapM_fmap_Some. exact parseCid_cidString. Qed.

Lemma setClock_toJSON db db' :
  setClock (h_clock (toJSON db)) db' = (Ok tt, mkFireproof (blocks db') (clock db)).
Proof. unfold setClock, toJSON. simpl. rewrite parse_handle. reflexivity. Qed.

(** C7: a database serializes to the handle [{ clock: [cidString] }], one
    string per event of its head and different strings for different events;
    [setClock] with the clock of that handle, on the database itself or on
    another instance over the same store, gives a state whose [getAll]
    returns what it returned before serialization, and on the database itself
    it changes nothing. *)
Theorem C7_clock_handle_round_trip (db db' : Fireproof) :
  blocks db' = blocks db ->
  toJSON db = mkHandle (map cidString (clock db)) /\
  (forall c1 c2, cidString c1 = cidString c2 -> c1 = c2) /\
  exists db'',
    setClock (h_clock (toJSON db)) db' = (Ok tt, db'') /\
    fst (getAll db'') = fst (getAll db) /\
    setClock (h_clock (toJSON db)) db = (Ok tt, db).
Proof.
  intros Hb. split; [reflexivity|]. split; [exact cidString_inj|].
  exists (mkFireproof (blocks db') (clock db)).
  split; [apply setClock_toJSON|]. split.
  - unfold getAll. simpl. rewrite Hb. reflexivity.
  - rewrite setClock_toJSON. destruct db. reflexivity.
Qed.

Lemma C7_witness :
  exists db'',
    setClock (h_clock (toJSON Scenario.savedDb)) Scenario.reloadedDb = (Ok tt, db'') /\
    fst (getAll db'') = fst (getAll Scenario.savedDb) /\
    fst (getAll db'') = Ok [("key", "v1")]%string.
Proof.
  destruct (C7_clock_handle_round_trip Scenario.savedDb Scenario.reloadedDb eq_refl)
    as (_ & _ & db'' & Hset & Hall & _).
  exists db''. split; [exact Hset|]. split; [exact Hall|].
  rewrite Hall. vm_compute. reflexivity.
Defined.

(** The hook persists the handle and restores from it. *)
Lemma listenerCallback_persists a :
  storageSupported a = true ->
  localStorage (snd (listenerCallback a)) !! "fireproof"%string = Some (toJSON (database a)) /\
  database (snd (listenerCallback a)) = database a.
Proof.
  intros Hs. unfold listenerCallback, bind, gets, localSet, modify. rewrite Hs. simpl.
  split; [apply lookup_insert_eq | reflexivity].
Qed.

Lemma doSetup_restores setupFn a h db rows_ :
  ready a = false ->
  storageSupported a = true ->
  localStorage a !! "fireproof"%string = Some (toJSON db) ->
  blocks (database a) = blocks db ->
  fst (getAll db) = Ok rows_ ->
  exists p st',
    doSetup setupFn (a, h) = (Ok (Some p), st') /\
    clock (database (fst st')) = clock db /\
    fst (getAll (database (fst st'))) = Ok rows_ /\
    ready (fst st') = true.
Proof.
  intros Hready Hsup Hfp Hblocks Hall.
  unfold doSetup. rewrite Hready.
  unfold bind at 1. unfold localGet. rewrite Hsup, Hfp.
  unfold bind at 1. unfold onDatabase at 1, zoom. rewrite setClock_toJSON.
  cbn [fst snd].
  unfold onDatabase, zoom, changesSince. cbn [database set_database].
  unfold getAll in *. cbn [fst snd blocks clock] in *. rewrite Hblocks, Hall.
  unfold husher. cbn [fst snd].
  destruct (husherMap h !! "*"%string) as [p|]; eexists _, _;
    (split; [reflexivity|]);
    unfold listenerCallback, bind, gets, localSet, modify; cbn; rewrite ?Hsup; cbn;
    rewrite ?Hblocks, ?Hall; repeat split; reflexivity.
Qed.

(** ** [husher] *)

Lemma fold_delete_other (id : string) (due : list (nat * string)) (m : gmap string nat) :
  (forall tm, In tm due -> snd tm <> id) ->
  fold_left (fun m tm => delete (snd tm) m) due m !! id = m !! id.
Proof.
  revert m. induction due as [|tm due IH]; intros m Hne; simpl; [reflexivity|].
  rewrite IH by (intros tm' H; apply Hne; right; exact H).
  apply lookup_delete_ne. apply Hne. left. reflexivity.
Qed.

Lemma fold_delete_none (id : string) (due : list (nat * string)) (m : gmap string nat) :
  m !! id = None ->
  fold_left (fun m tm => delete (snd tm) m) due m !! id = None.
Proof.
  revert m. induction due as [|tm due IH]; intros m Hm; simpl; [exact Hm|].
  apply IH. rewrite lookup_delete. destruct (decide (snd tm = id)); [reflexivity | exact Hm].
Qed.

Lemma elapse_timers dt h tm : In tm (timers (elapse dt h)) -> In tm (timers h).
Proof. unfold elapse. simpl. intros H. apply filter_In in H. tauto. Qed.

Lemma elapse_hushed id p D dt h :
  hushed id p D h -> now h + dt < D -> hushed id p D (elapse dt h).
Proof.
  intros [Hp Ht] Hlt. split.
  - unfold elapse. simpl. rewrite fold_delete_other; [exact Hp|].
    intros tm Hin Hid. apply filter_In in Hin as [Hin Hdue].
    apply Nat.ltb_lt in Hdue. specialize (Ht tm Hin Hid). lia.
  - intros tm Hin. apply Ht. eapply elapse_timers. exact Hin.
Qed.

(** While the id is hushed, calls return the stored promise and run nothing. *)
Lemma burst_hushed {S} (id : string) (ms p D : nat) (calls : list (nat * WorkFn S)) s h :
  hushed id p D h ->
  now h + list_sum (map fst calls) < D ->
  fst (burst id ms calls (s, h)) = repeat p (length calls) /\
  fst (snd (burst id ms calls (s, h))) = s.
Proof.
  revert h. induction calls as [|[dt w] rest IH]; intros h Hh Hlt;
    simpl in Hlt; cbn [burst length repeat fst snd].
  - split; reflexivity.
  - assert (hushed id p D (elapse dt h)) as Hh' by (apply elapse_hushed; [exact Hh | lia]).
    unfold husher. rewrite (proj1 Hh').
    destruct (IH (elapse dt h) Hh') as [IH1 IH2].
    { unfold elapse at 1. cbn [now]. fold (list_sum (map fst rest)) in Hlt. lia. }
    destruct (burst id ms rest (s, elapse dt h)) as [ps st2]. cbn [fst snd] in *.
    split; [rewrite IH1; reflexivity | exact IH2].
Qed.

(** C8, as the code has it: [husher] works on the leading edge.  In a
    burst of calls for an id that is not hushed, the first call runs its work
    at once; every later call made less than [ms] milliseconds after the
    promise of the first one settled, and every later call whatsoever when
    that promise never settles, runs nothing and is answered with that same
    promise.  The state of the work after the burst is the state after the
    first call. *)
Theorem C8_husher_runs_the_first_call_only {S} (id : string) (ms dt0 : nat)
        (first : WorkFn S) (rest : list (nat * WorkFn S)) (s : S) (h : Hush) :
  husherMap h !! id = None ->
  (forall tm, In tm (timers h) -> snd tm <> id) ->
  (forall d, settles first = Some d -> list_sum (map fst rest) < d + ms) ->
  fst (snd (burst id ms ((dt0, first) :: rest) (s, h))) = snd (work first s) /\
  fst (burst id ms ((dt0, first) :: rest) (s, h))
    = repeat (nextPromise h) (Datatypes.S (length rest)).
Proof.
  intros Hfree Htimers Hwindow. cbn [burst fst snd].
  unfold husher.
  assert (husherMap (elapse dt0 h) !! id = None) as Hnone.
  { unfold elapse. cbn [husherMap]. apply fold_delete_none. exact Hfree. }
  rewrite Hnone.
  set (h1 := mkHush _ _ _ _).
  assert (exists D, hushed id (nextPromise h) D h1 /\
                    now h1 + list_sum (map fst rest) < D) as (D & Hh1 & HD).
  { destruct (settles first) as [d|] eqn:Hd.
    - exists (now h + dt0 + d + ms). split.
      + split; [apply lookup_insert_eq|].
        intros tm Hin Hid. unfold h1 in Hin. cbn [timers] in Hin.
        apply in_app_iff in Hin as [Hin|[<-|[]]].
        * exfalso. apply (Htimers tm); [|exact Hid].
          apply elapse_timers in Hin. exact Hin.
        * unfold elapse. cbn [now fst]. lia.
      + specialize (Hwindow d eq_refl). unfold h1, elapse. cbn [now]. lia.
    - exists (Datatypes.S (now h1 + list_sum (map fst rest))). split; [|lia].
      split; [apply lookup_insert_eq|].
      intros tm Hin Hid. exfalso. unfold h1 in Hin. cbn [timers] in Hin.
      apply (Htimers tm); [|exact Hid]. apply elapse_timers in Hin. exact Hin. }
  destruct (burst_hushed id ms _ _ rest (snd (work first s)) h1 Hh1 HD) as [H1 H2].
  destruct (burst id ms rest (snd (work first s), h1)) as [ps st2]. cbn [fst snd] in *.
  split; [exact H2 | rewrite H1; reflexivity].
Qed.

Lemma C8_witness :
  fst (snd (burst "*" 250 Scenario.twoCalls ([], Hush_init))) = ["first"%string] /\
  fst (burst "*" 250 Scenario.twoCalls ([], Hush_init)) = [0; 0].
Proof.
  apply (C8_husher_runs_the_first_call_only "*" 250 0
           (Scenario.logWork "first" 0) [(100, Scenario.logWork "last" 0)] [] Hush_init).
  - reflexivity.
  - intros tm [].
  - intros d [= <-]. simpl. lia.
Defined.

(** C8, as the claim states it, fails: for two notifications 100 ms apart
    the work of the first call has run and the work of the last call never
    does, where a trailing debounce runs once for the last call. *)
Lemma C8_counterexample :
  fst (snd (burst "*" 250 Scenario.twoCalls ([], Hush_init))) = ["first"%string] /\
  trailingDebounce Scenario.twoCalls [] = ["last"%string] /\
  fst (snd (burst "*" 250 Scenario.twoCalls ([], Hush_init)))
    <> trailingDebounce Scenario.twoCalls [].
Proof.
  split; [vm_compute; reflexivity|]. split; [vm_compute; reflexivity|].
  vm_compute. intros H. discriminate H.
Qed.

(** The id is released once [ms] milliseconds have passed since the promise
    settled: a later call runs its work again. *)
Lemma husher_reopens :
  fst (snd (burst "*" 250
              (Scenario.twoCalls ++ [(151, Scenario.logWork "later" 0)])
              ([], Hush_init)))
  = ["first"; "later"]%string.
Proof. vm_compute. reflexivity. Qed.

(** The hook hushes its listener callback for 250 ms. *)
Lemma doSetup_hushes_250 setupFn a h r a' h' :
  doSetup setupFn (a, h) = (Ok (Some r), (a', h')) ->
  husherMap h !! "*"%string = None ->
  In (now h + 250, "*"%string) (timers h').
Proof.
  unfold doSetup. destruct (ready a); [discriminate|].
  match goal with |- context [let '(r, a1) := ?c in _] => destruct c as [[u|e] a1] end;
    [|discriminate].
  unfold husher. cbn [fst snd]. intros H Hnone. rewrite Hnone in H.
  injection H as <- <- <-. simpl. apply in_app_iff. right. left.
  f_equal. lia.
Qed.

End HookFacts.
(** * More on the index engine: errors, stores and refresh *)

Module IndexBehaviour.
Import Prolly IndexEngine IndexFacts.
Local Open Scope js_scope.

(** ** Documents *)

(** X1: a field of the document handed to the map function is the field of
    the stored value when the value has it, a value's own [_id] included;
    [_id] is the key of the change only when the value has no [_id]; any
    other field is absent. *)
Theorem makeDoc_lookup (key : string) (value : gmap string JSValue) (f : string) :
  makeDoc key value !! f =
    match value !! f with
    | Some v => Some v
    | None => if decide (f = "_id"%string) then Some (JStr key) else None
    end.
Proof.
  unfold makeDoc. rewrite lookup_union.
  destruct (value !! f) as [v|] eqn:Hv; simpl.
  - destruct ({["_id"%string := JStr key]} !! f); reflexivity.
  - destruct (decide (f = "_id"%string)) as [->|Hne].
    + rewrite lookup_singleton_eq. reflexivity.
    + rewrite lookup_singleton_ne by congruence. reflexivity.
Qed.

(** ** When [indexEntriesForChanges] raises *)

Lemma forEachChange_passes pre rest mapFun acc :
  Forall (passes mapFun) pre ->
  exists acc', forEachChange (pre ++ rest) mapFun acc = forEachChange rest mapFun acc'.
Proof.
  intros Hpre. revert acc. induction Hpre as [|c pre Hc _ IH]; intros acc; simpl.
  - exists acc. reflexivity.
  - destruct (truthy (c_del c)) eqn:Hdel; [apply IH|].
    destruct Hc as [Hc|Hc]; [congruence|]. rewrite Hc. apply IH.
Qed.

(** X2: [indexEntriesForChanges] raises exactly when the map function throws
    on a change that is not deleted; the error is the value thrown on the
    first such change, and no later change is looked at.  A throw on the
    document of a deleted change cannot happen: the map function is not
    called on it. *)
Theorem indexEntriesForChanges_raises (changes : list Change) (mapFun : MapFun) (e : Error) :
  indexEntriesForChanges changes mapFun = Err e <->
  exists pre c post v,
    changes = pre ++ c :: post /\
    Forall (passes mapFun) pre /\
    truthy (c_del c) = false /\
    thrown (mapFun (makeDoc (c_key c) (c_value c))) = Some v /\
    e = Thrown v.
Proof.
  unfold indexEntriesForChanges. split.
  - generalize (@nil IndexEntry) as acc.
    induction changes as [|c rest IH]; intros acc H; simpl in H; [discriminate|].
    destruct (truthy (c_del c)) eqn:Hdel.
    + destruct (IH _ H) as (pre & c' & post & v & -> & Hpre & Hrest).
      exists (c :: pre), c', post, v. split; [reflexivity|].
      split; [constructor; [left; exact Hdel | exact Hpre] | exact Hrest].
    + destruct (thrown (mapFun (makeDoc (c_key c) (c_value c)))) as [v|] eqn:Hth.
      * injection H as <-. exists [], c, rest, v. repeat split; [constructor | exact Hdel | exact Hth].
      * destruct (IH _ H) as (pre & c' & post & v & -> & Hpre & Hrest).
        exists (c :: pre), c', post, v. split; [reflexivity|].
        split; [constructor; [right; exact Hth | exact Hpre] | exact Hrest].
  - intros (pre & c & post & v & -> & Hpre & Hdel & Hth & ->).
    destruct (forEachChange_passes pre (c :: post) mapFun [] Hpre) as [acc' ->].
    simpl. rewrite Hdel, Hth. reflexivity.
Qed.

(** ** [oldDocsBeforeChanges] *)

Lemma filter_implied {A} (P Q : A -> bool) (l : list A) :
  (forall x, P x = true -> Q x = true) ->
  List.filter P (List.filter Q l) = List.filter P l.
Proof.
  intros H. induction l as [|x l IH]; [reflexivity|]. cbn [List.filter].
  destruct (Q x) eqn:HQ; cbn [List.filter].
  - rewrite IH. reflexivity.
  - destruct (P x) eqn:HP; [rewrite (H x HP) in HQ; discriminate | exact IH].
Qed.

Lemma filter_both {A} (P P' Q : A -> bool) (l : list A) :
  (forall x, P' x = P x && Q x) ->
  List.filter P' l = List.filter P (List.filter Q l).
Proof.
  intros H. induction l as [|x l IH]; [reflexivity|]. cbn [List.filter].
  rewrite (H x). destruct (Q x); cbn [List.filter]; destruct (P x); cbn [andb];
    rewrite ?IH; reflexivity.
Qed.

Lemma omap_filter_none {A B} (g : A -> option B) (Q : A -> bool) (l : list A) :
  (forall x, Q x = false -> g x = None) ->
  omap g (List.filter Q l) = omap g l.
Proof.
  intros H. induction l as [|x l IH]; [reflexivity|]. cbn [List.filter].
  destruct (Q x) eqn:HQ.
  - change (omap g (x :: List.filter Q l))
      with (match g x with
            | Some y => y :: omap g (List.filter Q l)
            | None => omap g (List.filter Q l)
            end).
    rewrite IH. reflexivity.
  - rewrite IH.
    change (omap g (x :: l))
      with (match g x with Some y => y :: omap g l | None => omap g l end).
    rewrite (H x HQ). reflexivity.
Qed.

Lemma omap_cons' {A B} (g : A -> option B) (x : A) (l : list A) :
  omap g (x :: l) = match g x with Some y => y :: omap g l | None => omap g l end.
Proof. reflexivity. Qed.

Lemma oldDocsLoop_spec {D} (keys : list string) (get : string -> Result D)
      (acc : list (string * D)) :
  Forall (fun kd => get (fst kd) = Ok (snd kd)) acc ->
  match oldDocsLoop keys get acc with
  | Ok res =>
      Forall (quiet get) keys /\
      res = acc ++ omap (fun k => match get k with Ok d => Some (k, d) | Err _ => None end)
                        (List.filter
                           (fun k => negb (existsb (fun kd => bool_decide (fst kd = k)) acc))
                           (firstOccurrences keys))
  | Err e =>
      e <> NotFound /\
      exists pre key post,
        keys = pre ++ key :: post /\ Forall (quiet get) pre /\ get key = Err e
  end.
Proof.
  revert acc. induction keys as [|key rest IH]; intros acc Hacc.
  - cbn. split; [constructor | rewrite app_nil_r; reflexivity].
  - cbn [oldDocsLoop firstOccurrences List.filter].
    destruct (existsb (fun kd => bool_decide (fst kd = key)) acc) eqn:Hhas; cbn [negb].
    + assert (quiet get key) as Hq.
      { apply existsb_exists in Hhas as ([k d] & Hin & Hk).
        apply bool_decide_eq_true_1 in Hk. cbn in Hk. subst k.
        rewrite List.Forall_forall in Hacc. specialize (Hacc _ Hin). cbn in Hacc.
        unfold quiet. rewrite Hacc. exact I. }
      specialize (IH acc Hacc). destruct (oldDocsLoop rest get acc) as [res|e].
      * destruct IH as [Hquiet ->]. split; [constructor; assumption|].
        rewrite filter_implied; [reflexivity|].
        intros x Hx. apply negb_true_iff. apply bool_decide_eq_false_2. intros ->.
        rewrite Hhas in Hx. discriminate.
      * destruct IH as (Hne & pre & k & post & -> & Hpre & Hget). split; [exact Hne|].
        exists (key :: pre), k, post.
        split; [reflexivity|]. split; [constructor; assumption | exact Hget].
    + destruct (get key) as [d|e] eqn:Hget.
      * assert (quiet get key) as Hq by (unfold quiet; rewrite Hget; exact I).
        assert (Forall (fun kd => get (fst kd) = Ok (snd kd)) (acc ++ [(key, d)])) as Hacc'.
        { apply Forall_app. split; [exact Hacc|]. constructor; [exact Hget | constructor]. }
        specialize (IH _ Hacc'). destruct (oldDocsLoop rest get (acc ++ [(key, d)])) as [res|e].
        -- destruct IH as [Hquiet ->]. split; [constructor; assumption|].
           rewrite omap_cons', Hget, <- app_assoc. cbn [app]. do 3 f_equal.
           apply filter_both. intros x.
           rewrite existsb_app. cbn [existsb fst]. rewrite orb_false_r, negb_orb.
           f_equal. f_equal. apply bool_decide_ext. split; congruence.
        -- destruct IH as (Hne & pre & k & post & -> & Hpre & Hget'). split; [exact Hne|].
           exists (key :: pre), k, post.
           split; [reflexivity|]. split; [constructor; assumption | exact Hget'].
      * assert (e = NotFound \/ e <> NotFound) as [->|Hne].
        { destruct e; [left; reflexivity | right; discriminate ..]. }
        -- assert (quiet get key) as Hq by (unfold quiet; rewrite Hget; reflexivity).
           specialize (IH acc Hacc). destruct (oldDocsLoop rest get acc) as [res|e].
           ++ destruct IH as [Hquiet ->]. split; [constructor; assumption|].
              rewrite omap_cons', Hget. f_equal.
              rewrite <- (omap_filter_none _ (fun k' => negb (bool_decide (k' = key)))
                            (List.filter _ (firstOccurrences rest))).
              ** f_equal. clear. induction (firstOccurrences rest) as [|x l IHl]; [reflexivity|].
                 cbn [List.filter].
                 destruct (negb (bool_decide (x = key))) eqn:H1;
                   destruct (negb (existsb (fun kd => bool_decide (fst kd = x)) acc)) eqn:H2;
                   cbn [List.filter]; rewrite ?H1, ?H2, ?IHl; reflexivity.
              ** intros x Hx. apply negb_false_iff, bool_decide_eq_true_1 in Hx. subst x.
                 rewrite Hget. reflexivity.
           ++ destruct IH as (Hne & pre & k & post & -> & Hpre & Hget'). split; [exact Hne|].
              exists (key :: pre), k, post.
              split; [reflexivity|]. split; [constructor; assumption | exact Hget'].
        -- assert (match e with NotFound => oldDocsLoop rest get acc | _ => Err e end = Err e)
             as -> by (destruct e; congruence).
           split; [exact Hne|]. exists [], key, rest. split; [reflexivity|].
           split; [constructor | exact Hget].
Qed.

(** X3: [oldDocsBeforeChanges] returns the documents the snapshot has for the
    keys of the changes, one per key, in the order in which the keys first
    occur; a key that occurs again is not looked up twice and a key the
    snapshot reports as not found is skipped.  It returns only when every
    lookup returned or reported not found: an error of [snapshot.get] other
    than not-found is raised again, for the first key whose lookup fails so. *)
Theorem oldDocsBeforeChanges_spec {D} (changes : list Change) (get : string -> Result D) :
  match oldDocsBeforeChanges changes get with
  | Ok docs =>
      Forall (quiet get) (map c_key changes) /\
      docs = omap (found get) (firstOccurrences (map c_key changes))
  | Err e =>
      e <> NotFound /\
      exists pre c post,
        changes = pre ++ c :: post /\
        Forall (fun c' => quiet get (c_key c')) pre /\
        get (c_key c) = Err e
  end.
Proof.
  unfold oldDocsBeforeChanges.
  pose proof (oldDocsLoop_spec (map c_key changes) get [] (Forall_nil _)) as H.
  destruct (oldDocsLoop (map c_key changes) get []) as [res|e].
  - destruct H as [Hquiet ->]. split; [exact Hquiet|]. cbn [app existsb negb].
    induction (firstOccurrences (map c_key changes)) as [|k l IH]; [reflexivity|].
    cbn [List.filter]. rewrite !omap_cons'. unfold found at 1.
    destruct (get k); cbn [map snd]; rewrite IH; reflexivity.
  - destruct H as (Hne & pre & key & post & Hkeys & Hpre & Hget). split; [exact Hne|].
    apply map_eq_app in Hkeys as (cpre & crest & -> & <- & Hrest).
    apply map_eq_cons in Hrest as (c & cpost & -> & <- & _).
    exists cpre, c, cpost. split; [reflexivity|]. split; [|exact Hget].
    apply List.Forall_forall. intros c' Hc'. rewrite List.Forall_forall in Hpre.
    apply Hpre. apply in_map. exact Hc'.
Qed.

(** ** [bulkIndex] and the store *)

Lemma put_lookup_other (c c' : CID) (b b' : Bytes) bs :
  Blockstore.lookup c' bs = Some b' ->
  Blockstore.lookup c' (snd (Blockstore.put c b bs)) = Some b'.
Proof.
  intros Hl. unfold Blockstore.put.
  destruct (Blockstore.lookup c bs); simpl; [exact Hl|].
  revert Hl. induction bs as [|[c0 b0] rest IH]; simpl; [discriminate|].
  destruct (decide (c' = c0)); [tauto | exact IH].
Qed.

Lemma put_lookup_same content bs :
  wfStore bs ->
  Blockstore.lookup (CidOf content) (snd (Blockstore.put (CidOf content) content bs))
    = Some content.
Proof.
  intros Hwf. unfold Blockstore.put.
  destruct (Blockstore.lookup (CidOf content) bs) as [b|] eqn:Hl; simpl.
  - rewrite Hl. apply wfStore_lookup in Hl; [|exact Hwf]. congruence.
  - clear Hwf. induction bs as [|[c0 b0] rest IH]; simpl in *.
    + destruct (decide (CidOf content = CidOf content)); [reflexivity | contradiction].
    + destruct (decide (CidOf content = c0)); [discriminate | apply IH; exact Hl].
Qed.

Lemma bulkIndex_root_stored (inRoot : option Block) (es : list IndexEntry)
        (bs bs' : Blockstore.t CID Bytes) (r : option Block) :
  wfStore bs ->
  es <> [] ->
  bulkIndex inRoot es bs = (Ok r, bs') ->
  exists content,
    r = Some (nodeBlock content) /\
    Blockstore.lookup (CidOf content) bs' = Some content /\
    (forall c b, Blockstore.lookup c bs = Some b -> Blockstore.lookup c bs' = Some b) /\
    (forall q, queryIndexRange r q bs'
               = (Ok (mkQueryResult (range (mkTree (nodeBlock content) content)
                                           (fst (q_range q)) (snd (q_range q)))), bs')).
Proof.
  intros Hwf Hne Hb.
  assert (exists content bs0,
             r = Some (nodeBlock content) /\
             bs' = snd (Blockstore.put (CidOf content) content bs0) /\
             wfStore bs0 /\
             (forall c b, Blockstore.lookup c bs = Some b -> Blockstore.lookup c bs0 = Some b))
    as (content & bs0 & -> & -> & Hwf0 & Hkeep).
  { unfold bulkIndex in Hb. destruct es as [|e es']; [congruence|]. simpl in Hb.
    destruct inRoot as [r0|].
    - unfold load in Hb. destruct (cid r0) as [c|]; [|discriminate].
      unfold bind in Hb.
      destruct (getBlock_spec c bs Hwf) as [Hg|(content & -> & Hg)]; rewrite Hg in Hb;
        [discriminate|].
      unfold ret, bulk in Hb. simpl in Hb. rewrite putBlock_node in Hb.
      injection Hb as <- <-. eexists _, bs. repeat split; [exact Hwf | tauto].
    - unfold create in Hb. simpl in Hb. unfold bind in Hb.
      rewrite putBlock_node in Hb. unfold ret in Hb. injection Hb as <- <-.
      eexists _, bs. repeat split; [exact Hwf | tauto]. }
  exists content. split; [reflexivity|].
  pose proof (put_lookup_same content bs0 Hwf0) as Hsame.
  split; [exact Hsame|]. split.
  - intros c b Hl. apply put_lookup_other, Hkeep, Hl.
  - intros q. unfold queryIndexRange, nodeBlock. simpl.
    unfold load, bind, getBlock, bind, Blockstore.get. rewrite Hsame. reflexivity.
Qed.

(** X4: after [bulkIndex] has applied a batch that is not empty, to no root
    or to a root of the store, the block of the root it returns is in the
    store under its CID, every block the store held is still there, and
    [queryIndexRange] on the returned root succeeds with the range of the
    tree of that block. *)
Theorem bulkIndex_stores_its_root (inRoot : option Block) (es : list IndexEntry)
        (bs bs' : Blockstore.t CID Bytes) (r : option Block) :
  wfStore bs ->
  es <> [] ->
  bulkIndex inRoot es bs = (Ok r, bs') ->
  wfStore bs' /\
  exists content,
    r = Some (nodeBlock content) /\
    Blockstore.lookup (CidOf content) bs' = Some content /\
    (forall c b, Blockstore.lookup c bs = Some b -> Blockstore.lookup c bs' = Some b) /\
    (forall q, queryIndexRange r q bs'
               = (Ok (mkQueryResult (range (mkTree (nodeBlock content) content)
                                           (fst (q_range q)) (snd (q_range q)))), bs')).
Proof.
  intros Hwf Hne Hb. split.
  - exact (proj1 (bulkIndex_spec _ _ _ _ _ Hwf Hb)).
  - eapply bulkIndex_root_stored; eassumption.
Qed.

Lemma bulkIndex_stores_its_root_witness :
  wfStore (snd (bulkIndex None Scenario.entry20 Blockstore.empty)) /\
  exists content,
    fst (bulkIndex None Scenario.entry20 Blockstore.empty) = Ok (Some (nodeBlock content)) /\
    Blockstore.lookup (CidOf content) (snd (bulkIndex None Scenario.entry20 Blockstore.empty))
      = Some content.
Proof.
  destruct (bulkIndex_stores_its_root None Scenario.entry20 Blockstore.empty
              (snd (bulkIndex None Scenario.entry20 Blockstore.empty))
              (Some (nodeBlock (applyBatch [] Scenario.entry20))))
    as (Hwf & content & Hr & Hl & _).
  - vm_compute. repeat constructor.
  - discriminate.
  - vm_compute. reflexivity.
  - split; [exact Hwf|]. exists content. split; [|exact Hl].
    rewrite <- Hr. vm_compute. reflexivity.
Defined.

(** X5: [bulkIndex] with a batch that is not empty and a root whose block is
    not in the store raises the store's not-found error and puts nothing. *)
Theorem bulkIndex_missing_root (r0 : Block) (c : CID) (es : list IndexEntry)
        (bs : Blockstore.t CID Bytes) :
  cid r0 = Some c ->
  Blockstore.lookup c bs = None ->
  es <> [] ->
  bulkIndex (Some r0) es bs = (Err NotFound, bs).
Proof.
  intros Hc Hl Hne. unfold bulkIndex. destruct es as [|e es']; [congruence|]. simpl.
  unfold load. rewrite Hc. unfold bind, getBlock, bind, Blockstore.get. rewrite Hl. reflexivity.
Qed.

Lemma bulkIndex_missing_root_witness :
  bulkIndex (Some (nodeBlock [])) Scenario.entry20 Blockstore.empty
  = (Err NotFound, Blockstore.empty).
Proof.
  apply (bulkIndex_missing_root (nodeBlock []) (CidOf [])).
  - reflexivity.
  - reflexivity.
  - discriminate.
Defined.

(** ** [query] *)

(** X6: a query with an explicit root does not refresh the index: the index
    object, its roots, its head and its store are as before, and the rows are
    those of [queryIndexRange] on the given root, with the id and key of each
    row exchanged. *)
Theorem query_with_root_is_read_only (q : Query) (r : Block) (this : Index) :
  snd (query q (Some r) this) = this /\
  fst (query q (Some r) this) =
    match fst (queryIndexRange (Some r) q (blocks (database this))) with
    | Ok response => Ok (mkQueryResponse (map toQueryRow (result response)))
    | Err e => Err e
    end.
Proof.
  unfold query, bind, ret, gets. rewrite onBlocks_eq.
  rewrite queryIndexRange_store, set_blocks_same.
  destruct (queryIndexRange (Some r) q (blocks (database this))) as [[resp|e] bs];
    split; reflexivity.
Qed.

(** X7: when [database.changesSince] raises, a query without a root raises
    the same error and the index is left as it was. *)
Theorem query_changesSince_raises (q : Query) (this : Index) (e : Error) :
  changesSince (database this) (dbHead this) = Err e ->
  query q None this = (Err e, this).
Proof.
  intros H. unfold query, updateIndex, ALWAYS_REBUILD, bind, ret, gets, liftResult.
  simpl. rewrite H. reflexivity.
Qed.

Lemma query_changesSince_raises_witness :
  query Scenario.query20 None Scenario.offlineIndex
  = (Err MissingEvent, Scenario.offlineIndex).
Proof.
  apply (query_changesSince_raises Scenario.query20 Scenario.offlineIndex MissingEvent).
  reflexivity.
Defined.

(** X8: an index whose head is set while it has no byId tree cannot be
    refreshed: [indexEntriesForOldChanges] reads the [cid] of the null root,
    so every query without a root raises a [TypeError] and leaves the index
    as it was.  An index first queried while the database was empty is in
    that state: its head is the empty array, which is truthy. *)
Theorem refresh_without_byId_tree_raises (q : Query) (this : Index) (h : Head) (res : Changes) :
  dbHead this = Some h ->
  byIDindexRoot this = None ->
  changesSince (database this) (dbHead this) = Ok res ->
  query q None this = (Err (TypeError "cid"), this).
Proof.
  intros Hh Hb Hcs. unfold query, updateIndex, ALWAYS_REBUILD.
  unfold bind at 1. unfold bind at 1. unfold ret at 1.
  unfold bind at 1. unfold gets at 1. unfold bind at 1. unfold gets at 1.
  unfold bind at 1. unfold liftResult at 1. rewrite Hcs.
  unfold bind at 1. unfold invalidateOld.
  unfold bind at 1. unfold gets at 1. rewrite Hh.
  unfold bind at 1. unfold gets at 1. rewrite Hb.
  unfold bind at 1. unfold gets at 1. unfold bind at 1.
  rewrite onBlocks_eq. unfold indexEntriesForOldChanges, throw. cbn [fst snd].
  rewrite set_blocks_same. reflexivity.
Qed.

Lemma refresh_without_byId_tree_raises_witness :
  dbHead Scenario.emptyThenPut = Some [] /\
  query Scenario.query30 None Scenario.emptyThenPut
  = (Err (TypeError "cid"), Scenario.emptyThenPut).
Proof.
  split; [reflexivity|].
  apply (refresh_without_byId_tree_raises Scenario.query30 Scenario.emptyThenPut []
           (mkChanges [mkChange "u" (Scenario.aged 30) None] ["e2"%string])).
  - reflexivity.
  - reflexivity.
  - reflexivity.
Defined.

(** X9: [#updateIndex] assigns [dbHead] last: after a refresh that completed
    it is the head [changesSince] reported, and after a refresh that raised,
    at whatever step, it is what it was, so the same changes are fetched
    again by the next refresh. *)
Theorem dbHead_advances_only_when_refresh_completes (this : Index) :
  match fst (updateIndex this) with
  | Ok _ => exists res, changesSince (database this) (dbHead this) = Ok res /\
                        dbHead (snd (updateIndex this)) = Some (ch_head res)
  | Err _ => dbHead (snd (updateIndex this)) = dbHead this
  end.
Proof.
  destruct (updateIndex this) as [r this'] eqn:H. cbn [fst snd].
  unfold updateIndex, ALWAYS_REBUILD in H.
  unfold bind at 1 in H. unfold ret at 1 in H.
  unfold bind at 1 in H. unfold gets at 1 in H.
  unfold bind at 1 in H. unfold gets at 1 in H.
  unfold bind at 1 in H. unfold liftResult at 1 in H.
  destruct (changesSince (database this) (dbHead this)) as [res|e].
  2:{ injection H as <- <-. reflexivity. }
  unfold bind at 1 in H.
  pose proof (invalidateOld_frame res this) as Hframe.
  destruct (invalidateOld res this) as [[[]|e] this1]; simpl in Hframe;
    destruct Hframe as (_ & Hh & _).
  2:{ injection H as <- <-. exact Hh. }
  unfold bind at 1 in H. unfold gets at 1 in H.
  unfold bind at 1 in H. unfold liftResult at 1 in H.
  destruct (indexEntriesForChanges (ch_rows res) (mapFun this1)) as [es|e].
  2:{ injection H as <- <-. exact Hh. }
  unfold bind at 1 in H. unfold gets at 1 in H.
  unfold bind at 1 in H. rewrite onBlocks_eq in H.
  destruct (bulkIndex (byIDindexRoot this1) (byIdIndexEntriesOf es) (blocks (database this1)))
    as [[r1|e] bs1]; cbn [fst snd] in H.
  2:{ injection H as <- <-. exact Hh. }
  unfold bind at 1 in H. unfold modify at 1 in H.
  unfold bind at 1 in H. unfold gets at 1 in H.
  unfold bind at 1 in H. rewrite onBlocks_eq in H.
  match type of H with
  | context [bulkIndex ?a ?b ?c] => destruct (bulkIndex a b c) as [[r2|e] bs2]
  end; cbn [fst snd] in H.
  2:{ injection H as <- <-. exact Hh. }
  unfold bind, modify in H. injection H as <- <-.
  exists res. split; reflexivity.
Qed.

Lemma compare_eq a b : compare a b = Eq -> a = b.
Proof.
  revert b. induction a as [| |x|x|x|a1 IH1 a2 IH2]; intros b H; destruct b; simpl in H;
    try discriminate; try reflexivity.
  - destruct x, b; simpl in H; try discriminate; reflexivity.
  - apply Z.compare_eq in H. congruence.
  - apply String.compare_eq_iff in H. congruence.
  - destruct (compare a1 b1) eqn:H1; try discriminate.
    rewrite (IH1 _ H1), (IH2 _ H). reflexivity.
Qed.

Lemma insert_keys k v l k' :
  In k' (map fst (insert k v l)) <-> k' = k \/ In k' (map fst l).
Proof.
  induction l as [|[k0 v0] rest IH]; simpl; [intuition congruence|].
  destruct (compare k k0) eqn:Hc; simpl.
  - apply compare_eq in Hc. subst k0. intuition congruence.
  - intuition congruence.
  - rewrite IH. intuition congruence.
Qed.

Lemma applyBatch_keys es l k' :
  Forall (fun e => e_del e = false) es ->
  In k' (map fst (applyBatch l es)) <-> In k' (map e_key es) \/ In k' (map fst l).
Proof.
  unfold applyBatch. intros Hes. revert l.
  induction Hes as [|e rest He _ IH]; intros l; simpl; [tauto|].
  rewrite IH. unfold applyEntry. rewrite He, insert_keys. intuition congruence.
Qed.

Lemma in_map_fst {A B} (l : list (A * B)) a :
  In a (map fst l) <-> exists b, In (a, b) l.
Proof.
  rewrite in_map_iff. split.
  - intros ([a' b] & <- & H). exists b. exact H.
  - intros (b & H). exists (a, b). split; [reflexivity | exact H].
Qed.

Lemma forwardEntriesSpec_keys changes f key :
  In key (map e_key (forwardEntriesSpec changes f)) <->
  exists c k v, In c changes /\ truthy (c_del c) = false /\
                In (k, v) (emissionsOf f c) /\ key = JArr2 k (JStr (c_key c)).
Proof.
  unfold forwardEntriesSpec, nonDeleted. rewrite in_map_iff. split.
  - intros (e & <- & He). apply in_flat_map in He as (c & Hc & He).
    apply filter_In in Hc as [Hc Hdel]. apply negb_true_iff in Hdel.
    apply in_map_iff in He as ([k v] & <- & Hkv).
    exists c, k, v. repeat split; assumption.
  - intros (c & k & v & Hc & Hdel & Hkv & ->).
    exists (mkEntry (JArr2 k (JStr (c_key c))) v false). split; [reflexivity|].
    apply in_flat_map. exists c. split.
    + apply filter_In. split; [exact Hc | rewrite Hdel; reflexivity].
    + apply in_map_iff. exists (k, v). split; [reflexivity | exact Hkv].
Qed.

Lemma forwardEntriesSpec_puts changes f :
  Forall (fun e => e_del e = false) (forwardEntriesSpec changes f).
Proof.
  apply List.Forall_forall. intros e He. unfold forwardEntriesSpec in He.
  apply in_flat_map in He as (c & _ & He). apply in_map_iff in He as (kv & <- & _).
  reflexivity.
Qed.

Lemma forwardEntriesSpec_nonempty changes f c :
  In c changes -> truthy (c_del c) = false ->
  emitted (f (makeDoc (c_key c) (c_value c))) <> [] ->
  forwardEntriesSpec changes f <> [].
Proof.
  intros Hc Hdel Hem Hnil.
  destruct (emitted (f (makeDoc (c_key c) (c_value c)))) as [|[k v] rest] eqn:He;
    [congruence|].
  assert (In (JArr2 k (JStr (c_key c))) (map e_key (forwardEntriesSpec changes f))) as Hin.
  { apply forwardEntriesSpec_keys. exists c, k, v. repeat split; try assumption.
    unfold emissionsOf. rewrite He. left. reflexivity. }
  rewrite Hnil in Hin. exact Hin.
Qed.

Lemma insert_in k v l k' v' :
  In (k', v') (insert k v l) -> (k' = k /\ v' = v) \/ In (k', v') l.
Proof.
  induction l as [|[k0 v0] rest IH]; cbn [insert].
  - intros [[= <- <-]|[]]. left. split; reflexivity.
  - destruct (compare k k0); cbn [In].
    + intros [[= <- <-]|H]; [left; split; reflexivity | right; right; exact H].
    + intros [[= <- <-]|H]; [left; split; reflexivity | right; exact H].
    + intros [H|H]; [right; left; exact H|].
      destruct (IH H) as [H'|H']; [left; exact H' | right; right; exact H'].
Qed.

Lemma applyBatch_in es l k' v' :
  Forall (fun e => e_del e = false) es ->
  In (k', v') (applyBatch l es) ->
  In (k', v') l \/ exists e, In e es /\ e_key e = k' /\ e_value e = v'.
Proof.
  unfold applyBatch. intros Hes. revert l.
  induction Hes as [|e rest He _ IH]; intros l; cbn [fold_left]; [tauto|].
  intros H. destruct (IH _ H) as [H'|(e' & He' & Hk & Hv)].
  - unfold applyEntry in H'. rewrite He in H'.
    apply insert_in in H' as [[-> ->]|H']; [|left; exact H'].
    right. exists e. split; [left; reflexivity | split; reflexivity].
  - right. exists e'. split; [right; exact He' | split; assumption].
Qed.

Lemma forwardEntriesSpec_in changes f e :
  In e (forwardEntriesSpec changes f) <->
  exists c k v, In c changes /\ truthy (c_del c) = false /\
                In (k, v) (emissionsOf f c) /\
                e = mkEntry (JArr2 k (JStr (c_key c))) v false.
Proof.
  unfold forwardEntriesSpec, nonDeleted. split.
  - intros He. apply in_flat_map in He as (c & Hc & He).
    apply filter_In in Hc as [Hc Hdel]. apply negb_true_iff in Hdel.
    apply in_map_iff in He as ([k v] & <- & Hkv).
    exists c, k, v. repeat split; assumption.
  - intros (c & k & v & Hc & Hdel & Hkv & ->).
    apply in_flat_map. exists c. split.
    + apply filter_In. split; [exact Hc | rewrite Hdel; reflexivity].
    + apply in_map_iff. exists (k, v). split; [reflexivity | exact Hkv].
Qed.

(** X10: the first query of a new index, over a store whose blocks are
    addressed by their content, when the map function throws on no document
    and emits on at least one: the query succeeds and [dbHead] becomes the
    head [changesSince] reported.  Every row returned is
    [{ id: docId, key: k, value: v }] for an [emit(k, v)] the map function
    made on the document [docId] of a change that is not deleted, with [k] in
    the range; and every such emission with [k] strictly inside the range has
    a row with its docId and its key. *)
Theorem first_query_returns_the_emissions (db : Fireproof) (f : MapFun) (q : Query)
        (res : Changes) (c0 : Change) :
  wfStore (blocks db) ->
  changesSince db None = Ok res ->
  (forall c, In c (ch_rows res) -> truthy (c_del c) = false ->
             thrown (f (makeDoc (c_key c) (c_value c))) = None) ->
  In c0 (ch_rows res) -> truthy (c_del c0) = false ->
  emitted (f (makeDoc (c_key c0) (c_value c0))) <> [] ->
  exists resp,
    fst (query q None (Index_new db f)) = Ok resp /\
    dbHead (snd (query q None (Index_new db f))) = Some (ch_head res) /\
    (forall docId k v,
        In (mkQueryRow docId k v) (rows resp) ->
        inRange (fst (q_range q)) (snd (q_range q)) k = true /\
        exists c, In c (ch_rows res) /\ truthy (c_del c) = false /\
                  docId = JStr (c_key c) /\
                  In (k, v) (emitted (f (makeDoc (c_key c) (c_value c))))) /\
    (forall c k v,
        In c (ch_rows res) -> truthy (c_del c) = false ->
        In (k, v) (emitted (f (makeDoc (c_key c) (c_value c)))) ->
        compare (fst (q_range q)) k = Lt -> compare k (snd (q_range q)) = Lt ->
        exists v', In (mkQueryRow (JStr (c_key c)) k v') (rows resp)).
Proof.
  intros Hwf Hcs Hno Hc0 Hdel0 Hem0.
  pose proof (forwardEntriesSpec_nonempty _ f c0 Hc0 Hdel0 Hem0) as Hne.
  set (es := forwardEntriesSpec (ch_rows res) f) in *.
  assert (indexEntriesForChanges (ch_rows res) f = Ok es) as Hes.
  { unfold indexEntriesForChanges. rewrite forEachChange_spec by exact Hno. reflexivity. }
  pose proof (updateIndex_applies_batches (Index_new db f) res (Index_new db f) es
                Hcs eq_refl Hes) as Hupd.
  assert (byIdIndexEntriesOf es <> []) as Hne1.
  { intros H. apply Hne. apply byIdIndexEntriesOf_nil. exact H. }
  destruct (bulkIndex None (byIdIndexEntriesOf es) (blocks db)) as [r1 bs1] eqn:Hb1.
  destruct (bulkIndex_spec _ _ _ _ _ Hwf Hb1) as [Hwf1 _].
  destruct (bulkIndex_create (byIdIndexEntriesOf es) (blocks db) Hne1) as [bs1' Hc1].
  rewrite Hc1 in Hb1. injection Hb1 as <- <-.
  destruct (bulkIndex_create es bs1' Hne) as [bs2 Hb2].
  destruct (bulkIndex_root_stored None es bs1' bs2 _ Hwf1 Hne Hb2)
    as (content & Hr & _ & _ & Hq).
  injection Hr as Hcontent.
  assert (content = applyBatch [] es) as -> by (unfold nodeBlock in Hcontent; congruence).
  clear Hcontent.
  assert (updateIndex (Index_new db f)
          = (Ok tt, mkIndex (mkFireproof bs2 (changesSince db)) f
                            (Some (nodeBlock (applyBatch [] es)))
                            (Some (nodeBlock (applyBatch [] (byIdIndexEntriesOf es))))
                            (Some (ch_head res)))) as Hupd'.
  { rewrite Hupd. unfold bind, gets, modify. rewrite onBlocks_eq.
    cbn [Index_new byIDindexRoot database blocks]. rewrite Hc1. cbn [fst snd].
    rewrite onBlocks_eq. cbn. rewrite Hb2. reflexivity. }
  eexists. split; [|split; [|split]].
  - unfold query. unfold bind at 1. rewrite Hupd'.
    unfold bind, gets. rewrite onBlocks_eq. cbn [indexRoot database blocks].
    rewrite Hq. cbn [fst snd]. unfold ret. reflexivity.
  - unfold query. unfold bind at 1. rewrite Hupd'.
    unfold bind, gets. rewrite onBlocks_eq. cbn [indexRoot database blocks].
    rewrite Hq. reflexivity.
  - intros docId k v Hin. cbn [rows] in Hin.
    apply in_map_iff in Hin as ([k' d' v'] & Heq & Hin).
    unfold toQueryRow in Heq. cbn [r_id r_key r_row] in Heq. injection Heq as -> -> ->.
    apply range_rows in Hin as [Hin Hr]. cbn [t_entries] in Hin. split; [exact Hr|].
    apply applyBatch_in in Hin; [|apply forwardEntriesSpec_puts].
    destruct Hin as [[]|(e & He & Hk & Hv)].
    apply forwardEntriesSpec_in in He as (c & k0 & v0 & Hc & Hdel & Hkv & ->).
    cbn [e_key e_value] in Hk, Hv. injection Hk as Hk1 Hk2. subst k0 v0 docId.
    exists c. repeat split; assumption.
  - intros c k v Hc Hdel Hkv Hlo Hhi. cbn [rows].
    assert (In (JArr2 k (JStr (c_key c))) (map fst (applyBatch [] es))) as Hkey.
    { apply applyBatch_keys; [apply forwardEntriesSpec_puts|]. left.
      apply forwardEntriesSpec_keys. exists c, k, v. repeat split; assumption. }
    apply in_map_fst in Hkey as (v' & Hin). exists v'.
    apply in_map_iff. exists (mkRow k (JStr (c_key c)) v'). split; [reflexivity|].
    apply range_rows. split; [exact Hin|].
    unfold inRange, keyLe. rewrite Hlo, Hhi. reflexivity.
Qed.

Lemma first_query_returns_the_emissions_witness :
  exists resp,
    fst (query Scenario.query10to30 None Scenario.freshIndex) = Ok resp /\
    dbHead (snd (query Scenario.query10to30 None Scenario.freshIndex))
      = Some ["e1"%string] /\
    (forall docId k v,
        In (mkQueryRow docId k v) (rows resp) ->
        inRange (JNum 10) (JNum 30) k = true /\
        exists c, In c [mkChange "u" (Scenario.aged 20) None] /\ truthy (c_del c) = false /\
                  docId = JStr (c_key c) /\
                  In (k, v) (emitted (Scenario.ageMap (makeDoc (c_key c) (c_value c))))) /\
    (forall c k v,
        In c [mkChange "u" (Scenario.aged 20) None] -> truthy (c_del c) = false ->
        In (k, v) (emitted (Scenario.ageMap (makeDoc (c_key c) (c_value c)))) ->
        compare (JNum 10) k = Lt -> compare k (JNum 30) = Lt ->
        exists v', In (mkQueryRow (JStr (c_key c)) k v') (rows resp)).
Proof.
  apply (first_query_returns_the_emissions
           (mkFireproof Blockstore.empty Scenario.changes1) Scenario.ageMap
           Scenario.query10to30
           (mkChanges [mkChange "u" (Scenario.aged 20) None] ["e1"%string])
           (mkChange "u" (Scenario.aged 20) None)).
  - vm_compute. repeat constructor.
  - reflexivity.
  - intros c _ _. reflexivity.
  - left. reflexivity.
  - reflexivity.
  - discriminate.
Defined.

End IndexBehaviour.
(** * More on the replicas of the test: reads, failures and repeats *)

Module PailBehaviour.
Import Clock Crdt TestPail PailFacts.
Local Open Scope js_scope.

(** The states of the statements below are those two replicas reach, from
    empty heads on an empty shared store, by puts and advances that all
    returned: [completes acts emptyWorld = true]. *)
Lemma stateOf_inv who acts :
  completes acts emptyWorld = true -> PailInv (stateOf who (schedule acts)).
Proof. intros Hc. destruct (schedule_inv acts Hc) as [Ha Hb]. destruct who; assumption. Qed.

Lemma PailInv_resolvable st : PailInv st -> forallb (resolvable (fst st)) (head (snd st)) = true.
Proof. intros (_ & H & _). apply forallb_resolvable. exact H. Qed.

Lemma get_eq key st :
  PailInv st ->
  get key st = (match materialise (events (head (snd st))) !! key with
                | Some v => Ok v
                | None => Err NotFound
                end, st).
Proof.
  intros Hinv. unfold get, bind, gets, liftResult, Crdt.get.
  rewrite (PailInv_resolvable st Hinv). reflexivity.
Qed.

(** X11: read your writes.  After any interleaving of puts and advances that
    all returned, a replica that puts [v] under [k] reads [v] under [k]
    afterwards, whatever the events it had incorporated held for [k], and
    what it reads under any other key is what it read before. *)
Theorem put_then_get (acts : list (Replica * Op)) (who : Replica) (k v : string) :
  completes acts emptyWorld = true ->
  fst (get k (snd (put k v (stateOf who (schedule acts))))) = Ok v /\
  forall k', k' <> k ->
             fst (get k' (snd (put k v (stateOf who (schedule acts)))))
             = fst (get k' (stateOf who (schedule acts))).
Proof.
  intros Hc. pose proof (stateOf_inv who acts Hc) as Hinv.
  set (st := stateOf who (schedule acts)) in *.
  destruct (put_step k v st Hinv) as (res & st1 & Hput & _ & Hhead & Hinv1 & _ & _).
  rewrite Hput. cbn [snd].
  rewrite (get_eq k st1 Hinv1). cbn [fst]. rewrite Hhead, materialise_put.
  split.
  - rewrite lookup_insert_eq. reflexivity.
  - intros k' Hne. rewrite (get_eq k' st1 Hinv1), (get_eq k' st Hinv). cbn [fst].
    rewrite Hhead, materialise_put, lookup_insert_ne by congruence. reflexivity.
Qed.

Lemma put_then_get_witness :
  fst (get "k" (snd (put "k" "v2" (stateOf Bob (schedule Scenario.sharedPut))))) = Ok "v2"%string /\
  forall k', k' <> "k"%string ->
             fst (get k' (snd (put "k" "v2" (stateOf Bob (schedule Scenario.sharedPut)))))
             = fst (get k' (stateOf Bob (schedule Scenario.sharedPut))).
Proof.
  apply (put_then_get Scenario.sharedPut Bob "k" "v2").
  vm_compute. reflexivity.
Defined.

(** X12: after any interleaving of puts and advances that all returned,
    [put] on a replica succeeds; the event it returns has the replica's head
    as parents, the head returned and the head of the replica are that one
    event, the root of the replica is the root returned, the blocks of the
    event and of the root are in the shared store, and no block has left the
    store. *)
Theorem put_result (acts : list (Replica * Op)) (who : Replica) (k v : string) :
  completes acts emptyWorld = true ->
  exists res st',
    put k v (stateOf who (schedule acts)) = (Ok res, st') /\
    Crdt.pr_event res = Link (head (snd (stateOf who (schedule acts)))) (Put k v) /\
    Crdt.pr_head res = [Crdt.pr_event res] /\
    head (snd st') = [Crdt.pr_event res] /\
    root (snd st') = Some (Crdt.pr_root res) /\
    Blockstore.has (EventCid (Crdt.pr_event res)) (fst st') = true /\
    Blockstore.has (Crdt.pr_root res) (fst st') = true /\
    extends (fst (stateOf who (schedule acts))) (fst st').
Proof.
  intros Hc. pose proof (stateOf_inv who acts Hc) as Hinv.
  destruct (stateOf who (schedule acts)) as [b p].
  set (e := Link (head p) (Put k v)).
  set (tree := ShardCid (<[k:=v]> (materialise (events (head p))))).
  exists (Crdt.mkPutResult e [e] tree [tree]).
  exists (snd (Blockstore.put tree tree (snd (Blockstore.put (EventCid e) (EventCid e) b))),
          mkTestPail [e] (Some tree)).
  split.
  { pose proof (PailInv_resolvable _ Hinv) as Hres. cbn [fst snd] in Hres.
    unfold put, bind, gets, liftResult, Crdt.put. cbn [fst snd].
    rewrite Hres. cbn [Crdt.pr_event Crdt.pr_additions putAdditions
                                               Crdt.pr_head Crdt.pr_root].
    rewrite putSync_eq. cbn [fst snd]. unfold bind.
    rewrite putSync_eq. reflexivity. }
  cbn [fst snd head root Crdt.pr_event Crdt.pr_head Crdt.pr_root].
  repeat split.
  - apply put_extends, put_has.
  - apply put_has.
  - eapply extends_trans; apply put_extends.
Qed.

Lemma put_result_witness :
  exists res st',
    put "k2" "v2" (stateOf Bob (schedule Scenario.sharedPut)) = (Ok res, st') /\
    Crdt.pr_event res = Link [Scenario.firstEvent] (Put "k2" "v2") /\
    head (snd st') = [Crdt.pr_event res] /\
    root (snd st') = Some (Crdt.pr_root res).
Proof.
  destruct (put_result Scenario.sharedPut Bob "k2" "v2")
    as (res & st' & Hput & Hev & _ & Hhead & Hroot & _).
  - vm_compute. reflexivity.
  - exists res, st'. split; [exact Hput|]. split; [exact Hev|]. split; assumption.
Defined.

Lemma keyLeb_total (a b : string * string) : keyLeb a b \/ keyLeb b a.
Proof. unfold keyLeb. apply String.leb_total. Qed.

(** X13: [getAll] and [get] agree.  After any interleaving of puts and
    advances that all returned, [getAll] succeeds, an entry is listed exactly
    when [get] of its key returns its value, the entries are in the order of
    their keys and no key is listed twice. *)
Theorem getAll_agrees_with_get (acts : list (Replica * Op)) (who : Replica) :
  completes acts emptyWorld = true ->
  exists l,
    fst (getAll (stateOf who (schedule acts))) = Ok l /\
    (forall k v, In (k, v) l <-> fst (get k (stateOf who (schedule acts))) = Ok v) /\
    Sorted (fun a b => String.leb (fst a) (fst b) = true) l /\
    NoDup (map fst l).
Proof.
  intros Hc. pose proof (stateOf_inv who acts Hc) as Hinv.
  set (st := stateOf who (schedule acts)) in *.
  set (m := materialise (events (head (snd st)))).
  exists (merge_sort keyLeb (map_to_list m)).
  pose proof (merge_sort_Permutation keyLeb (map_to_list m)) as Hperm.
  split; [|split; [|split]].
  - unfold getAll, bind, gets, liftResult, Crdt.getAll.
    rewrite (PailInv_resolvable st Hinv). reflexivity.
  - intros k v. rewrite (get_eq k st Hinv). cbn [fst]. fold m.
    rewrite <- list_elem_of_In, Hperm, elem_of_map_to_list.
    destruct (m !! k) as [v'|]; split; intros H; congruence.
  - apply (@Sorted_merge_sort _ keyLeb _ keyLeb_total).
  - change (map fst (merge_sort keyLeb (map_to_list m)))
      with ((merge_sort keyLeb (map_to_list m)).*1).
    rewrite Hperm. apply NoDup_fst_map_to_list.
Qed.

Lemma getAll_agrees_with_get_witness :
  exists l,
    fst (getAll (stateOf Bob (schedule Scenario.sharedPut))) = Ok l /\
    (forall k v, In (k, v) l <-> fst (get k (stateOf Bob (schedule Scenario.sharedPut))) = Ok v) /\
    Sorted (fun a b => String.leb (fst a) (fst b) = true) l /\
    NoDup (map fst l).
Proof.
  apply (getAll_agrees_with_get Scenario.sharedPut Bob).
  vm_compute. reflexivity.
Defined.

(** X14: after any interleaving of puts and advances that all returned,
    advancing a replica to an event it has already incorporated, a head
    event or an ancestor of one, returns the head as it is and changes
    neither head, root nor store. *)
Theorem advance_known_event_changes_nothing
        (acts : list (Replica * Op)) (who : Replica) (e : EventLink) :
  completes acts emptyWorld = true ->
  In e (events (head (snd (stateOf who (schedule acts))))) ->
  advance e (stateOf who (schedule acts))
  = (Ok (head (snd (stateOf who (schedule acts)))), stateOf who (schedule acts)).
Proof.
  intros Hc He. pose proof (stateOf_inv who acts Hc) as Hinv.
  destruct (stateOf who (schedule acts)) as [b [hd rt]]. cbn [fst snd head root] in *.
  destruct Hinv as (Hanti & Hres & Hroot). cbn [fst snd head root] in *.
  assert (hd <> []) as Hne.
  { intros H. rewrite H in He. exact He. }
  destruct Hroot as [[_ Hroot]|[Hnil _]]; [|contradiction].
  apply events_iff in He as (h & Hh & He).
  assert (resolvable b e = true) as Hre.
  { apply resolvable_iff. intros x Hx.
    pose proof (Hres h Hh) as Hrh. rewrite resolvable_iff in Hrh. apply Hrh.
    apply history_iff in Hx. apply history_iff.
    destruct He as [->|He]; [exact Hx|]. right.
    destruct Hx as [->|Hx]; [exact He | eapply isAncestor_trans; eassumption]. }
  assert (Clock.advance b hd e = Ok hd) as Hadv.
  { rewrite advance_pure
      by (cbn [forallb]; rewrite Hre; apply forallb_resolvable; exact Hres).
    destruct (bool_decide (e ∈ hd)) eqn:Hmem; [reflexivity|].
    apply bool_decide_eq_false_1 in Hmem. rewrite list_elem_of_In in Hmem.
    destruct He as [->|He]; [contradiction|].
    destruct (existsb (fun h0 => isAncestor h0 e) hd) eqn:Hbelow.
    { exfalso. apply existsb_exists in Hbelow as (h' & Hh' & Hh'e).
      pose proof (isAncestor_trans _ _ _ Hh'e He) as Habs.
      rewrite (Hanti h' h Hh' Hh) in Habs. discriminate. }
    assert (existsb (fun h0 => isAncestor e h0) hd = true) as ->.
    { apply existsb_exists. exists h. split; assumption. }
    reflexivity. }
  unfold advance, bind, gets, liftResult, modify. cbn [fst snd head root]. rewrite Hadv.
  cbn [fst snd set_head set_root head root]. unfold Crdt.root.
  rewrite (forallb_resolvable _ _ Hres). cbn [fst snd set_root set_head head root].
  rewrite Hroot. reflexivity.
Qed.

Lemma advance_known_event_changes_nothing_witness :
  advance Scenario.firstEvent (stateOf Alice (schedule Scenario.sharedPut))
  = (Ok (head (snd (stateOf Alice (schedule Scenario.sharedPut)))),
     stateOf Alice (schedule Scenario.sharedPut)).
Proof.
  apply (advance_known_event_changes_nothing Scenario.sharedPut Alice Scenario.firstEvent).
  - vm_compute. reflexivity.
  - vm_compute. left. reflexivity.
Defined.

(** ** Operations that raise *)

Lemma search_error fuel b a queue err :
  search fuel b a queue = Err err -> err = MissingEvent.
Proof.
  revert queue. induction fuel as [|fuel IH]; intros queue; cbn [search]; [discriminate|].
  destruct queue as [|link rest]; [discriminate|].
  destruct (bool_decide (link = a)); [discriminate|].
  destruct (Blockstore.has (EventCid link) b); [apply IH | congruence].
Qed.

Lemma contains_error b e a err : contains b e a = Err err -> err = MissingEvent.
Proof.
  unfold contains. destruct (Blockstore.has (EventCid e) b); [apply search_error | congruence].
Qed.

Lemma advance_error b hd e err : Clock.advance b hd e = Err err -> err = MissingEvent.
Proof.
  unfold Clock.advance. destruct (bool_decide (e ∈ hd)); [discriminate|].
  destruct (withoutAncestors b hd e) as [[kept removed]|err1] eqn:Hw.
  - destruct removed; [discriminate|].
    destruct (hasDescendant b hd e) as [[|]|err2] eqn:Hd; try discriminate.
    intros [= <-]. clear Hw. induction hd as [|h rest IH]; [discriminate|].
    cbn [hasDescendant] in Hd.
    destruct (contains b h e) as [[|]|err3] eqn:Hc; [discriminate | exact (IH Hd) |].
    injection Hd as <-. eapply contains_error. exact Hc.
  - intros [= <-]. induction hd as [|h rest IH]; [discriminate|].
    cbn [withoutAncestors] in Hw.
    destruct (contains b e h) as [below|err3] eqn:Hc.
    + destruct (withoutAncestors b rest e) as [[kept removed]|err4]; [discriminate|].
      injection Hw as <-. apply IH. reflexivity.
    + injection Hw as <-. eapply contains_error. exact Hc.
Qed.

(** X15: a [put] that raises has changed nothing.  An [advance] that raises
    has left the store and the root as they were, but not always the head:
    the head is assigned before the root is computed, so when the clock
    returned a head and the root could not be computed, the replica is left
    with that head and the root of the head before.  The error is the
    missing event block in every case. *)
Theorem failed_put_and_failed_advance (st : St) :
  (forall k v err st', put k v st = (Err err, st') -> st' = st /\ err = MissingEvent) /\
  (forall e err st',
      advance e st = (Err err, st') ->
      err = MissingEvent /\ fst st' = fst st /\ root (snd st') = root (snd st) /\
      (head (snd st') = head (snd st) \/
       Clock.advance (fst st) (head (snd st)) e = Ok (head (snd st')))).
Proof.
  destruct st as [b p]. split.
  - intros k v err st'.
    unfold put, bind, gets, liftResult, Crdt.put. cbn [fst snd].
    destruct (forallb (resolvable b) (head p)).
    + cbn [Crdt.pr_event Crdt.pr_additions putAdditions]. rewrite putSync_eq. cbn [fst snd].
      unfold bind. rewrite putSync_eq. discriminate.
    + intros [= <- <-]. split; reflexivity.
  - intros e err st'.
    unfold advance, bind, gets, liftResult, modify. cbn [fst snd].
    destruct (Clock.advance b (head p) e) as [h'|err'] eqn:Hadv.
    + cbn [fst snd set_head head]. unfold Crdt.root.
      destruct (forallb (resolvable b) h') eqn:Hres; [discriminate|].
      intros [= <- <-]. cbn [fst snd head root]. repeat split. right. reflexivity.
    + intros [= <- <-]. cbn [fst snd]. split; [eapply advance_error; exact Hadv|].
      repeat split. left. reflexivity.
Qed.

Lemma failed_put_and_failed_advance_witness :
  advance Scenario.firstEvent Scenario.emptyPail
  = (Err MissingEvent, (Blockstore.empty, mkTestPail [Scenario.firstEvent] None)) /\
  Clock.advance Blockstore.empty [] Scenario.firstEvent = Ok [Scenario.firstEvent].
Proof.
  split; [vm_compute; reflexivity|].
  destruct (proj2 (failed_put_and_failed_advance Scenario.emptyPail)
              Scenario.firstEvent MissingEvent
              (Blockstore.empty, mkTestPail [Scenario.firstEvent] None))
    as (_ & _ & _ & [Hhead|Hclock]).
  - vm_compute. reflexivity.
  - vm_compute in Hhead. discriminate Hhead.
  - exact Hclock.
Defined.

(** X16: convergence for every interleaving of puts and advances that all
    returned: whenever the two replicas have incorporated the same events,
    they have the same root, heads with the same events, and the same
    answers to [get]. *)
Theorem interleavings_converge (acts : list (Replica * Op)) :
  completes acts emptyWorld = true ->
  sameEvents (events (head (alice (schedule acts)))) (events (head (bob (schedule acts)))) ->
  root (alice (schedule acts)) = root (bob (schedule acts)) /\
  (forall e, In e (head (alice (schedule acts))) <-> In e (head (bob (schedule acts)))) /\
  (forall key, fst (get key (blocks (schedule acts), alice (schedule acts)))
               = fst (get key (blocks (schedule acts), bob (schedule acts)))).
Proof.
  intros Hc Hsame. destruct (schedule_inv acts Hc) as [Ha Hb].
  destruct (PailInv_converge _ _ _ Ha Hb Hsame) as (Hroot & Hheads & Hget).
  split; [exact Hroot|]. split; [exact Hheads | exact Hget].
Qed.

Lemma interleavings_converge_witness :
  root (alice (schedule Scenario.sharedPut)) = root (bob (schedule Scenario.sharedPut)) /\
  (forall e, In e (head (alice (schedule Scenario.sharedPut)))
             <-> In e (head (bob (schedule Scenario.sharedPut)))) /\
  (forall key, fst (get key (blocks (schedule Scenario.sharedPut),
                             alice (schedule Scenario.sharedPut)))
               = fst (get key (blocks (schedule Scenario.sharedPut),
                               bob (schedule Scenario.sharedPut)))).
Proof.
  apply (interleavings_converge Scenario.sharedPut).
  - vm_compute. reflexivity.
  - intros x. vm_compute. tauto.
Defined.

End PailBehaviour.
(** * More on the hook package: storage, subscribers, setup and [husher] *)

Module HookBehaviour.
Import Clock Hook HookFacts.
Local Open Scope js_scope.

(** ** Local storage *)

(** X17: with local storage supported, [localGet] after [localSet] returns
    the value set under the key and what was stored under any other key;
    without it, [localSet] stores nothing and [localGet] returns undefined.
    Neither touches the database, the subscribers or the ready flag. *)
Theorem localSet_then_localGet (key key' : string) (value : Handle) (a : App) :
  let a' := snd (localSet key value a) in
  localGet key' a'
  = (Ok (if storageSupported a
         then (if decide (key' = key) then Some value else localStorage a !! key')
         else None), a') /\
  database a' = database a /\ inboundSubscriberQueue a' = inboundSubscriberQueue a /\
  ready a' = ready a.
Proof.
  unfold localSet, localGet. destruct (storageSupported a) eqn:Hs; cbn [snd].
  - cbn [storageSupported set_localStorage localStorage database inboundSubscriberQueue ready].
    rewrite Hs. split; [|repeat split].
    destruct (decide (key' = key)) as [->|Hne].
    + rewrite lookup_insert_eq. reflexivity.
    + rewrite lookup_insert_ne by congruence. reflexivity.
  - rewrite Hs. repeat split.
Qed.

(** ** Subscribers *)

Lemma mapSet_spec (label : string) (fn : nat) (q : list (string * nat)) :
  NoDup (map fst q) ->
  NoDup (map fst (mapSet label fn q)) /\
  (forall l f, In (l, f) (mapSet label fn q)
               <-> (l = label /\ f = fn) \/ (l <> label /\ In (l, f) q)) /\
  exists new, map fst (mapSet label fn q) = map fst q ++ new.
Proof.
  induction q as [|[l0 f0] q IH]; intros Hnd; cbn [mapSet].
  - split; [|split].
    + cbn. apply list.NoDup_singleton.
    + intros l f. cbn. split.
      * intros [[= <- <-]|[]]. left. split; reflexivity.
      * intros [[-> ->]|[_ []]]. left. reflexivity.
    + exists [label]. reflexivity.
  - cbn [map fst] in Hnd. apply list.NoDup_cons in Hnd as [Hnotin Hnd].
    destruct (decide (l0 = label)) as [->|Hne].
    + split; [|split].
      * cbn [map fst]. apply list.NoDup_cons. split; assumption.
      * intros l f. cbn [In]. split.
        -- intros [[= <- <-]|Hin]; [left; split; reflexivity|].
           right. split; [|right; exact Hin].
           intros ->. apply Hnotin. apply list_elem_of_In, in_map_iff.
           exists (label, f). split; [reflexivity | exact Hin].
        -- intros [[-> ->]|[Hl [[= -> ->]|Hin]]]; [left; reflexivity | contradiction | right; exact Hin].
      * exists []. rewrite app_nil_r. reflexivity.
    + destruct (IH Hnd) as (IHnd & IHin & new & IHnew). split; [|split].
      * cbn [map fst]. apply list.NoDup_cons. split; [|exact IHnd].
        intros Hin. apply list_elem_of_In, in_map_iff in Hin as ([l f] & Hl & Hin).
        cbn in Hl. subst l. apply IHin in Hin as [[-> _]|[_ Hin]]; [contradiction|].
        apply Hnotin, list_elem_of_In, in_map_iff. exists (l0, f). split; [reflexivity | exact Hin].
      * intros l f. cbn [In]. rewrite IHin. split.
        -- intros [[= <- <-]|[H|[H1 H2]]]; [right; split; [exact Hne | left; reflexivity] | left; exact H |].
           right. split; [exact H1 | right; exact H2].
        -- intros [H|[H1 [H2|H2]]]; [right; left; exact H | left; exact H2 |].
           right. right. split; assumption.
      * exists new. cbn [map fst]. rewrite IHnew. reflexivity.
Qed.

Lemma last_registration_cons (label : string) (fn : nat) (r : string * nat) rest :
  (exists pre post, r :: rest = pre ++ (label, fn) :: post /\ ~ In label (map fst post))
  <-> (exists pre post, rest = pre ++ (label, fn) :: post /\ ~ In label (map fst post))
      \/ (r = (label, fn) /\ ~ In label (map fst rest)).
Proof.
  split.
  - intros (pre & post & Heq & Hpost). destruct pre as [|x pre]; cbn in Heq.
    + injection Heq as -> ->. right. split; [reflexivity | exact Hpost].
    + injection Heq as -> ->. left. exists pre, post. split; [reflexivity | exact Hpost].
  - intros [(pre & post & -> & Hpost)|[-> Hrest]].
    + exists (r :: pre), post. split; [reflexivity | exact Hpost].
    + exists [], rest. split; [reflexivity | exact Hrest].
Qed.

Lemma addSubscribers_spec (regs : list (string * nat)) (a : App) :
  NoDup (map fst (inboundSubscriberQueue a)) ->
  let a' := snd (addSubscribers regs a) in
  NoDup (map fst (inboundSubscriberQueue a')) /\
  (forall label fn,
      In (label, fn) (inboundSubscriberQueue a')
      <-> (exists pre post, regs = pre ++ (label, fn) :: post /\ ~ In label (map fst post))
          \/ (~ In label (map fst regs) /\ In (label, fn) (inboundSubscriberQueue a))) /\
  (exists new, map fst (inboundSubscriberQueue a')
               = map fst (inboundSubscriberQueue a) ++ new) /\
  called a' = called a /\ database a' = database a /\ localStorage a' = localStorage a /\
  storageSupported a' = storageSupported a.
Proof.
  unfold addSubscribers. cbn [snd]. revert a.
  induction regs as [|[l f] regs IH]; intros a Hnd; cbn [fold_left].
  - split; [exact Hnd|]. split; [|split; [exists []; symmetry; apply app_nil_r | repeat split]].
    intros label fn. split.
    + intros H. right. split; [intros [] | exact H].
    + intros [(pre & post & Heq & _)|[_ H]]; [destruct pre; discriminate | exact H].
  - cbn [fst snd].
    replace (snd (addSubscriber l f a))
      with (set_queue (mapSet l f (inboundSubscriberQueue a)) a) by reflexivity.
    set (a1 := set_queue _ a).
    destruct (mapSet_spec l f (inboundSubscriberQueue a) Hnd) as (Hnd1 & Hin1 & new1 & Hnew1).
    destruct (IH a1 Hnd1) as (Hnd' & Hin' & (new & Hnew) & Hc & Hd & Hl & Hs).
    split; [exact Hnd'|]. split; [|split; [|repeat split; assumption]].
    + intros label fn. rewrite Hin'. rewrite last_registration_cons.
      unfold a1. cbn [inboundSubscriberQueue set_queue]. rewrite Hin1. cbn [map fst In].
      split.
      * intros [H|[Hrest [[-> ->]|[Hne Hin]]]].
        -- left. left. exact H.
        -- left. right. split; [reflexivity | exact Hrest].
        -- right. split; [|exact Hin]. intros [H|H]; [congruence | contradiction].
      * intros [[H|[[= -> ->] Hrest]]|[Hnot Hin]].
        -- left. exact H.
        -- right. split; [exact Hrest | left; split; reflexivity].
        -- right. split; [tauto|]. right. split; [|exact Hin]. intros ->. apply Hnot. left. reflexivity.
    + exists (new1 ++ new). rewrite Hnew. unfold a1. cbn [inboundSubscriberQueue set_queue].
      rewrite Hnew1, app_assoc. reflexivity.
Qed.

(** X18: the subscriber queue holds one function per label.  After any
    sequence of [addSubscriber] calls the labels of the queue are distinct, a
    label registered in the sequence holds the function of its last
    registration, a label not registered holds what it held, and the labels
    that were in the queue keep their places; the listener callback then
    calls the functions of the queue, each once, in that order. *)
Theorem subscribers_one_per_label (regs : list (string * nat)) (a : App) :
  NoDup (map fst (inboundSubscriberQueue a)) ->
  let a' := snd (addSubscribers regs a) in
  NoDup (map fst (inboundSubscriberQueue a')) /\
  (forall label fn,
      In (label, fn) (inboundSubscriberQueue a')
      <-> (exists pre post, regs = pre ++ (label, fn) :: post /\ ~ In label (map fst post))
          \/ (~ In label (map fst regs) /\ In (label, fn) (inboundSubscriberQueue a))) /\
  (exists new, map fst (inboundSubscriberQueue a')
               = map fst (inboundSubscriberQueue a) ++ new) /\
  called (snd (listenerCallback a')) = called a ++ map snd (inboundSubscriberQueue a').
Proof.
  intros Hnd a'. destruct (addSubscribers_spec regs a Hnd) as (H1 & H2 & H3 & Hc & _).
  fold a' in H1, H2, H3, Hc. split; [exact H1|]. split; [exact H2|]. split; [exact H3|].
  rewrite <- Hc. unfold listenerCallback, bind, gets, localSet, modify.
  destruct (storageSupported a'); reflexivity.
Qed.

Lemma subscribers_one_per_label_witness :
  NoDup (map fst (inboundSubscriberQueue
                    (snd (addSubscribers Scenario.registrations Scenario.firstVisit)))) /\
  inboundSubscriberQueue (snd (addSubscribers Scenario.registrations Scenario.firstVisit))
  = [("a", 3); ("b", 2)]%string /\
  called (snd (listenerCallback
                 (snd (addSubscribers Scenario.registrations Scenario.firstVisit))))
  = [3; 2].
Proof.
  destruct (subscribers_one_per_label Scenario.registrations Scenario.firstVisit)
    as (Hnd & _ & _ & Hcalled).
  - apply list.NoDup_nil. exact I.
  - split; [exact Hnd|]. split; [reflexivity|]. rewrite Hcalled. reflexivity.
Defined.

(** ** [doSetup] *)

Ltac crack H :=
  repeat (cbn [fst snd database set_database blocks clock storageSupported localStorage
               set_localStorage inboundSubscriberQueue called ready] in H;
          match type of H with
          | context [mapM parseCid ?l] => destruct (mapM parseCid l)
          | context [Crdt.getAll ?b ?l] => destruct (Crdt.getAll b l)
          | context [?f (mkFireproof ?b ?l)] => destruct (f (mkFireproof b l)) as [[?|?] ?]
          | context [lookup ?k ?m] => destruct (lookup k m)
          end).

Lemma doSetup_cases setupFn a h :
  ready a = false ->
  (exists e a1,
      doSetup setupFn (a, h) = (Err e, (a1, h)) /\ ready a1 = false /\
      inboundSubscriberQueue a1 = inboundSubscriberQueue a /\ called a1 = called a) \/
  (exists a1,
      doSetup setupFn (a, h)
      = (Ok (Some (fst (husher "*" (mkWorkFn listenerCallback (Some 0)) 250 (set_ready true a1, h)))),
         snd (husher "*" (mkWorkFn listenerCallback (Some 0)) 250 (set_ready true a1, h))) /\
      inboundSubscriberQueue a1 = inboundSubscriberQueue a /\ called a1 = called a /\
      storageSupported a1 = storageSupported a).
Proof.
  intros Hready. unfold doSetup. rewrite Hready.
  match goal with |- context [let '(r, a1) := ?c in _] => destruct c as [r a1] eqn:Hc end.
  assert (ready a1 = false /\ inboundSubscriberQueue a1 = inboundSubscriberQueue a /\
          called a1 = called a /\ storageSupported a1 = storageSupported a) as (H1 & H2 & H3 & H4).
  { unfold bind, localGet, onDatabase, zoom, setClock, changesSince, getAll, gets, localSet in Hc.
    change (mapM parseCid []) with (Some (@nil EventLink)) in Hc.
    destruct a as [sup ls db q cl rd]. cbn in Hready. subst rd.
    cbn [fst snd database set_database blocks clock storageSupported localStorage
         set_localStorage inboundSubscriberQueue called ready] in Hc |- *.
    destruct db as [bl ck]. destruct sup; crack Hc; injection Hc as <- <-; cbn; repeat split. }
  destruct r as [u|e].
  - right. exists a1. split; [|repeat split; assumption].
    destruct (husher _ _ _ _) as [p st']. reflexivity.
  - left. exists e, a1. split; [reflexivity|]. repeat split; assumption.
Qed.

(** X19: [doSetup] that raises leaves the hook not ready, has not called
    [husher] and has called no subscriber; [doSetup] that completes leaves
    the hook ready, and every later run of [doSetup] does nothing: no setup
    function runs and no state changes. *)
Theorem doSetup_ready_iff_completed setupFn (a : App) (h : Hush) r a' h' :
  doSetup setupFn (a, h) = (r, (a', h')) ->
  match r with
  | Err _ => ready a' = false /\ h' = h /\
             inboundSubscriberQueue a' = inboundSubscriberQueue a /\ called a' = called a
  | Ok _ => ready a' = true /\
            forall setupFn', doSetup setupFn' (a', h') = (Ok None, (a', h'))
  end.
Proof.
  intros Hrun.
  assert (forall b k, ready b = true -> forall setupFn', doSetup setupFn' (b, k) = (Ok None, (b, k)))
    as Hnoop.
  { intros b k Hb setupFn'. unfold doSetup. rewrite Hb. reflexivity. }
  destruct (ready a) eqn:Hready.
  - rewrite (Hnoop a h Hready) in Hrun. injection Hrun as <- <- <-.
    split; [exact Hready | apply Hnoop; exact Hready].
  - destruct (doSetup_cases setupFn a h Hready) as [(e & a1 & Heq & H1 & H2 & H3)|(a1 & Heq & H2 & H3 & H4)];
      rewrite Heq in Hrun.
    + injection Hrun as <- <- <-. repeat split; assumption.
    + injection Hrun as <- Hst.
      assert (ready a' = true) as Hr.
      { apply (f_equal (fun st => ready (fst st))) in Hst. cbn [fst] in Hst. rewrite <- Hst.
        unfold husher. destruct (husherMap h !! "*"%string); cbn [fst snd]; [reflexivity|].
        unfold listenerCallback, bind, gets, localSet, modify. cbn [storageSupported set_ready].
        destruct (storageSupported a1); reflexivity. }
      split; [exact Hr | apply Hnoop; exact Hr].
Qed.

Lemma husher_listenerCallback_database a h :
  database (fst (snd (husher "*" (mkWorkFn listenerCallback (Some 0)) 250 (a, h)))) = database a /\
  ready (fst (snd (husher "*" (mkWorkFn listenerCallback (Some 0)) 250 (a, h)))) = ready a /\
  storageSupported (fst (snd (husher "*" (mkWorkFn listenerCallback (Some 0)) 250 (a, h))))
  = storageSupported a /\
  (localStorage (fst (snd (husher "*" (mkWorkFn listenerCallback (Some 0)) 250 (a, h))))
   = localStorage a \/
   storageSupported a = true /\
   localStorage (fst (snd (husher "*" (mkWorkFn listenerCallback (Some 0)) 250 (a, h))))
   = <["fireproof"%string := toJSON (database a)]> (localStorage a)).
Proof.
  unfold husher. destruct (husherMap h !! "*"%string); cbn [fst snd].
  - repeat split. left. reflexivity.
  - unfold listenerCallback, bind, gets, localSet, modify. cbn [work].
    destruct (storageSupported a) eqn:Hs; cbn; rewrite ?Hs; repeat split; auto.
Qed.

Lemma doSetup_ready_iff_completed_witness :
  ready (fst (snd (doSetup Scenario.noSetup (Scenario.firstVisit, Hush_init)))) = true /\
  forall setupFn',
    doSetup setupFn' (snd (doSetup Scenario.noSetup (Scenario.firstVisit, Hush_init)))
    = (Ok None, snd (doSetup Scenario.noSetup (Scenario.firstVisit, Hush_init))).
Proof.
  exact (doSetup_ready_iff_completed Scenario.noSetup Scenario.firstVisit Hush_init
           (Ok (Some 0))
           (fst (snd (doSetup Scenario.noSetup (Scenario.firstVisit, Hush_init))))
           (snd (snd (doSetup Scenario.noSetup (Scenario.firstVisit, Hush_init))))
           eq_refl).
Defined.

(** X20: a session survives a reload of the page.  After the listener
    callback has run with local storage supported, [doSetup] on the reloaded
    page, whose database object is new and has an empty clock, completes
    without running the setup function: the database has the clock it had
    when the callback ran, [getAll] returns what it returned then, the hook
    is ready and the stored handle is unchanged. *)
Theorem session_survives_reload setupFn (a : App) (h : Hush) rows_ :
  storageSupported a = true ->
  fst (getAll (database a)) = Ok rows_ ->
  exists p st',
    doSetup setupFn (reload (snd (listenerCallback a)), h) = (Ok (Some p), st') /\
    database (fst st') = database a /\
    fst (getAll (database (fst st'))) = Ok rows_ /\
    ready (fst st') = true /\
    localStorage (fst st') !! "fireproof"%string = Some (toJSON (database a)).
Proof.
  intros Hs Hall.
  destruct (listenerCallback_persists a Hs) as [Hfp Hdb].
  set (a1 := snd (listenerCallback a)) in *.
  assert (storageSupported a1 = true) as Hs1.
  { unfold a1, listenerCallback, bind, gets, localSet, modify. rewrite Hs. cbn. exact Hs. }
  unfold doSetup. cbn [ready reload].
  unfold bind at 1. unfold localGet. cbn [storageSupported localStorage reload].
  rewrite Hs1, Hfp.
  unfold bind at 1. unfold onDatabase at 1, zoom. rewrite setClock_toJSON.
  cbn [fst snd database reload blocks set_database].
  unfold onDatabase, zoom, changesSince. cbn [database set_database].
  unfold getAll in *. cbn [fst snd blocks clock] in *. rewrite Hdb, Hall.
  cbn [fst snd].
  match goal with |- context [husher ?i ?w ?m ?st] =>
    destruct (husher_listenerCallback_database (fst st) (snd st)) as (H1 & H2 & H3 & H4);
    cbn [fst snd] in H1, H2, H3, H4;
    destruct (husher i w m st) as [p st'] eqn:Hh end.
  cbn [fst snd] in *. exists p, st'. split; [reflexivity|].
  cbn [database set_ready set_database ready localStorage storageSupported] in *.
  assert (database (fst st') = database a) as Hd.
  { rewrite H1. destruct (database a). reflexivity. }
  split; [exact Hd|]. split; [rewrite Hd; exact Hall|]. split; [exact H2|].
  destruct H4 as [->| [_ ->]].
  - exact Hfp.
  - rewrite lookup_insert_eq. reflexivity.
Qed.

Lemma session_survives_reload_witness :
  exists p st',
    doSetup Scenario.noSetup (reload (snd (listenerCallback Scenario.savedSession)), Hush_init)
    = (Ok (Some p), st') /\
    database (fst st') = Scenario.savedDb /\
    fst (getAll (database (fst st'))) = Ok [("key", "v1")]%string /\
    ready (fst st') = true /\
    localStorage (fst st') !! "fireproof"%string = Some (toJSON Scenario.savedDb).
Proof.
  apply (session_survives_reload Scenario.noSetup Scenario.savedSession Hush_init
           [("key", "v1")]%string).
  - reflexivity.
  - vm_compute. reflexivity.
Defined.

(** X21: with no handle stored (a first visit, or a browser without local
    storage) [doSetup] runs the setup function on the database, makes the
    hook ready and, when local storage is supported, stores the handle of
    the database the setup function left; without local storage nothing is
    stored, so every load of the page runs the setup function again. *)
Theorem doSetup_without_stored_handle setupFn (a : App) (h : Hush) db1 :
  ready a = false ->
  (storageSupported a = true -> localStorage a !! "fireproof"%string = None) ->
  setupFn (database a) = (Ok tt, db1) ->
  exists p st',
    doSetup setupFn (a, h) = (Ok (Some p), st') /\
    database (fst st') = db1 /\
    ready (fst st') = true /\
    localStorage (fst st')
    = (if storageSupported a
       then <["fireproof"%string := toJSON db1]> (localStorage a)
       else localStorage a).
Proof.
  intros Hready Hfp Hsetup. unfold doSetup. rewrite Hready.
  unfold bind at 1. unfold localGet.
  assert ((if storageSupported a
           then (Ok (localStorage a !! "fireproof"%string), a)
           else (Ok None, a)) = (Ok (@None Handle), a)) as ->.
  { destruct (storageSupported a); [rewrite Hfp by reflexivity|]; reflexivity. }
  unfold bind, onDatabase, zoom, gets, localSet. rewrite Hsetup.
  cbn [fst snd storageSupported set_database database].
  destruct (storageSupported a) eqn:Hs; cbn [fst snd];
  match goal with |- context [husher ?i ?w ?m ?st] =>
    destruct (husher_listenerCallback_database (fst st) (snd st)) as (H1 & H2 & H3 & H4);
    cbn [fst snd] in H1, H2, H3, H4;
    destruct (husher i w m st) as [p st'] eqn:Hh
  end;
  cbn [fst snd] in *; exists p, st';
    (split; [reflexivity|]);
    cbn [database set_ready set_database set_localStorage ready localStorage storageSupported] in *;
    (split; [exact H1|]); (split; [exact H2|]).
  - destruct H4 as [->| [_ ->]]; [reflexivity | apply insert_insert_eq].
  - destruct H4 as [->| [H4 _]]; [reflexivity | congruence].
Qed.

Lemma doSetup_without_stored_handle_witness :
  exists p st',
    doSetup Scenario.noSetup (Scenario.firstVisit, Hush_init) = (Ok (Some p), st') /\
    database (fst st') = Scenario.reloadedDb /\
    ready (fst st') = true /\
    localStorage (fst st') = <["fireproof"%string := toJSON Scenario.reloadedDb]> ∅.
Proof.
  apply (doSetup_without_stored_handle Scenario.noSetup Scenario.firstVisit Hush_init
           Scenario.reloadedDb).
  - reflexivity.
  - intros _. reflexivity.
  - reflexivity.
Defined.

(** X22: a stored clock that cannot be loaded.  When the stored handle
    parses but [changesSince] raises on its clock, [doSetup] resets the clock
    to the empty one, runs the setup function on the reset database, makes
    the hook ready and replaces the stored handle by the handle of the
    database the setup function left. *)
Theorem doSetup_resets_unloadable_clock setupFn (a : App) (h : Hush)
        (handle : Handle) (head_ : list EventLink) (e : Error) db1 :
  ready a = false ->
  storageSupported a = true ->
  localStorage a !! "fireproof"%string = Some handle ->
  mapM parseCid (h_clock handle) = Some head_ ->
  Crdt.getAll (blocks (database a)) head_ = Err e ->
  setupFn (mkFireproof (blocks (database a)) []) = (Ok tt, db1) ->
  exists p st',
    doSetup setupFn (a, h) = (Ok (Some p), st') /\
    database (fst st') = db1 /\
    ready (fst st') = true /\
    localStorage (fst st') = <["fireproof"%string := toJSON db1]> (localStorage a).
Proof.
  intros Hready Hs Hfp Hparse Hall Hsetup. unfold doSetup. rewrite Hready.
  unfold bind at 1. unfold localGet. rewrite Hs, Hfp.
  unfold bind at 1. unfold onDatabase at 1, zoom, setClock. rewrite Hparse.
  cbn [fst snd].
  unfold onDatabase at 1, zoom, changesSince, getAll.
  cbn [fst snd database set_database blocks clock]. rewrite Hall.
  unfold bind, onDatabase, zoom, setClock, gets, localSet.
  change (mapM parseCid []) with (Some (@nil EventLink)).
  cbn [fst snd database set_database blocks clock storageSupported]. rewrite Hsetup.
  cbn [fst snd database set_database blocks clock storageSupported]. rewrite Hs.
  match goal with |- context [husher ?i ?w ?m ?st] =>
    destruct (husher_listenerCallback_database (fst st) (snd st)) as (H1 & H2 & H3 & H4);
    cbn [fst snd] in H1, H2, H3, H4;
    destruct (husher i w m st) as [p st'] eqn:Hh
  end.
  cbn [fst snd] in *. exists p, st'. split; [reflexivity|].
  cbn [database set_ready set_database set_localStorage ready localStorage storageSupported] in *.
  split; [exact H1|]. split; [exact H2|].
  destruct H4 as [->| [_ ->]]; [reflexivity | apply insert_insert_eq].
Qed.

Lemma doSetup_resets_unloadable_clock_witness :
  exists p st',
    doSetup Scenario.noSetup (Scenario.strandedVisit, Hush_init) = (Ok (Some p), st') /\
    database (fst st') = mkFireproof Blockstore.empty [] /\
    ready (fst st') = true /\
    localStorage (fst st')
    = <["fireproof"%string := toJSON (mkFireproof Blockstore.empty [])]>
        (localStorage Scenario.strandedVisit).
Proof.
  apply (doSetup_resets_unloadable_clock Scenario.noSetup Scenario.strandedVisit Hush_init
           (toJSON Scenario.savedDb) (clock Scenario.savedDb) MissingEvent
           (mkFireproof Blockstore.empty [])).
  - reflexivity.
  - reflexivity.
  - apply lookup_singleton_eq.
  - exact (parse_handle (clock Scenario.savedDb)).
  - vm_compute. reflexivity.
  - reflexivity.
Defined.

(** ** [husher] over any run *)











End HookBehaviour.
